(** * datadriven: a shallow embedding of [datadriven.go]

    The development follows the layout of the Go file.  Go strings are byte
    strings and are modelled by [string] (a list of 8-bit [ascii]); slices are
    lists; [int] lengths are [nat].  The pieces of the Go standard library the
    file calls ([strings], [fmt], [bufio], [strconv], [testing]) are modelled
    in modules of the same name, each function after its Go definition.

    [RunTest], [RunTestFromString] and [Walk] open files and walk
    directories; the model starts at [runTestInternal], which they call, with
    the records of the input and the content of the file it came from. *)

From Stdlib Require Import String Ascii ZArith Lia Bool.
From stdpp Require Import strings gmap list.

(* stdpp freezes [String.append] under [simpl]; the proofs below compute
   with it. *)
#[local] Arguments String.append !_ _ /.

Definition LF : ascii := "010"%char.
Definition CR : ascii := "013"%char.

(** ** Package [strings] *)

Module strings.

(** [s[i:]] *)
Fixpoint sliceFrom (i : nat) (s : string) : string :=
  match i, s with
  | 0, _ => s
  | S i', String _ s' => sliceFrom i' s'
  | S _, EmptyString => EmptyString
  end.

(** [s[:j]] *)
Fixpoint sliceTo (j : nat) (s : string) : string :=
  match j, s with
  | 0, _ => EmptyString
  | S j', String c s' => String c (sliceTo j' s')
  | S _, EmptyString => EmptyString
  end.

(** [len(s) >= len(prefix) && s[:len(prefix)] == prefix] *)
Definition HasPrefix (s prefix : string) : bool :=
  (String.length prefix <=? String.length s)
  && String.eqb (sliceTo (String.length prefix) s) prefix.

(** [len(s) >= len(suffix) && s[len(s)-len(suffix):] == suffix] *)
Definition HasSuffix (s suffix : string) : bool :=
  (String.length suffix <=? String.length s)
  && String.eqb (sliceFrom (String.length s - String.length suffix) s) suffix.

(** [strings.Join]: the two short cases are returned directly, otherwise
    the builder receives [elems[0]] and then [sep], [s] for every further
    element. *)
Definition Join (elems : list string) (sep : string) : string :=
  match elems with
  | [] => ""
  | [e] => e
  | e :: rest => foldl (fun b s => b +:+ sep +:+ s) e rest
  end.

(** White space as [unicode.IsSpace] sees it, given by the UTF-8 encoding
    of each rune: the six ASCII characters, U+0085, U+00A0, U+1680,
    U+2000..U+200A, U+2028, U+2029, U+202F, U+205F and U+3000.  Go decodes
    an invalid or overlong sequence to U+FFFD, which is not white space, so
    a rune is white space exactly when the bytes are one of these. *)
Definition bytes (l : list nat) : string :=
  string_of_list_ascii (map ascii_of_nat l).

Definition spaceRunes : list string :=
  map bytes
    [ [9]; [10]; [11]; [12]; [13]; [32];
      [194; 133]; [194; 160];
      [225; 154; 128];
      [226; 128; 128]; [226; 128; 129]; [226; 128; 130]; [226; 128; 131];
      [226; 128; 132]; [226; 128; 133]; [226; 128; 134]; [226; 128; 135];
      [226; 128; 136]; [226; 128; 137]; [226; 128; 138];
      [226; 128; 168]; [226; 128; 169]; [226; 128; 175];
      [226; 129; 159];
      [227; 128; 128] ].

(** The rest of [s] behind a leading white-space rune. *)
Fixpoint cutLeading (runes : list string) (s : string) : option string :=
  match runes with
  | [] => None
  | r :: runes' =>
      if HasPrefix s r then Some (sliceFrom (String.length r) s)
      else cutLeading runes' s
  end.

(** The rest of [s] before a trailing white-space rune. *)
Fixpoint cutTrailing (runes : list string) (s : string) : option string :=
  match runes with
  | [] => None
  | r :: runes' =>
      if HasSuffix s r then Some (sliceTo (String.length s - String.length r) s)
      else cutTrailing runes' s
  end.

(** [TrimLeftFunc(s, unicode.IsSpace)]; the loop runs at most once per
    byte. *)
Fixpoint trimLeft (n : nat) (s : string) : string :=
  match n with
  | 0 => s
  | S n' => match cutLeading spaceRunes s with
            | Some s' => trimLeft n' s'
            | None => s
            end
  end.

(** [TrimRightFunc(s, unicode.IsSpace)] *)
Fixpoint trimRight (n : nat) (s : string) : string :=
  match n with
  | 0 => s
  | S n' => match cutTrailing spaceRunes s with
            | Some s' => trimRight n' s'
            | None => s
            end
  end.

(** [strings.TrimSpace]: its ASCII fast path and the fall-back to
    [TrimFunc] compute the same string. *)
Definition TrimSpace (s : string) : string :=
  let s1 := trimLeft (String.length s) s in
  trimRight (String.length s1) s1.

End strings.

(** ** Package [fmt], for string operands *)

Module fmt.

(** [fmt.Sprintf] on a format whose only verb is [%s], with string
    operands: the text is copied and every verb replaced by the next
    operand. *)
Fixpoint Sprintf (format : string) (args : list string) : string :=
  match format with
  | EmptyString => EmptyString
  | String "%" (String "s" rest) =>
      match args with
      | a :: args' => a +:+ Sprintf rest args'
      | [] => "%!s(MISSING)" +:+ Sprintf rest []
      end
  | String c rest => String c (Sprintf rest args)
  end.

End fmt.

(** ** The argument value model *)

(** [type CmdArg struct] *)
Record CmdArg := { Key : string; Vals : list string }.

(** [type TestData struct] *)
Record TestData := {
  Pos : string;
  Cmd : string;
  CmdArgs : list CmdArg;
  Input : string;
  Expected : string
}.

(** [func (td *TestData) HasArg(key string) bool] *)
Fixpoint HasArg_loop (args : list CmdArg) (key : string) : bool :=
  match args with
  | [] => false
  | a :: args' => if String.eqb (Key a) key then true else HasArg_loop args' key
  end.

Definition HasArg (td : TestData) (key : string) : bool :=
  HasArg_loop (CmdArgs td) key.

(** [func (arg CmdArg) String() string] *)
Definition CmdArg_String (arg : CmdArg) : string :=
  match length (Vals arg), Vals arg with
  | 0, _ => Key arg
  | 1, v :: _ => fmt.Sprintf "%s=%s" [Key arg; v]
  | _, vals => fmt.Sprintf "%s=(%s)" [Key arg; strings.Join vals ", "]
  end.


(** ** Package [bufio]: a [Scanner] with [ScanLines] over a string *)

Module bufio.

(** [bufio.MaxScanTokenSize], "the maximum size used to buffer a token":
    [NewScanner] sets it as the size the buffer of the scanner may grow
    to. *)
Definition MaxScanTokenSize : nat := 64 * 1024.

(** [dropCR] *)
Definition dropCR (data : string) : string :=
  match String.get (String.length data - 1) data with
  | Some c =>
      if (0 <? String.length data) && Ascii.eqb c CR
      then strings.sliceTo (String.length data - 1) data
      else data
  | None => data
  end.

(** What the scanner finds when it looks for the next line in the unread
    input [data] with [room] bytes of buffer left.  [Scan] fills the buffer
    from the start of the line and hands it to [ScanLines], which is
    satisfied by a newline inside the buffer, or by the end of the input when
    [Scan] has seen it.  While [ScanLines] asks for more data [Scan] reads
    on, doubling the buffer when it is full; a buffer of [MaxScanTokenSize]
    bytes that is full cannot grow, and [Scan] gives up there with
    [ErrTooLong] ("bufio.Scanner: token too long"), before it reads any
    further.  A line is thus found if it has fewer than [MaxScanTokenSize]
    bytes before its terminator or the end of the input. *)
Inductive line :=
  | FullLine (text rest : string)
  | LastLine (text : string)
  | BufferFull.

Fixpoint readLine (room : nat) (data : string) : line :=
  match room with
  | 0 => BufferFull
  | S room' =>
      match data with
      | EmptyString => LastLine EmptyString
      | String c data' =>
          if Ascii.eqb c LF then FullLine EmptyString data'
          else match readLine room' data' with
               | FullLine text rest => FullLine (String c text) rest
               | LastLine text => LastLine (String c text)
               | BufferFull => BufferFull
               end
      end
  end.

(** One call of [Scanner.Scan] on the unread input, followed by
    [Scanner.Text]: the token and the input left, or the reason [Scan]
    returned false. *)
Inductive scan :=
  | Token (text rest : string)
  | EndOfInput
  | ErrTooLong.

Definition Scan (data : string) : scan :=
  match data with
  | EmptyString => EndOfInput
  | _ =>
      match readLine MaxScanTokenSize data with
      | FullLine text rest => Token (dropCR text) rest
      | LastLine text => Token (dropCR text) EmptyString
      | BufferFull => ErrTooLong
      end
  end.

End bufio.

(** [func hasBlankLine(s string) bool].  The loop [for scanner.Scan()] ends
    when [Scan] returns false; the function never looks at [scanner.Err()].
    Every token takes at least one byte of input, so the loop runs at most
    [len(s)] times. *)
Fixpoint hasBlankLine_loop (n : nat) (unread : string) : bool :=
  match n with
  | 0 => false
  | S n' =>
      match bufio.Scan unread with
      | bufio.Token text rest =>
          if String.eqb (strings.TrimSpace text) "" then true
          else hasBlankLine_loop n' rest
      | bufio.EndOfInput | bufio.ErrTooLong => false
      end
  end.

Definition hasBlankLine (s : string) : bool :=
  hasBlankLine_loop (S (String.length s)) s.

(** ** Package [strconv], base 10 and 64 bits *)

Module strconv.

Inductive errKind := ErrSyntax | ErrRange.

(** [type NumError struct] *)
Record NumError := { Func : string; Num : string; Err : errKind }.

Definition syntaxError (fn str : string) : NumError :=
  {| Func := fn; Num := str; Err := ErrSyntax |}.
Definition rangeError (fn str : string) : NumError :=
  {| Func := fn; Num := str; Err := ErrRange |}.

Definition maxUint64 : Z := 2 ^ 64 - 1.

(** The digit loop of [ParseUint] for base 10: a byte outside ['0'..'9'] is
    a syntax error (a letter is a digit of value 10 or more, and an
    underscore is only allowed for base 0); [n >= cutoff] and a sum that
    wraps around or exceeds [maxVal] are range errors. *)
Fixpoint parseDigits (s0 : string) (s : string) (n : Z) : Z * option NumError :=
  match s with
  | EmptyString => (n, None)
  | String c s' =>
      let b := Z.of_nat (nat_of_ascii c) in
      if (48 <=? b) && (b <=? 57) then
        let d := b - 48 in
        let cutoff := maxUint64 / 10 + 1 in
        if cutoff <=? n then (maxUint64, Some (rangeError "ParseUint" s0))
        else
          let n10 := (n * 10) mod 2 ^ 64 in
          let n1 := (n10 + d) mod 2 ^ 64 in
          if (n1 <? n10) || (maxUint64 <? n1)
          then (maxUint64, Some (rangeError "ParseUint" s0))
          else parseDigits s0 s' n1
      else (0, Some (syntaxError "ParseUint" s0))
  end%Z.

(** [strconv.ParseUint(s, 10, 64)] *)
Definition ParseUint (s : string) : Z * option NumError :=
  match s with
  | EmptyString => (0%Z, Some (syntaxError "ParseUint" s))
  | _ => parseDigits s s 0
  end.

(** [strconv.ParseInt(s, 10, 64)] *)
Definition ParseInt (s0 : string) : Z * option NumError :=
  match s0 with
  | EmptyString => (0%Z, Some (syntaxError "ParseInt" s0))
  | String c0 rest =>
      let neg := Ascii.eqb c0 "-" in
      let s := if Ascii.eqb c0 "+" || neg then rest else s0 in
      let cutoff := (2 ^ 63)%Z in
      match ParseUint s with
      | (_, Some {| Err := ErrSyntax |}) => (0%Z, Some (syntaxError "ParseInt" s0))
      | (un, _) =>
          if negb neg && (cutoff <=? un)%Z
          then ((cutoff - 1)%Z, Some (rangeError "ParseInt" s0))
          else if neg && (cutoff <? un)%Z
          then ((- cutoff)%Z, Some (rangeError "ParseInt" s0))
          else ((if neg then - un else un)%Z, None)
      end
  end.

(** [strconv.ParseBool] *)
Definition ParseBool (str : string) : bool * option NumError :=
  if bool_decide (str ∈ ["1"; "t"; "T"; "TRUE"; "true"; "True"]) then (true, None)
  else if bool_decide (str ∈ ["0"; "f"; "F"; "FALSE"; "false"; "False"]) then (false, None)
  else (false, Some (syntaxError "ParseBool" str)).

End strconv.


(** ** Package [testing] *)

Module testing.

(** A destination handed to [ScanArgs]: a pointer, whose static type the type
    switch of [Scan] inspects, to a variable of the calling test. *)
Definition loc := nat.

Inductive pointer :=
  | PString (l : loc)
  | PInt (l : loc)
  | PUint64 (l : loc)
  | PBool (l : loc)
  | POther (type : string).

(** Operands of the formatting calls that build log messages.  Messages are
    kept as the format with its operands. *)
#[warnings="-register-all"]
Inductive operand :=
  | OString (s : string)
  | OInt (n : Z)
  | OError (e : strconv.NumError)
  | OPointer (p : pointer)
  | OSprintf (format : string) (args : list operand).

Inductive logEntry :=
  | Logf (format : string) (args : list operand)
  | Fatal_ (args : list operand)
  | Fatalf_ (format : string) (args : list operand).

(** The state of one [testing.T]: its flags and what has been logged so far
    (the log is kept in one chronological list for the whole run). *)
Record T := { failed : bool; skipped : bool; output : list logEntry }.

(** How a call ends other than by returning.  [t.FailNow] and [t.SkipNow]
    end the goroutine of the running test with [runtime.Goexit]. *)
Inductive stop := Goexit | Panic | OutOfFuel.

Inductive outcome (A : Type) :=
  | Normal (a : A)
  | Stopped (why : stop).
Arguments Normal {A} a.
Arguments Stopped {A} why.

(** Code that runs on behalf of a test: state passing with an outcome. *)
Definition M (S A : Type) : Type := S → outcome A * S.

#[export] Instance M_ret {S} : MRet (M S) := λ A a s, (Normal a, s).
#[export] Instance M_bind {S} : MBind (M S) := λ A B k m s,
  match m s with
  | (Normal a, s') => k a s'
  | (Stopped why, s') => (Stopped why, s')
  end.

Definition stopWith {S A} (why : stop) : M S A := λ s, (Stopped why, s).
Definition gets {S A} (g : S → A) : M S A := λ s, (Normal (g s), s).
Definition modify {S} (g : S → S) : M S unit := λ s, (Normal tt, g s).

(** [testing.TB]: a state in which a current test lives. *)
Class TB (S : Type) := { getT : S → T; setT : T → S → S }.

Section TB.
Context {S : Type} `{!TB S}.

Definition Failed : M S bool := gets (λ s, failed (getT s)).
Definition Skipped : M S bool := gets (λ s, skipped (getT s)).

(** [Fail] marks the test; the mark reaches the parents when [Run] hands
    control back to them (they do not run in between). *)
Definition Fail : M S unit :=
  modify (λ s, setT {| failed := true; skipped := skipped (getT s);
                       output := output (getT s) |} s).

Definition FailNow {A} : M S A := Fail ;; stopWith Goexit.

Definition SkipNow {A} : M S A :=
  modify (λ s, setT {| failed := failed (getT s); skipped := true;
                       output := output (getT s) |} s) ;;
  stopWith Goexit.

Definition log (e : logEntry) : M S unit :=
  modify (λ s, setT {| failed := failed (getT s); skipped := skipped (getT s);
                       output := output (getT s) ++ [e] |} s).

Definition Fatalf {A} (format : string) (args : list operand) : M S A :=
  log (Fatalf_ format args) ;; FailNow.

Definition Fatal {A} (args : list operand) : M S A :=
  log (Fatal_ args) ;; FailNow.

(** [t.Run(name, body)]: [body] runs as a new test, in a goroutine of its
    own, while the parent waits.  A [Goexit] ends the subtest only and the
    parent goes on; a failed subtest marks its parent as failed.  The parent
    gets what the closure left in the variables it captured: the value of a
    normal return, and the subtest's [Skipped()] as its deferred function
    reads it on the way out. *)
Definition Run {A} (name : string) (body : M S A) : M S (option A * bool) :=
  λ s,
    let parent := getT s in
    let child := {| failed := false; skipped := false; output := output parent |} in
    let '(o, s1) := body (setT child s) in
    let c := getT s1 in
    let s2 := setT {| failed := failed parent || failed c;
                      skipped := skipped parent;
                      output := output c |} s1 in
    match o with
    | Normal a => (Normal (Some a, skipped c), s2)
    | Stopped Goexit => (Normal (None, skipped c), s2)
    | Stopped why => (Stopped why, s2)
    end.

End TB.

End testing.

Import testing.

(** ** Scanning arguments into destinations *)

(** The variables of the calling test that destinations point to. *)
Inductive value :=
  | VString (s : string)
  | VInt (n : Z)
  | VUint64 (n : Z)
  | VBool (b : bool).

Record caller := { vars : gmap loc value; callerT : T }.

#[export] Instance caller_TB : TB caller :=
  {| getT := callerT; setT t c := {| vars := vars c; callerT := t |} |}.

(** [*dest = v] *)
Definition assign (l : loc) (v : value) : M caller unit :=
  modify (λ c, {| vars := <[l:=v]> (vars c); callerT := callerT c |}).

(** [func (arg CmdArg) Scan(t *testing.T, i int, dest interface{})].  An
    [int] has 64 bits, as the source assumes. *)
Definition Scan (arg : CmdArg) (i : Z) (dest : pointer) : M caller unit :=
  (if (i <? 0)%Z || (Z.of_nat (length (Vals arg)) <=? i)%Z
   then Fatalf "cannot scan index %d of key %s" [OInt i; OString (Key arg)]
   else mret tt) ;;
  val ← match Vals arg !! Z.to_nat i with
        | Some v => mret v
        | None => stopWith Panic
        end;
  match dest with
  | PString l => assign l (VString val)
  | PInt l =>
      match strconv.ParseInt val with
      | (_, Some err) => Fatal [OError err]
      | (n, None) => assign l (VInt n)
      end
  | PUint64 l =>
      match strconv.ParseUint val with
      | (_, Some err) => Fatal [OError err]
      | (n, None) => assign l (VUint64 n)
      end
  | PBool l =>
      match strconv.ParseBool val with
      | (_, Some err) => Fatal [OError err]
      | (b, None) => assign l (VBool b)
      end
  | POther _ =>
      Fatalf "unsupported type %T for destination #%d (might be easy to add it)"
        [OPointer dest; OInt (i + 1)]
  end.

(** The lookup loop of [ScanArgs]: [arg] stays the zero [CmdArg] unless an
    argument with the key is met, and the first one met wins. *)
Fixpoint ScanArgs_lookup (args : list CmdArg) (key : string) : CmdArg :=
  match args with
  | [] => {| Key := ""; Vals := [] |}
  | a :: args' => if String.eqb (Key a) key then a else ScanArgs_lookup args' key
  end.

(** [for i := range dests { arg.Scan(t, i, dests[i]) }] *)
Fixpoint ScanArgs_loop (arg : CmdArg) (i : Z) (dests : list pointer) : M caller unit :=
  match dests with
  | [] => mret tt
  | dest :: dests' => Scan arg i dest ;; ScanArgs_loop arg (i + 1) dests'
  end.

(** [func (td *TestData) ScanArgs(t *testing.T, key string, dests ...interface{})] *)
Definition ScanArgs (td : TestData) (key : string) (dests : list pointer) : M caller unit :=
  let arg := ScanArgs_lookup (CmdArgs td) key in
  (if String.eqb (Key arg) "" then Fatalf "missing argument: %s" [OString key]
   else mret tt) ;;
  (if negb (length dests =? length (Vals arg))
   then Fatalf "%s: got %d destinations, but %d values"
          [OString (Key arg); OInt (Z.of_nat (length dests));
           OInt (Z.of_nat (length (Vals arg)))]
   else mret tt) ;;
  ScanArgs_loop arg 0 dests.

(** [func (td TestData) Fatalf(tb testing.TB, format string, args ...interface{})] *)
Definition TestData_Fatalf {S} `{!TB S} {A} (td : TestData)
    (format : string) (args : list operand) : M S A :=
  Fatalf "%s: %s" [OString (Pos td); OSprintf format args].


(** ** The record stream supplier *)

(** Modelled from the spec: the reader behind [newTestDataReader], [r.Next],
    [r.emit], [r.data] and [r.rewrite], whose source file is not part of the
    sources at hand.  Section 6 of the specification gives its interface: "an
    advance operation returning whether another record exists", "the current
    record's fields (position, command, arguments, input, expected text)",
    "an emit(text) primitive appending raw text to the rewrite buffer
    verbatim" and "an optional open rewrite buffer handle"; by sections 2 and
    4.3 the buffer "accumulates the full rewritten file contents" and a
    directive's header and input are emitted as they are.  A stream is given
    by the records still to come, each with the source text the advance
    consumes for it, by the text behind the last record, and by what the
    current record reads once the stream is exhausted, which the
    specification leaves open. *)
Record stream := {
  records : list (string * TestData);
  trailing : string;
  exhausted : TestData
}.

(** Modelled from the spec: the reader, with the current record, the records
    to come and the rewrite buffer, which is open in rewrite mode only. *)
Record testDataReader := {
  data : TestData;
  pending : stream;
  rewrite : option string
}.

(** Modelled from the spec: [newTestDataReader], which opens the rewrite
    buffer when rewriting is asked for; no record is current yet. *)
Definition newTestDataReader (sourceName : string) (input : stream)
    (record : bool) : testDataReader :=
  {| data := {| Pos := ""; Cmd := ""; CmdArgs := []; Input := ""; Expected := "" |};
     pending := input;
     rewrite := if record then Some "" else None |}.

(** [r.rewrite.WriteString(s)] *)
Definition WriteString (s : string) (r : testDataReader) : testDataReader :=
  {| data := data r; pending := pending r;
     rewrite := (λ b, b +:+ s) <$> rewrite r |}.

(** Modelled from the spec: [r.emit], "appending raw text to the rewrite
    buffer verbatim". *)
Definition emit (s : string) (r : testDataReader) : testDataReader :=
  WriteString s r.

(** Modelled from the spec: the advance operation behind [r.Next].  It makes
    the next record current and emits its source text, or finds the stream
    exhausted and emits the text behind the last record. *)
Definition advance (r : testDataReader) : bool * testDataReader :=
  match records (pending r) with
  | (text, d) :: rest =>
      (true,
       emit text {| data := d;
                    pending := {| records := rest;
                                  trailing := trailing (pending r);
                                  exhausted := exhausted (pending r) |};
                    rewrite := rewrite r |})
  | [] =>
      (false,
       emit (trailing (pending r))
         {| data := exhausted (pending r);
            pending := {| records := []; trailing := "";
                          exhausted := exhausted (pending r) |};
            rewrite := rewrite r |})
  end.

(** ** Running a test file *)

(** What the caller's function [f] does with the [*testing.T] it is given
    before it hands control back: it returns the actual output, possibly
    after [t.Error], or leaves through [t.Fatal], [t.Skip] or a panic.  It
    may keep state of its own, of some type [H], between calls. *)
Inductive handlerResult :=
  | Returns (errored : bool) (actual : string)
  | CallsFatal
  | CallsSkip (errored : bool)
  | Panics.

Definition handler (H : Type) : Type := TestData → H → handlerResult * H.

(** The state a run works on: the reader [r], the test [t] that is running,
    the state of the caller's function and, when the input is an [*os.File],
    the content of that file. *)
Record world (H : Type) := {
  wReader : testDataReader;
  wT : T;
  wHandler : H;
  wFile : option string
}.
Arguments wReader {H} w.
Arguments wT {H} w.
Arguments wHandler {H} w.
Arguments wFile {H} w.

#[export] Instance world_TB {H} : TB (world H) :=
  {| getT := wT;
     setT t w := {| wReader := wReader w; wT := t; wHandler := wHandler w;
                    wFile := wFile w |} |}.

Definition onReader {H} (g : testDataReader → testDataReader) : M (world H) unit :=
  modify (λ w, {| wReader := g (wReader w); wT := wT w; wHandler := wHandler w;
                  wFile := wFile w |}).

(** [r.Next(t)], the advance operation run on the reader of the world. *)
Definition Next {H} : M (world H) bool :=
  λ w, let '(more, r') := advance (wReader w) in
       (Normal more, {| wReader := r'; wT := wT w; wHandler := wHandler w;
                        wFile := wFile w |}).

(** [f(t, d)] *)
Definition call {H} (f : handler H) (d : TestData) : M (world H) string :=
  λ w, let '(res, h') := f d (wHandler w) in
       let w' := {| wReader := wReader w; wT := wT w; wHandler := h';
                    wFile := wFile w |} in
       match res with
       | Returns errored actual =>
           ((if errored then Fail else mret tt) ;; mret actual) w'
       | CallsFatal => FailNow w'
       | CallsSkip errored =>
           ((if errored then Fail else mret tt) ;; SkipNow) w'
       | Panics => stopWith Panic w'
       end.

Definition NL : string := String LF EmptyString.

(** Lines 271 to 273: the output with its line terminator. *)
Definition terminated (actual : string) : string :=
  if negb (String.eqb actual "") && negb (strings.HasSuffix actual NL)
  then actual +:+ NL else actual.

(** The closure of [runDirective] that computes [actual]; a panic of [f]
    passes through it (what it prints on the way is not modelled). *)
Definition runDirective_actual {H} (f : handler H) : M (world H) string :=
  d ← gets (λ w, data (wReader w));
  actual ← call f d;
  mret (terminated actual).

(** [func runDirective].  What [testing.Verbose()] prints on a match is not
    modelled. *)
Definition runDirective {H} (f : handler H) : M (world H) unit :=
  actual ← runDirective_actual f;
  failed ← Failed;
  (if failed : bool then FailNow else mret tt) ;;
  rw ← gets (λ w, rewrite (wReader w));
  d ← gets (λ w, data (wReader w));
  match rw with
  | Some _ =>
      onReader (emit "----") ;;
      if hasBlankLine actual then
        onReader (emit "----") ;;
        onReader (WriteString actual) ;;
        onReader (emit "----") ;;
        onReader (emit "----")
      else onReader (emit actual)
  | None =>
      if negb (String.eqb (Expected d) actual)
      then Fatalf ((NL +:+ "%s: %s" +:+ NL +:+ "expected:" +:+ NL +:+ "%s"
                    +:+ NL +:+ "found:" +:+ NL +:+ "%s"))
             [OString (Pos d); OString (Input d); OString (Expected d);
              OString actual]
      else mret tt
  end.

(** [args[i]], which panics out of range. *)
Definition index {S A} (l : list A) (i : nat) : M S A :=
  match l !! i with
  | Some a => mret a
  | None => stopWith Panic
  end.

(** [func isSubTestStart] *)
Definition isSubTestStart {H} (mandatorySubTestPrefix : string)
    : M (world H) (string * bool) :=
  d ← gets (λ w, data (wReader w));
  if negb (String.eqb (Cmd d) "subtest") then mret ("", false)
  else
    (if negb (length (CmdArgs d) =? 1)
     then TestData_Fatalf d "invalid syntax for subtest" []
     else mret tt) ;;
    arg0 ← index (CmdArgs d) 0;
    let subTestName := Key arg0 in
    (if String.eqb subTestName "end"
     then TestData_Fatalf d "subtest end without corresponding start" []
     else mret tt) ;;
    (if negb (strings.HasPrefix subTestName mandatorySubTestPrefix)
     then TestData_Fatalf d "name of nested subtest must begin with %q"
            [OString mandatorySubTestPrefix]
     else mret tt) ;;
    mret (subTestName, true).

(** [func isSubTestEnd] *)
Definition isSubTestEnd {H} : M (world H) bool :=
  d ← gets (λ w, data (wReader w));
  if negb (String.eqb (Cmd d) "subtest") then mret false
  else
    match CmdArgs d with
    | [] => mret false
    | arg0 :: _ =>
        if negb (String.eqb (Key arg0) "end") then mret false
        else
          (if 2 <? length (CmdArgs d)
           then TestData_Fatalf d "invalid syntax for subtest end" []
           else mret tt) ;;
          mret true
    end.

(** [func runDirectiveOrSubTest], [func runSubTest] and the loop of the
    closure the latter passes to [t.Run].  The three call each other; [fuel]
    bounds the depth of the calls, and [runTestInternal] supplies enough of
    it for the records of its input (see [runTestInternal_loop_fuel]). *)
Fixpoint runDirectiveOrSubTest {H} (fuel : nat) (mandatorySubTestPrefix : string)
    (f : handler H) {struct fuel} : M (world H) unit :=
  match fuel with
  | 0 => stopWith OutOfFuel
  | S fuel' =>
      '(subTestName, ok) ← isSubTestStart mandatorySubTestPrefix;
      (if ok : bool then runSubTest fuel' subTestName f else runDirective f) ;;
      failed ← Failed;
      if failed : bool then FailNow else mret tt
  end
with runSubTest {H} (fuel : nat) (subTestName : string) (f : handler H)
    {struct fuel} : M (world H) unit :=
  match fuel with
  | 0 => stopWith OutOfFuel
  | S fuel' =>
      subTestStartPos ← gets (λ w, Pos (data (wReader w)));
      '(returned, seenSkip) ← Run subTestName (runSubTest_loop fuel' subTestName f);
      let seenSubTestEnd := default false returned in
      d ← gets (λ w, data (wReader w));
      (if seenSkip : bool
       then TestData_Fatalf d
              ("cannot use t.Skip inside subtest" +:+ NL +:+ "%s: subtest started here")
              [OString subTestStartPos]
       else mret tt) ;;
      (if seenSubTestEnd && (length (CmdArgs d) =? 2)
       then
         arg1 ← index (CmdArgs d) 1;
         if negb (String.eqb (Key arg1) subTestName)
         then TestData_Fatalf d
                "mismatched subtest end directive: expected %q, got %q"
                [OString (Key arg1); OString subTestName]
         else mret tt
       else mret tt) ;;
      failed ← Failed;
      if negb seenSubTestEnd && negb failed
      then TestData_Fatalf d
             ("EOF encountered without subtest end directive" +:+ NL
              +:+ "%s: subtest started here")
             [OString subTestStartPos]
      else mret tt
  end
with runSubTest_loop {H} (fuel : nat) (subTestName : string) (f : handler H)
    {struct fuel} : M (world H) bool :=
  match fuel with
  | 0 => stopWith OutOfFuel
  | S fuel' =>
      more ← Next;
      if more : bool then
        isEnd ← isSubTestEnd;
        if isEnd : bool then mret true
        else
          runDirectiveOrSubTest fuel' (subTestName +:+ "/") f ;;
          runSubTest_loop fuel' subTestName f
      else mret false
  end.

(** [for r.Next(t) { runDirectiveOrSubTest(t, r, "", f) }] *)
Fixpoint runTestInternal_loop {H} (fuel : nat) (f : handler H) : M (world H) unit :=
  match fuel with
  | 0 => stopWith OutOfFuel
  | S fuel' =>
      more ← Next;
      if more : bool then
        runDirectiveOrSubTest fuel' "" f ;;
        runTestInternal_loop fuel' f
      else mret tt
  end.

(** Lines 123 to 125: the trailing blank line is cut off the buffer. *)
Definition trimmed (data : string) : string :=
  let l := String.length data in
  if (2 <? l)
     && bool_decide (String.get (l - 1) data = Some LF)
     && bool_decide (String.get (l - 2) data = Some LF)
  then strings.sliceTo (l - 1) data
  else data.

(** [os.File]: [WriteAt(data, 0)] and [Truncate(size)] on the content of the
    file (errors of the file system are not modelled; [Sync] does not change
    the content). *)
Definition WriteAt (b : string) (content : string) : string :=
  b +:+ strings.sliceFrom (String.length b) content.

Fixpoint zeros (n : nat) : string :=
  match n with
  | 0 => EmptyString
  | S n' => String zero (zeros n')
  end.

Definition Truncate (size : nat) (content : string) : string :=
  strings.sliceTo size content +:+ zeros (size - String.length content).

Definition fuelFor (input : stream) : nat := 3 * length (records input) + 3.

(** [func runTestInternal] *)
Definition runTestInternal {H} (sourceName : string) (reader : stream)
    (f : handler H) (record : bool) : M (world H) unit :=
  onReader (λ _, newTestDataReader sourceName reader record) ;;
  runTestInternal_loop (fuelFor reader) f ;;
  rw ← gets (λ w, rewrite (wReader w));
  match rw with
  | Some bytes =>
      let data := trimmed bytes in
      dest ← gets wFile;
      match dest with
      | Some content =>
          modify (λ w, {| wReader := wReader w; wT := wT w;
                          wHandler := wHandler w;
                          wFile := Some (Truncate (String.length data)
                                           (WriteAt data content)) |})
      | None =>
          log (Logf ("input is not a file; rewritten output is:" +:+ NL +:+ "%s")
                 [OString data])
      end
  | None => mret tt
  end.

(** ** Entry points: a file, a string, a directory *)

(** [func RunTest].  What [os.OpenFile(path, os.O_RDWR, 0644)] gives is an
    argument: the message of its error, or the content of the file together
    with the records the reader finds in it.  The error is logged as its
    message. *)
Definition RunTest {H} (path : string) (opened : string + string * stream)
    (f : handler H) (rewriteTestFiles : bool) : M (world H) unit :=
  match opened with
  | inl err => Fatal [OString err]
  | inr (content, input) =>
      modify (λ w, {| wReader := wReader w; wT := wT w; wHandler := wHandler w;
                      wFile := Some content |}) ;;
      runTestInternal path input f rewriteTestFiles
  end.


Fixpoint noLineFeed (s : string) : bool :=
  match s with
  | EmptyString => true
  | String c s' => negb (Ascii.eqb c LF) && noLineFeed s'
  end.

(** [tempFileRe.MatchString(name)].  The expression of [tempFileRe] has
    three alternatives: a dot at the beginning of the name, followed by
    anything; anything, followed by a tilde at the end of the name; and a
    number sign at the beginning, anything, and a number sign at the end.  A
    match may begin anywhere in the name, the anchors hold at the two ends of
    the name only, and "anything" is a sequence of runes other than the line
    feed.  So the first alternative matches a name that begins with a dot,
    the second one a name that ends with a tilde, and the third one a name
    that begins and ends with a number sign, two of them at least, with no
    line feed in between. *)
Definition tempFileRe_MatchString (name : string) : bool :=
  strings.HasPrefix name "."
  || strings.HasSuffix name "~"
  || ((2 <=? String.length name)
      && strings.HasPrefix name "#" && strings.HasSuffix name "#"
      && noLineFeed (strings.sliceTo (String.length name - 2)
                       (strings.sliceFrom 1 name))).

(** Package [path/filepath], with [/] as the separator. *)
Module filepath.

(** The elements of a path: what stands between its separators. *)
Fixpoint elements (current : string) (path : string) : list string :=
  match path with
  | EmptyString => [current]
  | String c path' =>
      if Ascii.eqb c "/" then current :: elements "" path'
      else elements (current +:+ String c "") path'
  end.

(** One element met by [Clean].  [out] holds the elements written so far,
    the last one first, and [dotdot] tells how many of them, from the
    beginning of the path, are [..] elements that cannot be dropped. *)
Definition cleanStep (rooted : bool) (state : list string * nat) (element : string)
    : list string * nat :=
  let '(out, dotdot) := state in
  if String.eqb element "" || String.eqb element "." then (out, dotdot)
  else if String.eqb element ".." then
    if dotdot <? length out then (tail out, dotdot)
    else if rooted then (out, dotdot)
    else (".." :: out, S (length out))
  else (element :: out, dotdot).

(** [filepath.Clean(path)] *)
Definition Clean (path : string) : string :=
  if String.eqb path "" then "."
  else
    let rooted := strings.HasPrefix path "/" in
    let out := (foldl (cleanStep rooted) ([], 0) (elements "" path)).1 in
    let cleaned := (if rooted then "/" else "") +:+ strings.Join (rev out) "/" in
    if String.eqb cleaned "" then "." else cleaned.

(** [filepath.Join(dir, name)] *)
Definition Join (dir name : string) : string :=
  if negb (String.eqb dir "") then Clean (dir +:+ "/" +:+ name)
  else if negb (String.eqb name "") then Clean name
  else "".

End filepath.

(** What the file system holds at a path: nothing that [os.Stat] can
    describe, a file, a directory with its entries as [ioutil.ReadDir] lists
    them, by their names, or a directory that [ioutil.ReadDir] fails on.  An
    entry is given with what is found at its path.  Errors are given by their
    messages. *)
#[warnings="-register-all"]
Inductive node :=
  | Missing (err : string)
  | File
  | Dir (files : list (string * node))
  | Unreadable (err : string).

(** [func Walk], for what is found [at] the path.  The function [f] runs
    on behalf of the test it is handed. *)
Fixpoint Walk {S} `{!TB S} (path : string) (at_path : node)
    (f : string → M S unit) : M S unit :=
  match at_path with
  | Missing err => Fatal [OString err]
  | File => f path
  | Unreadable err => Fatal [OString err]
  | Dir files =>
      (fix range (files : list (string * node)) : M S unit :=
         match files with
         | [] => mret tt
         | (name, child) :: files' =>
             (if tempFileRe_MatchString name then mret tt
              else Run name (Walk (filepath.Join path name) child f) ;; mret tt) ;;
             range files'
         end) files
  end.

(** ** Notions the statements below are phrased in *)

(** [s] ends with [suffix]. *)
Definition endsWith (s suffix : string) : Prop := ∃ p, s = p +:+ suffix.

(** [s] begins with [prefix]. *)
Definition beginsWith (s prefix : string) : Prop := ∃ q, s = prefix +:+ q.

(** The values of an argument, in the order they were declared, with a comma
    and a space between neighbours. *)
Fixpoint commaSeparated (vals : list string) : string :=
  match vals with
  | [] => ""
  | [v] => v
  | v :: vs => v +:+ ", " +:+ commaSeparated vs
  end.

(** The three canonical forms of an argument. *)
Definition canonical (key : string) (vals : list string) : string :=
  match vals with
  | [] => key
  | [v] => key +:+ "=" +:+ v
  | _ => key +:+ "=(" +:+ commaSeparated vals +:+ ")"
  end.

(** The lines of a text: every line terminator ends a line, and what follows
    the last terminator is a line if it is not empty. *)
Fixpoint linesFrom (current : string) (s : string) : list string :=
  match s with
  | EmptyString => if String.eqb current "" then [] else [current]
  | String c s' =>
      if Ascii.eqb c LF then current :: linesFrom "" s'
      else linesFrom (current +:+ String c "") s'
  end.

Definition linesOf (s : string) : list string := linesFrom "" s.

(** A line that is empty after trimming white space. *)
Definition blank (line : string) : Prop := strings.TrimSpace line = "".

Definition containsBlankLine (s : string) : Prop := Exists blank (linesOf s).

(** The variable a destination points to. *)
Definition target (dest : pointer) : option loc :=
  match dest with
  | PString l | PInt l | PUint64 l | PBool l => Some l
  | POther _ => None
  end.

(** A value converts to the kind of a destination: any text is a string, and
    an [int], a [uint64] and a [bool] are what [strconv] parses without an
    error; there is no other kind of destination. *)
Definition converts (dest : pointer) (val : string) : Prop :=
  match dest with
  | PString _ => True
  | PInt _ => (strconv.ParseInt val).2 = None
  | PUint64 _ => (strconv.ParseUint val).2 = None
  | PBool _ => (strconv.ParseBool val).2 = None
  | POther _ => False
  end.

#[export] Instance errKind_eq_dec : EqDecision strconv.errKind.
Proof. solve_decision. Defined.
#[export] Instance NumError_eq_dec : EqDecision strconv.NumError.
Proof. solve_decision. Defined.
#[export] Instance converts_dec dest val : Decision (converts dest val).
Proof. destruct dest; simpl; apply _. Defined.

(** What a destination receives from a value that converts. *)
Definition scanned (dest : pointer) (val : string) : option (loc * value) :=
  match dest with
  | PString l => Some (l, VString val)
  | PInt l =>
      match strconv.ParseInt val with (n, None) => Some (l, VInt n) | _ => None end
  | PUint64 l =>
      match strconv.ParseUint val with (n, None) => Some (l, VUint64 n) | _ => None end
  | PBool l =>
      match strconv.ParseBool val with (b, None) => Some (l, VBool b) | _ => None end
  | POther _ => None
  end.

(** The first argument with the key. *)
Definition firstArg (td : TestData) (key : string) : option CmdArg :=
  head (filter (λ a, Key a = key) (CmdArgs td)).

(** How many destinations, from the first on, receive their value. *)
Fixpoint leading (dests : list pointer) (vals : list string) : nat :=
  match dests, vals with
  | dest :: dests', val :: vals' =>
      if decide (converts dest val) then S (leading dests' vals') else 0
  | _, _ => 0
  end.

(** The index at which [ScanArgs] fails: that of the first destination
    whose value does not convert, and 0 when the key is missing or the number
    of destinations is not the number of values. *)
Definition failingIndex (td : TestData) (key : string) (dests : list pointer) : nat :=
  match firstArg td key with
  | Some arg =>
      if decide (length dests = length (Vals arg))
      then leading dests (Vals arg) else 0
  | None => 0
  end.

(** The variables after the leading destinations have received their
    values. *)
Fixpoint stored (dests : list pointer) (vals : list string)
    (m : gmap loc value) : gmap loc value :=
  match dests, vals with
  | dest :: dests', val :: vals' =>
      match scanned dest val with
      | Some (l, x) => stored dests' vals' (<[l:=x]> m)
      | None => m
      end
  | _, _ => m
  end.

(** The state after the running test has failed fatally with message [e]. *)
Definition fatally {S} `{!TB S} (e : logEntry) (s : S) : S :=
  setT {| failed := true; skipped := skipped (getT s);
          output := output (getT s) ++ [e] |} s.

(** The message of [TestData.Fatalf] for a record at [pos]. *)
Definition positioned (pos format : string) (args : list operand) : logEntry :=
  Fatalf_ "%s: %s" [OString pos; OSprintf format args].

(** The world in which the body of a subtest starts, and the world its
    parent finds when the body has ended in [w1]. *)
Definition subtestOf {H} (w : world H) : world H :=
  setT {| failed := false; skipped := false; output := output (wT w) |} w.

Definition backTo {H} (parent w1 : world H) : world H :=
  setT {| failed := failed (wT parent) || failed (wT w1);
          skipped := skipped (wT parent);
          output := output (wT w1) |} w1.

(** The record is a subtest start: the command [subtest] with one argument,
    which is not [end]. *)
Definition subtestStart (d : TestData) (name : string) : Prop :=
  Cmd d = "subtest" ∧ (∃ arg, CmdArgs d = [arg] ∧ Key arg = name) ∧ name ≠ "end".

(** The record is a subtest end with the arguments [more] behind [end]. *)
Definition subtestEnd (d : TestData) (more : list CmdArg) : Prop :=
  Cmd d = "subtest" ∧ ∃ arg, CmdArgs d = arg :: more ∧ Key arg = "end".

(** The arguments of a record and a list of destinations fit each other for
    a key. *)
Definition fits (td : TestData) (key : string) (dests : list pointer) : Prop :=
  ∃ arg, firstArg td key = Some arg
         ∧ length dests = length (Vals arg)
         ∧ Forall2 converts dests (Vals arg).

(** A string made of white-space runes only. *)
Inductive spaces : string → Prop :=
  | spaces_nil : spaces ""
  | spaces_cons r s : r ∈ strings.spaceRunes → spaces s → spaces (r +:+ s).

(** No rune of the list begins another one. *)
Definition prefixFree (runes : list string) : Prop :=
  ∀ r r', r ∈ runes → r' ∈ runes → strings.HasPrefix r r' = true → r = r'.

(** The byte does not occur in the string. *)
Fixpoint without (c : ascii) (s : string) : Prop :=
  match s with
  | EmptyString => True
  | String a s' => a ≠ c ∧ without c s'
  end.

(** A line that fits the buffer of the scanner together with its
    terminator. *)
Definition short (line : string) : Prop :=
  String.length line < bufio.MaxScanTokenSize.

(** [n] times the byte [c]. *)
Fixpoint many (n : nat) (c : ascii) : string :=
  match n with
  | 0 => EmptyString
  | S n' => String c (many n' c)
  end.

(** The messages with which [Scan] fails. *)
Definition scanEntry (e : logEntry) : Prop :=
  match e with
  | Fatal_ [OError _] => True
  | Fatalf_ format _ =>
      format = "cannot scan index %d of key %s"
      ∨ format = "unsupported type %T for destination #%d (might be easy to add it)"
  | _ => False
  end.

(** The number a string of decimal digits denotes, read behind the digits
    of [acc]. *)
Fixpoint digitsValue (s : string) (acc : Z) : option Z :=
  match s with
  | EmptyString => Some acc
  | String c s' =>
      let b := Z.of_nat (nat_of_ascii c) in
      if (48 <=? b) && (b <=? 57)
      then digitsValue s' (acc * 10 + (b - 48)) else None
  end%Z.

(** The number a decimal numeral denotes; a numeral has one digit at
    least. *)
Definition decimal (s : string) : option Z :=
  match s with
  | EmptyString => None
  | _ => digitsValue s 0
  end.

(** The number a decimal numeral with an optional sign denotes. *)
Definition signedDecimal (s : string) : option Z :=
  match s with
  | EmptyString => None
  | String c rest =>
      if Ascii.eqb c "+" then decimal rest
      else if Ascii.eqb c "-" then Z.opp <$> decimal rest
      else decimal s
  end.





(** From [w] to [w'] the file has not been written, and the rewrite buffer
    has at most grown at its end; there is none in [w'] if there was none in
    [w]. *)
Definition extends {H} (w w' : world H) : Prop :=
  wFile w' = wFile w
  ∧ match rewrite (wReader w) with
    | Some b => ∃ more, rewrite (wReader w') = Some (b +:+ more)
    | None => rewrite (wReader w') = None
    end.

Definition steady {H A} (m : M (world H) A) : Prop :=
  ∀ w, extends w (m w).2.

(** What a rewrite puts behind the header and the input of a directive, for
    the output [actual]. *)
Definition expectedBlock (actual : string) : string :=
  if hasBlankLine actual
  then "----" +:+ "----" +:+ actual +:+ "----" +:+ "----"
  else "----" +:+ actual.

(** A well-formed stretch of records below the subtest prefix [pre], which
    the handler passes from its state [h] to its state [h'], and the text
    [out] a rewrite makes of it.  A directive passes when the handler returns
    without an error and, unless the run rewrites, the expected text of the
    record is the output with its line terminator.  A subtest is a start
    whose name begins with the prefix, a stretch that passes below the name
    and a slash, and an end with no argument behind [end] or with the name
    there. *)
Inductive passes {H} (f : handler H) (rewriting : bool)
    : string → list (string * TestData) → H → string → H → Prop :=
  | passes_nil pre h : passes f rewriting pre [] h "" h
  | passes_directive pre text d rest h s h1 out h2 :
      Cmd d ≠ "subtest" →
      f d h = (Returns false s, h1) →
      (rewriting = false → Expected d = terminated s) →
      passes f rewriting pre rest h1 out h2 →
      passes f rewriting pre ((text, d) :: rest) h
        (text +:+ expectedBlock (terminated s) +:+ out) h2
  | passes_subtest pre text d name body endText endD more rest h out1 h1 out2 h2 :
      subtestStart d name →
      beginsWith name pre →
      passes f rewriting (name +:+ "/") body h out1 h1 →
      subtestEnd endD more →
      (more = [] ∨ ∃ arg, more = [arg] ∧ Key arg = name) →
      passes f rewriting pre rest h1 out2 h2 →
      passes f rewriting pre ((text, d) :: body ++ (endText, endD) :: rest) h
        (text +:+ out1 +:+ endText +:+ out2) h2.

(** The world [w'] a run has reached from [w] when it has passed a stretch
    of records with [tail] behind it. *)
Definition passed {H} (w : world H) (out : string) (h' : H)
    (tail : list (string * TestData)) (w' : world H) : Prop :=
  records (pending (wReader w')) = tail
  ∧ trailing (pending (wReader w')) = trailing (pending (wReader w))
  ∧ rewrite (wReader w') = (λ b, b +:+ out) <$> rewrite (wReader w)
  ∧ wT w' = wT w
  ∧ wHandler w' = h'
  ∧ wFile w' = wFile w.

(** The paths of the files [Walk] hands to its function, in the order of the
    calls: the files that are reached through entries whose names
    [tempFileRe] does not match. *)
Fixpoint leaves (path : string) (at_path : node) : list string :=
  match at_path with
  | File => [path]
  | Dir files =>
      (fix each (files : list (string * node)) : list string :=
         match files with
         | [] => []
         | (name, child) :: files' =>
             (if tempFileRe_MatchString name then []
              else leaves (filepath.Join path name) child) ++ each files'
         end) files
  | Missing _ | Unreadable _ => []
  end.

(** The messages for what [Walk] cannot read below such entries. *)
Fixpoint complaints (path : string) (at_path : node) : list logEntry :=
  match at_path with
  | File => []
  | Dir files =>
      (fix each (files : list (string * node)) : list logEntry :=
         match files with
         | [] => []
         | (name, child) :: files' =>
             (if tempFileRe_MatchString name then []
              else complaints (filepath.Join path name) child) ++ each files'
         end) files
  | Missing err | Unreadable err => [Fatal_ [OString err]]
  end.

(** What the function handed to [Walk] does with the test it is given, for
    a file: it returns, after [t.Error] or without, or it leaves through
    [t.Fatal] or [t.Skip]. *)
Inductive leafResult := Passes | Errors | Fatals | Skips.

(** A walk that keeps a list of the paths its function was called for. *)
Record walker := { visited : list string; walkerT : T }.

#[export] Instance walker_TB : TB walker :=
  {| getT := walkerT; setT t s := {| visited := visited s; walkerT := t |} |}.

(** A function for [Walk] that notes the path and behaves as [behaviour]
    says. *)
Definition leaf (behaviour : string → leafResult) (path : string) : M walker unit :=
  modify (λ s, {| visited := visited s ++ [path]; walkerT := walkerT s |}) ;;
  match behaviour path with
  | Passes => mret tt
  | Errors => Fail
  | Fatals => FailNow
  | Skips => SkipNow
  end.

(** Some file below the path fails, or something cannot be read. *)
Fixpoint fails (behaviour : string → leafResult) (path : string)
    (at_path : node) : bool :=
  match at_path with
  | File =>
      match behaviour path with
      | Errors | Fatals => true
      | Passes | Skips => false
      end
  | Dir files =>
      (fix each (files : list (string * node)) : bool :=
         match files with
         | [] => false
         | (name, child) :: files' =>
             (if tempFileRe_MatchString name then false
              else fails behaviour (filepath.Join path name) child) || each files'
         end) files
  | Missing _ | Unreadable _ => true
  end.

Definition isDir (at_path : node) : bool :=
  match at_path with
  | Dir _ => true
  | _ => false
  end.

(** An argument whose key holds no equals sign and whose values hold
    neither a comma nor an opening parenthesis. *)
Definition plainArg (arg : CmdArg) : Prop :=
  without "=" (Key arg)
  ∧ Forall (λ v, without "," v ∧ without "(" v) (Vals arg).

(** The directive [d] is the first one of a stretch of records, below the
    subtest prefix [pre], whose expected text is not the output [s] of the
    handler with its line terminator: what stands before it passes without a
    rewrite, the subtests it stands in are well-formed so far, and [rest] is
    what stands behind it.  The handler is in the state [h] before the
    stretch and in the state [h1] when it has answered [d]. *)
Inductive stopsAt {H} (f : handler H)
    : string → list (string * TestData) → H → TestData → string → H
      → list (string * TestData) → Prop :=
  | stopsAt_here pre recs h out h0 text d s h1 rest :
      passes f false pre recs h out h0 →
      Cmd d ≠ "subtest" →
      f d h0 = (Returns false s, h1) →
      Expected d ≠ terminated s →
      stopsAt f pre (recs ++ (text, d) :: rest) h d s h1 rest
  | stopsAt_inside pre recs h out h0 text dS name body d s h1 rest :
      passes f false pre recs h out h0 →
      subtestStart dS name →
      beginsWith name pre →
      stopsAt f (name +:+ "/") body h0 d s h1 rest →
      stopsAt f pre (recs ++ (text, dS) :: body) h d s h1 rest.

(** The message for an output that is not the expected one. *)
Definition mismatch (d : TestData) (actual : string) : logEntry :=
  Fatalf_ (NL +:+ "%s: %s" +:+ NL +:+ "expected:" +:+ NL +:+ "%s"
           +:+ NL +:+ "found:" +:+ NL +:+ "%s")
    [OString (Pos d); OString (Input d); OString (Expected d); OString actual].

(** The world [w'] in which a run that started in [w] has stopped at the
    directive [d]. *)
Definition stoppedAt {H} (w : world H) (d : TestData) (s : string) (h1 : H)
    (rest : list (string * TestData)) (w' : world H) : Prop :=
  wT w' = {| failed := true; skipped := skipped (wT w);
             output := output (wT w) ++ [mismatch d (terminated s)] |}
  ∧ wHandler w' = h1
  ∧ data (wReader w') = d
  ∧ records (pending (wReader w')) = rest
  ∧ wFile w' = wFile w.

(** ** Sample inputs *)

Definition freshT : T := {| failed := false; skipped := false; output := [] |}.

Definition noRecord : TestData :=
  {| Pos := ""; Cmd := ""; CmdArgs := []; Input := ""; Expected := "" |}.

Definition emptyStream : stream :=
  {| records := []; trailing := ""; exhausted := noRecord |}.

(** A world before a run: a test that has not failed, and the file the input
    was opened from, if any. *)
Definition initial {H} (h : H) (file : option string) : world H :=
  {| wReader := newTestDataReader "" emptyStream false; wT := freshT;
     wHandler := h; wFile := file |}.

(** A world in the middle of a run, at record [d] with [rest] to come. *)
Definition at_record (d : TestData) (rest : list (string * TestData))
    (buffer : option string) : world unit :=
  {| wReader := {| data := d;
                   pending := {| records := rest; trailing := "";
                                 exhausted := noRecord |};
                   rewrite := buffer |};
     wT := freshT; wHandler := tt; wFile := None |}.

Definition flag (key : string) : CmdArg := {| Key := key; Vals := [] |}.

Definition directive (pos cmd : string) (args : list CmdArg)
    (input expected : string) : TestData :=
  {| Pos := pos; Cmd := cmd; CmdArgs := args; Input := input;
     Expected := expected |}.

(** A handler that returns the input of the directive. *)
Definition echo : handler unit := λ d h, (Returns false (Input d), h).

(** A handler that skips. *)
Definition skipper : handler unit := λ d h, (CallsSkip false, h).

(** A test file that holds two empty lines and no directive. *)
Definition twoBlankLines : stream :=
  {| records := []; trailing := NL +:+ NL; exhausted := noRecord |}.

(** The directive line [cmd arg1=50 arg2=yoruba arg3=(50, 50, 50)] of the
    documentation of [ScanArgs]. *)
Definition documented : TestData :=
  directive "f:1" "cmd"
    [ {| Key := "arg1"; Vals := ["50"] |};
      {| Key := "arg2"; Vals := ["yoruba"] |};
      {| Key := "arg3"; Vals := ["50"; "50"; "50"] |} ] "" "".

(** A record whose only argument has the empty key and one value. *)
Definition emptyKeyed : TestData :=
  directive "f:1" "cmd" [ {| Key := ""; Vals := ["50"] |} ] "" "".

Definition someCaller : caller :=
  {| vars := {[ 0 := VInt 7 ]}; callerT := freshT |}.

(** A test that has already been marked as failed. *)
Definition failedT : T := {| failed := true; skipped := false; output := [] |}.

Definition endOfFile : TestData := directive "f:9" "" [] "" "".

Definition fileOf (l : list (string * TestData)) : stream :=
  {| records := l; trailing := ""; exhausted := endOfFile |}.

Definition start (pos name : string) : string * TestData :=
  ("subtest " +:+ name +:+ NL, directive pos "subtest" [flag name] "" "").

Definition finish (pos : string) (more : list CmdArg) : string * TestData :=
  ("subtest end" +:+ NL, directive pos "subtest" (flag "end" :: more) "" "").

Definition plain (pos input : string) : string * TestData :=
  ("echo" +:+ NL +:+ input +:+ NL,
   directive pos "echo" [] input (input +:+ NL)).

(** The world of a run over [l], before the first record is read. *)
Definition running (t : T) (l : list (string * TestData)) : world unit :=
  {| wReader := newTestDataReader "f" (fileOf l) false; wT := t;
     wHandler := tt; wFile := None |}.

(** The world at the first record of a run over [l]. *)
Definition atFirst (t : T) (l : list (string * TestData)) : world unit :=
  (Next (running t l)).2.

(** The world in which the body of the subtest that opens a run over [l]
    ends, for the handler [f]. *)
Definition bodyEnd (f : handler unit) (name : string)
    (l : list (string * TestData)) : world unit :=
  (runSubTest_loop (fuelFor (fileOf l)) name f (subtestOf (atFirst freshT l))).2.

(** The records of a stream that are still to come. *)
Definition left {H} (w : world H) : nat := length (records (pending (wReader w))).


(** An output whose first line fills the buffer of the scanner, followed by
    an empty line. *)
Definition longThenBlank : string :=
  many bufio.MaxScanTokenSize "a" +:+ NL +:+ NL.

(** A handler that returns it. *)
Definition longLine : handler unit := λ d h, (Returns false longThenBlank, h).

(** A handler that returns the same text for every directive. *)
Definition always (actual : string) : handler unit := λ d h, (Returns false actual, h).

(** The directive [echo hello] with the input [hi] and the expected output
    [hi], as a file of one record. *)
Definition echoHello : stream :=
  fileOf [("echo hello" +:+ NL +:+ "hi" +:+ NL,
           directive "f:1" "echo" [flag "hello"] "hi" ("hi" +:+ NL))].

(** The content of a buffer that has received the texts in turn. *)
Definition emitted (texts : list string) : string :=
  default "" (rewrite (foldl (λ r text, emit text r)
                         (newTestDataReader "" emptyStream true) texts)).

(** A record with two arguments of the key [k], of which the second is a
    number. *)
Definition twice : TestData :=
  directive "f:1" "cmd"
    [ {| Key := "k"; Vals := ["word"] |}; {| Key := "k"; Vals := ["50"] |} ] "" "".

(** A record whose argument [k] has a number and a word as its values. *)
Definition eightThenWord : TestData :=
  directive "f:1" "cmd" [ {| Key := "k"; Vals := ["8"; "word"] |} ] "" "".

(** A file with a subtest [a] around one directive, and a directive behind
    it. *)
Definition nested : list (string * TestData) :=
  [start "f:1" "a"; plain "f:2" "x"; finish "f:3" []; plain "f:4" "y"].

(** What a rewrite with the handler [echo] makes of it. *)
Definition nestedOut : string :=
  (start "f:1" "a").1
  +:+ ((plain "f:2" "x").1 +:+ expectedBlock (terminated "x") +:+ "")
  +:+ (finish "f:3" []).1
  +:+ ((plain "f:4" "y").1 +:+ expectedBlock (terminated "y") +:+ "").

(** The directory of the documentation of [Walk], with an editor's backup
    of one of its files beside it. *)
Definition testdata : node :=
  Dir [("logprops", Dir [("scan", File); ("select", File)]);
       ("typing", File); ("typing~", File)].

(** A directory with one test file and a hidden entry that cannot be
    read, and a file system in which every file holds [nested]. *)
Definition oneFile : node := Dir [(".hidden", Missing "gone"); ("a", File)].

Definition holdsNested (path : string) : string + string * stream :=
  inr ("", fileOf nested).

(** The loop [loop] passes the stretch [recs]: from a world that has the
    stretch before it, and enough fuel, it goes on as from the world behind
    the stretch. *)
Definition loopPasses {H A} (rewriting : bool) (loop : nat → M (world H) A)
    (recs : list (string * TestData)) (h : H) (out : string) (h' : H) : Prop :=
  ∀ fuel w tail,
    records (pending (wReader w)) = recs ++ tail →
    wHandler w = h →
    failed (wT w) = false →
    (rewrite (wReader w) = None → rewriting = false) →
    3 * left w + 1 ≤ fuel →
    ∃ fuel' w', loop fuel w = loop fuel' w'
                ∧ 3 * left w' + 1 ≤ fuel'
                ∧ passed w out h' tail w'.

(** The loop [loop] stops at the first directive of [recs] that does not
    pass. *)
Definition loopStops {H A} (loop : nat → M (world H) A)
    (recs : list (string * TestData)) (h : H) (d : TestData) (s : string)
    (h1 : H) (rest : list (string * TestData)) : Prop :=
  ∀ fuel w,
    records (pending (wReader w)) = recs →
    wHandler w = h →
    failed (wT w) = false →
    rewrite (wReader w) = None →
    3 * left w + 1 ≤ fuel →
    ∃ w', loop fuel w = (Stopped Goexit, w') ∧ stoppedAt w d s h1 rest w'.

(** The file [nested] with another expected text for the directive in its
    subtest. *)
Definition nestedWrong : list (string * TestData) :=
  [start "f:1" "a"]
  ++ ("echo" +:+ NL +:+ "x" +:+ NL, directive "f:2" "echo" [] "x" "y")
     :: [finish "f:3" []; plain "f:4" "y"].

(** ** Strings *)

Section Strings.
Implicit Types s t u : string.

Lemma append_nil_r s : s +:+ "" = s.
Proof. induction s as [|c s IH]; simpl; [done|by rewrite IH]. Qed.

Lemma append_assoc s t u : (s +:+ t) +:+ u = s +:+ t +:+ u.
Proof. induction s as [|c s IH]; simpl; [done|by rewrite IH]. Qed.

Lemma length_append s t : String.length (s +:+ t) = String.length s + String.length t.
Proof. induction s as [|c s IH]; simpl; [done|by rewrite IH]. Qed.

Lemma append_inj_l s t u : s +:+ t = s +:+ u → t = u.
Proof. induction s as [|c s IH]; simpl; [done|]. intros [= ?]. auto. Qed.

Lemma sliceTo_append s t : strings.sliceTo (String.length s) (s +:+ t) = s.
Proof. induction s as [|c s IH]; simpl; [by destruct t|by rewrite IH]. Qed.

Lemma sliceFrom_append s t : strings.sliceFrom (String.length s) (s +:+ t) = t.
Proof. induction s as [|c s IH]; simpl; [done|by rewrite IH]. Qed.

Lemma slice_split n s : strings.sliceTo n s +:+ strings.sliceFrom n s = s.
Proof.
  revert s. induction n as [|n IH]; intros [|c s]; simpl; try done.
  by rewrite IH.
Qed.

Lemma length_sliceTo n s : n ≤ String.length s → String.length (strings.sliceTo n s) = n.
Proof.
  revert s. induction n as [|n IH]; intros [|c s]; simpl; try done; try lia.
  intros Hn. rewrite IH; lia.
Qed.

Lemma length_sliceFrom n s :
  String.length (strings.sliceFrom n s) = String.length s - n.
Proof. revert s. induction n as [|n IH]; intros [|c s]; simpl; try done. Qed.

Lemma get_append_length s c t : String.get (String.length s) (s +:+ String c t) = Some c.
Proof. induction s as [|a s IH]; simpl; [done|exact IH]. Qed.

Lemma get_split n s c :
  String.get n s = Some c →
  s = strings.sliceTo n s +:+ String c (strings.sliceFrom (S n) s).
Proof.
  revert s. induction n as [|n IH]; intros [|a s]; simpl; try done.
  - by intros [= ->].
  - intros Hg. f_equal. by apply IH.
Qed.

Lemma HasPrefix_iff s prefix : strings.HasPrefix s prefix = true ↔ beginsWith s prefix.
Proof.
  unfold strings.HasPrefix, beginsWith. rewrite andb_true_iff, Nat.leb_le, String.eqb_eq.
  split.
  - intros [_ Heq]. exists (strings.sliceFrom (String.length prefix) s).
    rewrite <-Heq at 1. by rewrite slice_split.
  - intros [q ->]. rewrite length_append, sliceTo_append. split; [lia|done].
Qed.

Lemma HasSuffix_iff s suffix : strings.HasSuffix s suffix = true ↔ endsWith s suffix.
Proof.
  unfold strings.HasSuffix, endsWith. rewrite andb_true_iff, Nat.leb_le, String.eqb_eq.
  split.
  - intros [_ Heq].
    exists (strings.sliceTo (String.length s - String.length suffix) s).
    rewrite <-Heq at 2. by rewrite slice_split.
  - intros [p ->]. rewrite length_append.
    replace (String.length p + String.length suffix - String.length suffix)
      with (String.length p) by lia.
    rewrite sliceFrom_append. split; [lia|done].
Qed.

Lemma HasPrefix_empty s : strings.HasPrefix s "" = true.
Proof. apply HasPrefix_iff. by exists s. Qed.

End Strings.

(** ** Re-serialising an argument *)

Lemma foldl_commaSeparated (rest : list string) (v e : string) :
  foldl (λ b s, b +:+ ", " +:+ s) e (v :: rest) = commaSeparated (e :: v :: rest).
Proof.
  revert v e. induction rest as [|x rest IH]; intros v e; [done|].
  change (foldl _ e (v :: x :: rest))
    with (foldl (λ b s, b +:+ ", " +:+ s) (e +:+ ", " +:+ v) (x :: rest)).
  rewrite IH.
  change (commaSeparated (e :: v :: x :: rest))
    with (e +:+ ", " +:+ v +:+ ", " +:+ commaSeparated (x :: rest)).
  change (commaSeparated ((e +:+ ", " +:+ v) :: x :: rest))
    with ((e +:+ ", " +:+ v) +:+ ", " +:+ commaSeparated (x :: rest)).
  by rewrite !append_assoc.
Qed.

Lemma Join_commaSeparated (vals : list string) :
  strings.Join vals ", " = commaSeparated vals.
Proof.
  destruct vals as [|e [|v rest]]; [done..|]. apply foldl_commaSeparated.
Qed.

(** C9: [String] yields the bare key for no value, [key=value] for one
    value and [key=(v1, v2, ...)] for two or more, the values in the order of
    their declaration, unchanged, with a comma and a space between them. *)
Theorem CmdArg_String_canonical (arg : CmdArg) :
  CmdArg_String arg = canonical (Key arg) (Vals arg).
Proof.
  unfold CmdArg_String, canonical.
  destruct (Vals arg) as [|v [|v' vs]] eqn:Hvals; simpl length; cbv iota.
  - done.
  - simpl. by rewrite append_nil_r.
  - rewrite Join_commaSeparated.
    generalize (commaSeparated (v :: v' :: vs)). intros j. done.
Qed.

(** ** The output of a directive *)

Lemma terminated_spec (s : string) :
  (s ≠ "" → ¬ endsWith s NL → terminated s = s +:+ NL)
  ∧ (s = "" ∨ endsWith s NL → terminated s = s).
Proof.
  unfold terminated. split.
  - intros Hne Hend. apply String.eqb_neq in Hne. rewrite Hne.
    destruct (strings.HasSuffix s NL) eqn:Hs; [|done].
    apply HasSuffix_iff in Hs. done.
  - intros [->|Hend]; [done|]. apply HasSuffix_iff in Hend. rewrite Hend.
    by rewrite andb_false_r.
Qed.



(** ** Writing the rewritten file back *)

Lemma sliceFrom_get (n : nat) (s : string) (c : ascii) :
  String.get n s = Some c →
  strings.sliceFrom n s = String c (strings.sliceFrom (S n) s).
Proof.
  revert s. induction n as [|n IH]; intros [|a s]; simpl; try done.
  - by intros [= ->].
  - intros Hg. by apply IH.
Qed.

Lemma length_0_empty (s : string) : String.length s = 0 → s = "".
Proof. by destruct s. Qed.

Lemma trimmed_cuts (p : string) :
  p ≠ "" → trimmed (p +:+ NL +:+ NL) = p +:+ NL.
Proof.
  intros Hp.
  assert (1 ≤ String.length p) by (destruct p; [done|simpl; lia]).
  assert (Hlen : String.length (p +:+ NL) = String.length p + 1)
    by (rewrite length_append; simpl; lia).
  assert (G1 : String.get (String.length p + 1) (p +:+ NL +:+ NL) = Some LF).
  { rewrite <-append_assoc, <-Hlen. apply get_append_length. }
  assert (G2 : String.get (String.length p) (p +:+ NL +:+ NL) = Some LF)
    by apply get_append_length.
  assert (S1 : strings.sliceTo (String.length p + 1) (p +:+ NL +:+ NL) = p +:+ NL).
  { rewrite <-append_assoc, <-Hlen. apply sliceTo_append. }
  unfold trimmed. rewrite !length_append. simpl String.length.
  replace (String.length p + (1 + 1) - 1) with (String.length p + 1) by lia.
  replace (String.length p + (1 + 1) - 2) with (String.length p) by lia.
  rewrite G1, G2, S1.
  replace (2 <? String.length p + (1 + 1)) with true
    by (symmetry; apply Nat.ltb_lt; lia).
  by rewrite !bool_decide_eq_true_2.
Qed.

Lemma trimmed_keeps (data : string) :
  ¬ endsWith data (NL +:+ NL) → trimmed data = data.
Proof.
  intros Hend. unfold trimmed.
  destruct (2 <? String.length data) eqn:Hl; [|done]. apply Nat.ltb_lt in Hl.
  case_bool_decide as H1; [|done]. case_bool_decide as H2; [|done].
  destruct Hend. exists (strings.sliceTo (String.length data - 2) data).
  rewrite (get_split _ _ _ H2) at 1. f_equal.
  replace (S (String.length data - 2)) with (String.length data - 1) by lia.
  rewrite (sliceFrom_get _ _ _ H1). unfold NL.
  change (String LF "" +:+ String LF "") with (String LF (String LF "")).
  do 2 f_equal.
  apply length_0_empty. rewrite length_sliceFrom. lia.
Qed.

Lemma Truncate_WriteAt (b content : string) :
  Truncate (String.length b) (WriteAt b content) = b.
Proof.
  unfold Truncate, WriteAt. rewrite sliceTo_append, length_append.
  replace (String.length b - _) with 0 by lia. apply append_nil_r.
Qed.

(** The buffer a rewrite run has accumulated when its records are exhausted
    is written to the file after [trimmed] has been applied to it. *)
Lemma runTestInternal_writes_trimmed {H} (name : string) (input : stream)
    (f : handler H) (w w1 : world H) (buffer content : string) :
  (onReader (λ _, newTestDataReader name input true) ;;
   runTestInternal_loop (fuelFor input) f) w = (Normal tt, w1) →
  rewrite (wReader w1) = Some buffer →
  wFile w1 = Some content →
  ∃ w2, runTestInternal name input f true w = (Normal tt, w2)
        ∧ wFile w2 = Some (trimmed buffer).
Proof.
  intros Hrun Hbuf Hfile. unfold runTestInternal.
  unfold mbind, M_bind in *. simpl in *.
  destruct (runTestInternal_loop _ _ _) as [[[]|why] w1'] eqn:Hloop;
    simplify_eq/=.
  unfold gets. rewrite Hbuf, Hfile. simpl.
  eexists. split; [done|]. simpl. by rewrite Truncate_WriteAt.
Qed.

(** C3, at the input where the code departs from it: a file of two empty
    lines and no directive.  The buffer of the rewrite run is the two line
    terminators, and it is written back with both of them. *)
Theorem runTestInternal_keeps_two_terminators :
  endsWith (NL +:+ NL) (NL +:+ NL)
  ∧ trimmed (NL +:+ NL) = NL +:+ NL
  ∧ ∃ w, runTestInternal "blank" twoBlankLines echo true
           (initial tt (Some (NL +:+ NL))) = (Normal tt, w)
         ∧ rewrite (wReader w) = Some (NL +:+ NL)
         ∧ wFile w = Some (NL +:+ NL).
Proof.
  split; [by exists ""|]. split; [reflexivity|].
  eexists. split; [compute; reflexivity|]. split; reflexivity.
Qed.

(** ** Scanning arguments *)

Section ScanArgs.
Implicit Types (arg : CmdArg) (c : caller) (dest : pointer) (m : gmap loc value).

Lemma bind_run {S A B} (m : M S A) (k : A → M S B) (s : S) :
  (m ≫= k) s = match m s with
               | (Normal a, s') => k a s'
               | (Stopped why, s') => (Stopped why, s')
               end.
Proof. reflexivity. Qed.

Lemma converts_scanned dest val : converts dest val ↔ is_Some (scanned dest val).
Proof.
  assert (∀ A, ¬ @is_Some A None) as Hnone by (by intros A [? ?]).
  destruct dest as [l|l|l|l|ty]; simpl.
  - split; [by eexists|done].
  - destruct (strconv.ParseInt val) as [n [e|]]; simpl.
    + split; [done|]. by intros ?%Hnone.
    + split; [by eexists|done].
  - destruct (strconv.ParseUint val) as [n [e|]]; simpl.
    + split; [done|]. by intros ?%Hnone.
    + split; [by eexists|done].
  - destruct (strconv.ParseBool val) as [n [e|]]; simpl.
    + split; [done|]. by intros ?%Hnone.
    + split; [by eexists|done].
  - split; [done|]. by intros ?%Hnone.
Qed.

Lemma scanned_target dest val l x : scanned dest val = Some (l, x) → target dest = Some l.
Proof.
  destruct dest as [l'|l'|l'|l'|ty]; simpl; try done.
  - by intros [= -> _].
  - destruct (strconv.ParseInt val) as [n [e|]]; [done|]. by intros [= -> _].
  - destruct (strconv.ParseUint val) as [n [e|]]; [done|]. by intros [= -> _].
  - destruct (strconv.ParseBool val) as [n [e|]]; [done|]. by intros [= -> _].
Qed.

(** One call of [Scan] at an index in range. *)
Lemma Scan_in_range arg (k : nat) dest val c :
  Vals arg !! k = Some val →
  match scanned dest val with
  | Some (l, x) =>
      Scan arg (Z.of_nat k) dest c
      = (Normal tt, {| vars := <[l:=x]> (vars c); callerT := callerT c |})
  | None => ∃ e, Scan arg (Z.of_nat k) dest c = (Stopped Goexit, fatally e c)
  end.
Proof.
  intros Hval. unfold Scan.
  assert (k < length (Vals arg)) as Hk by (by eapply lookup_lt_Some).
  replace ((Z.of_nat k <? 0)%Z || (Z.of_nat (length (Vals arg)) <=? Z.of_nat k)%Z)
    with false by (symmetry; apply orb_false_iff; split;
                   [apply Z.ltb_ge|apply Z.leb_gt]; lia).
  rewrite bind_run. simpl. rewrite bind_run, Nat2Z.id, Hval. simpl.
  destruct dest as [l|l|l|l|ty]; simpl.
  - done.
  - destruct (strconv.ParseInt val) as [n [e|]]; [by eexists|done].
  - destruct (strconv.ParseUint val) as [n [e|]]; [by eexists|done].
  - destruct (strconv.ParseBool val) as [n [e|]]; [by eexists|done].
  - by eexists.
Qed.

(** The loop of [ScanArgs] from index [k] on. *)
Lemma ScanArgs_loop_spec arg dests :
  ∀ (k : nat) (vals : list string) c,
    drop k (Vals arg) = vals →
    length dests ≤ length vals →
    if decide (leading dests vals = length dests)
    then ScanArgs_loop arg (Z.of_nat k) dests c
         = (Normal tt, {| vars := stored dests vals (vars c); callerT := callerT c |})
    else ∃ e, ScanArgs_loop arg (Z.of_nat k) dests c
              = (Stopped Goexit,
                 fatally e {| vars := stored dests vals (vars c);
                              callerT := callerT c |}).
Proof.
  induction dests as [|dest dests IH]; intros k vals c Hdrop Hlen.
  { simpl. destruct vals, c; done. }
  destruct vals as [|val vals]; [simpl in Hlen; lia|].
  assert (Vals arg !! k = Some val) as Hk.
  { rewrite <-(Nat.add_0_r k), <-lookup_drop, Hdrop. done. }
  assert (drop (S k) (Vals arg) = vals) as Hdrop'.
  { replace (S k) with (k + 1) by lia. rewrite <-drop_drop, Hdrop. done. }
  pose proof (Scan_in_range arg k dest val c Hk) as Hscan.
  simpl ScanArgs_loop. rewrite bind_run. simpl leading. simpl stored.
  destruct (scanned dest val) as [[l x]|] eqn:Hsc.
  - rewrite Hscan.
    destruct (decide (converts dest val)) as [_|Hno];
      [|destruct Hno; apply converts_scanned; by eexists].
    replace (Z.of_nat k + 1)%Z with (Z.of_nat (S k)) by lia.
    specialize (IH (S k) vals
                  {| vars := <[l:=x]> (vars c); callerT := callerT c |} Hdrop').
    simpl in Hlen. specialize (IH ltac:(lia)). simpl in IH.
    destruct (decide (leading dests vals = length dests)) as [Heq|Hne].
    + rewrite decide_True by (simpl; lia). done.
    + rewrite decide_False by (simpl; lia). done.
  - destruct Hscan as [e ->].
    destruct (decide (converts dest val)) as [Hyes|_].
    { apply converts_scanned in Hyes. rewrite Hsc in Hyes. by destruct Hyes. }
    rewrite decide_False by (simpl; lia). by exists e.
Qed.

(** Variables that none of the leading destinations points to keep their
    value. *)
Lemma stored_elsewhere dests :
  ∀ vals m l,
    (∀ k dest, k < leading dests vals → dests !! k = Some dest → target dest ≠ Some l) →
    stored dests vals m !! l = m !! l.
Proof.
  induction dests as [|dest dests IH]; intros vals m l Hfree; [done|].
  destruct vals as [|val vals]; [done|]. simpl in *.
  destruct (decide (converts dest val)) as [Hyes|Hno].
  - apply converts_scanned in Hyes as [[l' x] Hsc]. rewrite Hsc.
    rewrite IH.
    + apply lookup_insert_ne. intros ->.
      apply (Hfree 0 dest); [lia|done|]. by eapply scanned_target.
    + intros k dest' Hk Hd. apply (Hfree (S k) dest'); [lia|done].
  - destruct (scanned dest val) as [[l' x]|] eqn:Hsc; [|done].
    destruct Hno. apply converts_scanned. by eexists.
Qed.

Lemma leading_all dests vals :
  length dests = length vals →
  leading dests vals = length dests ↔ Forall2 converts dests vals.
Proof.
  revert vals. induction dests as [|dest dests IH]; intros [|val vals] Hlen;
    simpl in *; try done.
  destruct (decide (converts dest val)) as [Hyes|Hno].
  - rewrite Forall2_cons. rewrite <-IH by lia. split; [intros; split; [done|lia]|lia].
  - split; [lia|]. intros [? _]%Forall2_cons. done.
Qed.

(** The lookup of [ScanArgs] against the first argument with the key. *)
Lemma ScanArgs_lookup_spec (td : TestData) (key : string) :
  match firstArg td key with
  | Some arg => ScanArgs_lookup (CmdArgs td) key = arg ∧ Key arg = key
  | None => ScanArgs_lookup (CmdArgs td) key = {| Key := ""; Vals := [] |}
  end.
Proof.
  unfold firstArg. induction (CmdArgs td) as [|a args IH]; [done|].
  simpl ScanArgs_lookup. rewrite filter_cons.
  destruct (decide (Key a = key)) as [Heq|Hne].
  - apply String.eqb_eq in Heq as Heq'. rewrite Heq'. done.
  - apply String.eqb_neq in Hne as Hne'. rewrite Hne'. done.
Qed.

Lemma ScanArgs_lookup_empty_key (args : list CmdArg) :
  Key (ScanArgs_lookup args "") = "".
Proof.
  induction args as [|a args IH]; [done|]. simpl.
  destruct (String.eqb_spec (Key a) ""); done.
Qed.

(** C10: with the empty string as the key, [ScanArgs] fails fatally and
    reports a missing argument, whatever the arguments of the record and the
    destinations are; no variable of the caller is written. *)
Theorem ScanArgs_empty_key_missing (td : TestData) (dests : list pointer) c :
  ScanArgs td "" dests c
  = (Stopped Goexit, fatally (Fatalf_ "missing argument: %s" [OString ""]) c).
Proof.
  unfold ScanArgs. rewrite bind_run, ScanArgs_lookup_empty_key. done.
Qed.

(** C4, as amended: for a key that is not empty, [ScanArgs] returns if and
    only if the first argument with the key exists, has as many values as
    there are destinations, and each value converts to the kind of its
    destination.  Otherwise the test fails fatally with one message, and a
    destination at or behind the failing index keeps the value of its
    variable, unless a destination before that index points to the same
    variable. *)
Theorem ScanArgs_succeeds_iff (td : TestData) (key : string)
    (dests : list pointer) c :
  key ≠ "" →
  ((∃ c', ScanArgs td key dests c = (Normal tt, c')) ↔ fits td key dests)
  ∧ (¬ fits td key dests →
     ∃ e c', ScanArgs td key dests c = (Stopped Goexit, fatally e c')
       ∧ callerT c' = callerT c
       ∧ ∀ j dest l,
           failingIndex td key dests ≤ j →
           dests !! j = Some dest →
           target dest = Some l →
           (∀ k dest', k < failingIndex td key dests →
                       dests !! k = Some dest' → target dest' ≠ Some l) →
           vars c' !! l = vars c !! l).
Proof.
  intros Hkey. unfold fits, failingIndex, ScanArgs.
  pose proof (ScanArgs_lookup_spec td key) as Hlookup.
  destruct (firstArg td key) as [arg|].
  - destruct Hlookup as [-> Harg]. rewrite bind_run.
    replace (String.eqb (Key arg) "") with false
      by (symmetry; apply String.eqb_neq; congruence).
    simpl. rewrite bind_run.
    destruct (decide (length dests = length (Vals arg))) as [Hlen|Hlen].
    + replace (length dests =? length (Vals arg)) with true
        by (symmetry; by apply Nat.eqb_eq).
      simpl.
      pose proof (ScanArgs_loop_spec arg dests 0 (Vals arg) c eq_refl
                    ltac:(lia)) as Hloop.
      change (Z.of_nat 0) with 0%Z in Hloop.
      destruct (decide (leading dests (Vals arg) = length dests)) as [Hall|Hsome].
      * rewrite Hloop. split.
        -- split; [|by eexists]. intros _. exists arg.
           split; [done|]. split; [done|]. by apply leading_all.
        -- intros []. exists arg. split; [done|]. split; [done|].
           by apply leading_all.
      * destruct Hloop as [e ->]. split.
        -- split; [by intros [? [=]]|]. intros (arg' & [= <-] & _ & Hconv).
           by apply leading_all in Hconv.
        -- intros _. eexists e, _. split; [done|]. split; [done|].
           intros j dest l _ _ _ Hfree. simpl. by apply stored_elsewhere.
    + replace (length dests =? length (Vals arg)) with false
        by (symmetry; by apply Nat.eqb_neq).
      simpl. split.
      * split; [by intros [? [=]]|]. by intros (arg' & [= <-] & ? & _).
      * intros _. by eexists _, c.
  - rewrite Hlookup, bind_run. simpl. split.
    + split; [by intros [? [=]]|]. by intros (arg' & [=] & _).
    + intros _. by eexists _, c.
Qed.

Lemma ScanArgs_succeeds_iff_witness :
  "arg3" ≠ ""
  ∧ ((∃ c', ScanArgs documented "arg3" [PInt 0; PInt 1; PBool 2] someCaller
            = (Normal tt, c'))
     ↔ fits documented "arg3" [PInt 0; PInt 1; PBool 2])
  ∧ (¬ fits documented "arg3" [PInt 0; PInt 1; PBool 2] →
     ∃ e c', ScanArgs documented "arg3" [PInt 0; PInt 1; PBool 2] someCaller
             = (Stopped Goexit, fatally e c')
       ∧ callerT c' = callerT someCaller
       ∧ ∀ j dest l,
           failingIndex documented "arg3" [PInt 0; PInt 1; PBool 2] ≤ j →
           [PInt 0; PInt 1; PBool 2] !! j = Some dest →
           target dest = Some l →
           (∀ k dest',
              k < failingIndex documented "arg3" [PInt 0; PInt 1; PBool 2] →
              [PInt 0; PInt 1; PBool 2] !! k = Some dest' →
              target dest' ≠ Some l) →
           vars c' !! l = vars someCaller !! l).
Proof.
  split; [discriminate|].
  apply (ScanArgs_succeeds_iff documented "arg3" [PInt 0; PInt 1; PBool 2]
           someCaller).
  discriminate.
Defined.

(** C4 as stated fails in three ways.  For the empty key, the record has an
    argument with that key, one value for one destination, and the value is
    an [int], yet [ScanArgs] does not return.  With two arguments of one key,
    the second fits the destination, yet [ScanArgs] does not return, as the
    first does not.  With one variable behind two destinations, the
    destination at the failing index has had its variable written for the
    index before. *)
Lemma ScanArgs_iff_refuted :
  ¬ ((∃ c', ScanArgs emptyKeyed "" [PInt 0] someCaller = (Normal tt, c'))
     ↔ (∃ arg, arg ∈ CmdArgs emptyKeyed ∧ Key arg = ""
               ∧ length [PInt 0] = length (Vals arg)
               ∧ Forall2 converts [PInt 0] (Vals arg)))
  ∧ ¬ ((∃ c', ScanArgs twice "k" [PInt 0] someCaller = (Normal tt, c'))
       ↔ (∃ arg, arg ∈ CmdArgs twice ∧ Key arg = "k"
                 ∧ length [PInt 0] = length (Vals arg)
                 ∧ Forall2 converts [PInt 0] (Vals arg)))
  ∧ (∃ e c', ScanArgs eightThenWord "k" [PInt 0; PInt 0] someCaller
             = (Stopped Goexit, fatally e c')
             ∧ failingIndex eightThenWord "k" [PInt 0; PInt 0] = 1
             ∧ [PInt 0; PInt 0] !! 1 = Some (PInt 0)
             ∧ vars someCaller !! 0 = Some (VInt 7)
             ∧ vars c' !! 0 = Some (VInt 8)).
Proof.
  split; [|split].
  - intros [_ Hback]. destruct Hback as [c' Hrun].
    + exists {| Key := ""; Vals := ["50"] |}.
      split; [apply list_elem_of_here|]. split; [done|]. split; [done|].
      repeat constructor.
    + unfold ScanArgs in Hrun.
      rewrite bind_run, ScanArgs_lookup_empty_key in Hrun. discriminate.
  - intros [_ Hback]. destruct Hback as [c' Hrun].
    + exists {| Key := "k"; Vals := ["50"] |}.
      split; [apply list_elem_of_further, list_elem_of_here|].
      split; [done|]. split; [done|]. repeat constructor.
    + vm_compute in Hrun. discriminate.
  - eexists _, {| vars := <[0:=VInt 8]> (vars someCaller);
                  callerT := callerT someCaller |}.
    split; [vm_compute; reflexivity|]. split; [vm_compute; reflexivity|].
    split; [done|]. split; [done|]. apply lookup_insert_eq.
Qed.

End ScanArgs.

(** ** The subtest state machine *)

Section Runner.
Context {H : Type} (f : handler H).
Implicit Types (w : world H) (d : TestData) (name : string) (fuel : nat).


Lemma guard_run {A} (c : bool) (stop : M (world H) unit) (k : M (world H) A) w :
  ((if c then stop else mret tt) ;; k) w = if c then (stop ;; k) w else k w.
Proof. by destruct c. Qed.

Lemma TestData_Fatalf_run {A} d (format : string) (args : list operand) w :
  @TestData_Fatalf _ _ A d format args w
  = (Stopped Goexit, fatally (positioned (Pos d) format args) w).
Proof. reflexivity. Qed.

Lemma TestData_Fatalf_bind {A B} d (format : string) (args : list operand)
    (k : A → M (world H) B) w :
  (TestData_Fatalf d format args ≫= k) w
  = (Stopped Goexit, fatally (positioned (Pos d) format args) w).
Proof. reflexivity. Qed.

(** [isSubTestStart] in closed form. *)
Lemma isSubTestStart_run (pre : string) w :
  isSubTestStart pre w =
  let d := data (wReader w) in
  if negb (String.eqb (Cmd d) "subtest") then (Normal ("", false), w)
  else match CmdArgs d with
       | [arg] =>
           if String.eqb (Key arg) "end"
           then (Stopped Goexit,
                 fatally (positioned (Pos d)
                            "subtest end without corresponding start" []) w)
           else if strings.HasPrefix (Key arg) pre
           then (Normal (Key arg, true), w)
           else (Stopped Goexit,
                 fatally (positioned (Pos d)
                            "name of nested subtest must begin with %q"
                            [OString pre]) w)
       | _ => (Stopped Goexit,
               fatally (positioned (Pos d) "invalid syntax for subtest" []) w)
       end.
Proof.
  unfold isSubTestStart. rewrite bind_run. simpl.
  destruct (String.eqb (Cmd (data (wReader w))) "subtest"); simpl; [|done].
  destruct (CmdArgs (data (wReader w))) as [|arg [|arg' args]]; try done.
  rewrite bind_run. simpl. rewrite bind_run. simpl. rewrite guard_run.
  destruct (String.eqb (Key arg) "end"); [done|].
  rewrite guard_run. by destruct (strings.HasPrefix (Key arg) pre).
Qed.

(** [isSubTestEnd] in closed form. *)
Lemma isSubTestEnd_run w :
  isSubTestEnd w =
  let d := data (wReader w) in
  if negb (String.eqb (Cmd d) "subtest") then (Normal false, w)
  else match CmdArgs d with
       | [] => (Normal false, w)
       | arg :: more =>
           if negb (String.eqb (Key arg) "end") then (Normal false, w)
           else if 1 <? length more
           then (Stopped Goexit,
                 fatally (positioned (Pos d) "invalid syntax for subtest end" []) w)
           else (Normal true, w)
       end.
Proof.
  unfold isSubTestEnd. rewrite bind_run. simpl.
  destruct (String.eqb (Cmd (data (wReader w))) "subtest"); simpl; [|done].
  destruct (CmdArgs (data (wReader w))) as [|arg more]; [done|].
  destruct (String.eqb (Key arg) "end"); simpl; [|done].
  rewrite guard_run. simpl length.
  change (2 <? S (length more)) with (1 <? length more).
  by destruct (1 <? length more).
Qed.




(** [t.Run] in terms of the worlds of the subtest and of its parent. *)
Lemma Run_run {A} name (body : M (world H) A) w :
  Run name body w =
  match body (subtestOf w) with
  | (Normal a, w1) => (Normal (Some a, skipped (wT w1)), backTo w w1)
  | (Stopped Goexit, w1) => (Normal (None, skipped (wT w1)), backTo w w1)
  | (Stopped why, w1) => (Stopped why, backTo w w1)
  end.
Proof.
  unfold Run, subtestOf, backTo. simpl.
  destruct (body _) as [[a|[| |]] w1]; reflexivity.
Qed.



(** The three functions, one call deep. *)
Lemma runDirectiveOrSubTest_S fuel (pre : string) :
  runDirectiveOrSubTest (S fuel) pre f =
  ('(subTestName, ok) ← isSubTestStart pre;
   (if ok : bool then runSubTest fuel subTestName f else runDirective f) ;;
   failed ← Failed;
   if failed : bool then FailNow else mret tt).
Proof. reflexivity. Qed.

Lemma runSubTest_loop_S fuel name :
  runSubTest_loop (S fuel) name f =
  (more ← Next;
   if more : bool then
     isEnd ← isSubTestEnd;
     if isEnd : bool then mret true
     else runDirectiveOrSubTest fuel (name +:+ "/") f ;;
          runSubTest_loop fuel name f
   else mret false).
Proof. reflexivity. Qed.

(** What [runSubTest] does once the body of the subtest has ended: the
    closed form of the checks behind [t.Run]. *)
Lemma runSubTest_S fuel name w :
  runSubTest (S fuel) name f w =
  match runSubTest_loop fuel name f (subtestOf w) with
  | (Stopped Panic, w1) => (Stopped Panic, backTo w w1)
  | (Stopped OutOfFuel, w1) => (Stopped OutOfFuel, backTo w w1)
  | (o, w1) =>
      let seenSubTestEnd :=
        match o with Normal true => true | _ => false end in
      let d := data (wReader w1) in
      let start := Pos (data (wReader w)) in
      if skipped (wT w1)
      then (Stopped Goexit,
            fatally (positioned (Pos d)
                       ("cannot use t.Skip inside subtest" +:+ NL
                        +:+ "%s: subtest started here") [OString start])
              (backTo w w1))
      else
        match (if seenSubTestEnd then CmdArgs d else []) with
        | [_; arg1] =>
            if negb (String.eqb (Key arg1) name)
            then (Stopped Goexit,
                  fatally (positioned (Pos d)
                             "mismatched subtest end directive: expected %q, got %q"
                             [OString (Key arg1); OString name])
                    (backTo w w1))
            else (Normal tt, backTo w w1)
        | _ =>
            if negb seenSubTestEnd && negb (failed (wT w) || failed (wT w1))
            then (Stopped Goexit,
                  fatally (positioned (Pos d)
                             ("EOF encountered without subtest end directive" +:+ NL
                              +:+ "%s: subtest started here") [OString start])
                    (backTo w w1))
            else (Normal tt, backTo w w1)
        end
  end.
Proof.
  change (runSubTest (S fuel) name f) with
    (subTestStartPos ← gets (λ w, Pos (data (wReader w)));
     '(returned, seenSkip) ← Run name (runSubTest_loop fuel name f);
     let seenSubTestEnd := default false returned in
     d ← gets (λ w, data (wReader w));
     (if seenSkip : bool
      then TestData_Fatalf d
             ("cannot use t.Skip inside subtest" +:+ NL +:+ "%s: subtest started here")
             [OString subTestStartPos]
      else mret tt) ;;
     (if seenSubTestEnd && (length (CmdArgs d) =? 2)
      then
        arg1 ← index (CmdArgs d) 1;
        if negb (String.eqb (Key arg1) name)
        then TestData_Fatalf d
               "mismatched subtest end directive: expected %q, got %q"
               [OString (Key arg1); OString name]
        else mret tt
      else mret tt) ;;
     failed ← Failed;
     if negb seenSubTestEnd && negb failed
     then TestData_Fatalf d
            ("EOF encountered without subtest end directive" +:+ NL
             +:+ "%s: subtest started here")
            [OString subTestStartPos]
     else mret tt).
  rewrite bind_run. simpl. rewrite bind_run, Run_run.
  destruct (runSubTest_loop fuel name f (subtestOf w)) as [[b|[| |]] w1];
    try reflexivity.
  - (* the body returned *)
    destruct w as [r [fl sk out] h file], w1 as [r1 [fl1 sk1 out1] h1 file1].
    destruct r1 as [d1 p1 b1], d1 as [pos1 cmd1 args1 in1 ex1].
    destruct sk1; [reflexivity|]. destruct b.
    + destruct args1 as [|a0 [|a1 [|a2 more]]]; try reflexivity.
      unfold mbind, mret, M_bind, M_ret, index, Failed, gets. simpl.
      by destruct (String.eqb (Key a1) name).
    + by destruct fl, fl1.
  - (* the body ended in [Goexit] *)
    destruct w as [r [fl sk out] h file], w1 as [r1 [fl1 sk1 out1] h1 file1].
    destruct sk1; [reflexivity|]. by destruct fl, fl1.
Qed.




(** A handler that skips ends the directive with the skip mark set. *)
Lemma runDirective_skip w (errored : bool) (h' : H) :
  f (data (wReader w)) (wHandler w) = (CallsSkip errored, h') →
  runDirective f w
  = (Stopped Goexit,
     {| wReader := wReader w;
        wT := {| failed := errored || failed (wT w); skipped := true;
                 output := output (wT w) |};
        wHandler := h'; wFile := wFile w |}).
Proof.
  intros Hf. unfold runDirective, runDirective_actual, call, mbind, M_bind, gets.
  simpl. rewrite Hf. by destruct errored.
Qed.

(** C7: when the body of a subtest ends because [t.Skip] was called in it,
    so that it leaves with the skip mark of the subtest set, [runSubTest]
    fails fatally, and the message names the position at which the subtest
    started. *)
Theorem runSubTest_rejects_skip fuel name w w1 :
  runSubTest_loop fuel name f (subtestOf w) = (Stopped Goexit, w1) →
  skipped (wT w1) = true →
  runSubTest (S fuel) name f w
  = (Stopped Goexit,
     fatally (positioned (Pos (data (wReader w1)))
                ("cannot use t.Skip inside subtest" +:+ NL
                 +:+ "%s: subtest started here")
                [OString (Pos (data (wReader w)))])
       (backTo w w1)).
Proof. intros Hbody Hskip. rewrite runSubTest_S, Hbody. simpl. by rewrite Hskip. Qed.



(** C2, as amended: a subtest start is accepted if and only if its name
    begins with the mandatory prefix, and is a fatal error otherwise.  The
    prefix is empty at the top level, where every subtest start is therefore
    accepted, and it is the name of the subtest followed by a slash in the
    loop of a subtest. *)
Theorem subtest_start_accepted_iff_prefix fuel (parent : string) name w w0 :
  Next w = (Normal true, w0) →
  subtestStart (data (wReader w0)) name →
  (∀ pre : string,
     (beginsWith name pre →
      isSubTestStart pre w0 = (Normal (name, true), w0))
     ∧ (¬ beginsWith name pre →
        isSubTestStart pre w0
        = (Stopped Goexit,
           fatally (positioned (Pos (data (wReader w0)))
                      "name of nested subtest must begin with %q"
                      [OString pre]) w0)))
  ∧ runTestInternal_loop (S (S fuel)) f w
    = ((runSubTest fuel name f ;;
        failed ← Failed; if failed : bool then FailNow else mret tt) ;;
       runTestInternal_loop (S fuel) f) w0
  ∧ (beginsWith name (parent +:+ "/") →
     runSubTest_loop (S (S fuel)) parent f w
     = ((runSubTest fuel name f ;;
         failed ← Failed; if failed : bool then FailNow else mret tt) ;;
        runSubTest_loop (S fuel) parent f) w0)
  ∧ (¬ beginsWith name (parent +:+ "/") →
     runSubTest_loop (S (S fuel)) parent f w
     = (Stopped Goexit,
        fatally (positioned (Pos (data (wReader w0)))
                   "name of nested subtest must begin with %q"
                   [OString (parent +:+ "/")]) w0)).
Proof.
  intros Hnext (Hcmd & (arg & Hargs & Hkey) & Hname).
  assert (Hstart : ∀ pre : string,
            isSubTestStart pre w0 =
            if strings.HasPrefix name pre then (Normal (name, true), w0)
            else (Stopped Goexit,
                  fatally (positioned (Pos (data (wReader w0)))
                             "name of nested subtest must begin with %q"
                             [OString pre]) w0)).
  { intros pre. rewrite isSubTestStart_run. simpl.
    apply String.eqb_eq in Hcmd. rewrite Hcmd, Hargs, Hkey.
    apply String.eqb_neq in Hname. by rewrite Hname. }
  assert (Hend : isSubTestEnd w0 = (Normal false, w0)).
  { rewrite isSubTestEnd_run. simpl.
    apply String.eqb_eq in Hcmd. rewrite Hcmd, Hargs, Hkey.
    apply String.eqb_neq in Hname. by rewrite Hname. }
  split; [|split; [|split]].
  - intros pre. rewrite Hstart. split.
    + intros Hpre. apply HasPrefix_iff in Hpre. by rewrite Hpre.
    + intros Hpre. destruct (strings.HasPrefix name pre) eqn:Hp; [|done].
      by apply HasPrefix_iff in Hp.
  - change (runTestInternal_loop (S (S fuel)) f) with
      (more ← Next;
       if more : bool then
         runDirectiveOrSubTest (S fuel) "" f ;; runTestInternal_loop (S fuel) f
       else mret tt).
    rewrite bind_run, Hnext, runDirectiveOrSubTest_S.
    rewrite bind_run, bind_run, Hstart, HasPrefix_empty. done.
  - intros Hpre. apply HasPrefix_iff in Hpre.
    rewrite runSubTest_loop_S, bind_run, Hnext, bind_run, Hend.
    rewrite runDirectiveOrSubTest_S.
    rewrite bind_run, bind_run, Hstart, Hpre. done.
  - intros Hpre.
    rewrite runSubTest_loop_S, bind_run, Hnext, bind_run, Hend.
    rewrite runDirectiveOrSubTest_S.
    rewrite bind_run, bind_run, Hstart.
    destruct (strings.HasPrefix name (parent +:+ "/")) eqn:Hp; [|done].
    by apply HasPrefix_iff in Hp.
Qed.

(** A file that ends right behind a subtest start: the missing end is
    reported with the position at which the subtest started. *)
Lemma missing_end_behind_start fuel name w :
  records (pending (wReader w)) = [] →
  failed (wT w) = false →
  runSubTest (S (S fuel)) name f w
  = (Stopped Goexit,
     fatally (positioned (Pos (exhausted (pending (wReader w))))
                ("EOF encountered without subtest end directive" +:+ NL
                 +:+ "%s: subtest started here")
                [OString (Pos (data (wReader w)))])
       (backTo w (Next (subtestOf w)).2)).
Proof.
  intros Hrec Hfailed. rewrite runSubTest_S, runSubTest_loop_S, bind_run.
  destruct (Next (subtestOf w)) as [o w1] eqn:Hnext.
  unfold Next, advance in Hnext. simpl in Hnext. rewrite Hrec in Hnext.
  injection Hnext as <- <-. simpl. by rewrite Hfailed.
Qed.

Lemma isSubTestEnd_other w :
  Cmd (data (wReader w)) ≠ "subtest" → isSubTestEnd w = (Normal false, w).
Proof.
  intros Hcmd%String.eqb_neq. rewrite isSubTestEnd_run. cbv zeta. by rewrite Hcmd.
Qed.

Lemma isSubTestStart_other (pre : string) w :
  Cmd (data (wReader w)) ≠ "subtest" →
  isSubTestStart pre w = (Normal ("", false), w).
Proof.
  intros Hcmd%String.eqb_neq. rewrite isSubTestStart_run. cbv zeta. by rewrite Hcmd.
Qed.

Lemma Next_record w text d rest :
  records (pending (wReader w)) = (text, d) :: rest →
  ∃ w0, Next w = (Normal true, w0)
        ∧ data (wReader w0) = d ∧ wHandler w0 = wHandler w ∧ wT w0 = wT w.
Proof.
  intros Hrec. unfold Next, advance. rewrite Hrec. by eexists.
Qed.

(** A handler that skips at the first directive of a subtest: the run fails
    fatally at that directive, and the message names the start of the
    subtest. *)
Lemma skip_at_first_directive fuel name w text d rest (errored : bool) (h' : H) :
  records (pending (wReader w)) = (text, d) :: rest →
  Cmd d ≠ "subtest" →
  f d (wHandler w) = (CallsSkip errored, h') →
  ∃ w1, runSubTest (S (S (S fuel))) name f w
        = (Stopped Goexit,
           fatally (positioned (Pos d)
                      ("cannot use t.Skip inside subtest" +:+ NL
                       +:+ "%s: subtest started here")
                      [OString (Pos (data (wReader w)))])
             (backTo w w1)).
Proof.
  intros Hrec Hcmd Hf.
  destruct (Next_record (subtestOf w) text d rest Hrec)
    as (w0 & Hnext & Hd & Hh & _).
  change (wHandler (subtestOf w)) with (wHandler w) in Hh.
  rewrite <-Hd in Hcmd. rewrite <-Hd, <-Hh in Hf.
  assert (∃ w1, runSubTest_loop (S (S fuel)) name f (subtestOf w)
                = (Stopped Goexit, w1)
                ∧ skipped (wT w1) = true ∧ data (wReader w1) = d)
    as (w1 & Hloop & Hskip & Hd1).
  { rewrite runSubTest_loop_S, bind_run, Hnext, bind_run.
    rewrite (isSubTestEnd_other w0 Hcmd).
    rewrite runDirectiveOrSubTest_S, bind_run, bind_run.
    rewrite (isSubTestStart_other _ w0 Hcmd), bind_run.
    rewrite (runDirective_skip w0 errored h' Hf). by eexists. }
  exists w1. rewrite runSubTest_S, Hloop. cbv zeta. by rewrite Hskip, Hd1.
Qed.

End Runner.

(** *** The statements above at sample inputs *)

Lemma runSubTest_rejects_skip_witness :
  runSubTest_loop 9 "foo" skipper
    (subtestOf (atFirst freshT [start "f:1" "foo"; plain "f:2" "hi"]))
  = (Stopped Goexit, bodyEnd skipper "foo" [start "f:1" "foo"; plain "f:2" "hi"])
  ∧ skipped (wT (bodyEnd skipper "foo" [start "f:1" "foo"; plain "f:2" "hi"])) = true
  ∧ runSubTest 10 "foo" skipper (atFirst freshT [start "f:1" "foo"; plain "f:2" "hi"])
    = (Stopped Goexit,
       fatally (positioned "f:2"
                  ("cannot use t.Skip inside subtest" +:+ NL
                   +:+ "%s: subtest started here") [OString "f:1"])
         (backTo (atFirst freshT [start "f:1" "foo"; plain "f:2" "hi"])
            (bodyEnd skipper "foo" [start "f:1" "foo"; plain "f:2" "hi"]))).
Proof.
  split; [reflexivity|]. split; [reflexivity|].
  apply (runSubTest_rejects_skip skipper 9 "foo"
           (atFirst freshT [start "f:1" "foo"; plain "f:2" "hi"])
           (bodyEnd skipper "foo" [start "f:1" "foo"; plain "f:2" "hi"]));
    reflexivity.
Defined.



Lemma subtest_start_accepted_iff_prefix_witness :
  Next (running freshT [start "f:1" "foo/bar"; finish "f:2" []])
  = (Normal true, atFirst freshT [start "f:1" "foo/bar"; finish "f:2" []])
  ∧ subtestStart
      (data (wReader (atFirst freshT [start "f:1" "foo/bar"; finish "f:2" []])))
      "foo/bar"
  ∧ (∀ pre : string,
       (beginsWith "foo/bar" pre →
        isSubTestStart pre (atFirst freshT [start "f:1" "foo/bar"; finish "f:2" []])
        = (Normal ("foo/bar", true),
           atFirst freshT [start "f:1" "foo/bar"; finish "f:2" []]))
       ∧ (¬ beginsWith "foo/bar" pre →
          isSubTestStart pre (atFirst freshT [start "f:1" "foo/bar"; finish "f:2" []])
          = (Stopped Goexit,
             fatally (positioned
                        (Pos (data (wReader
                           (atFirst freshT [start "f:1" "foo/bar"; finish "f:2" []]))))
                        "name of nested subtest must begin with %q"
                        [OString pre])
               (atFirst freshT [start "f:1" "foo/bar"; finish "f:2" []]))))
  ∧ runTestInternal_loop 9 echo (running freshT [start "f:1" "foo/bar"; finish "f:2" []])
    = ((runSubTest 7 "foo/bar" echo ;;
        failed ← Failed; if failed : bool then FailNow else mret tt) ;;
       runTestInternal_loop 8 echo)
        (atFirst freshT [start "f:1" "foo/bar"; finish "f:2" []])
  ∧ (beginsWith "foo/bar" ("foo" +:+ "/") →
     runSubTest_loop 9 "foo" echo
       (running freshT [start "f:1" "foo/bar"; finish "f:2" []])
     = ((runSubTest 7 "foo/bar" echo ;;
         failed ← Failed; if failed : bool then FailNow else mret tt) ;;
        runSubTest_loop 8 "foo" echo)
         (atFirst freshT [start "f:1" "foo/bar"; finish "f:2" []]))
  ∧ (¬ beginsWith "foo/bar" ("foo" +:+ "/") →
     runSubTest_loop 9 "foo" echo
       (running freshT [start "f:1" "foo/bar"; finish "f:2" []])
     = (Stopped Goexit,
        fatally (positioned
                   (Pos (data (wReader
                      (atFirst freshT [start "f:1" "foo/bar"; finish "f:2" []]))))
                   "name of nested subtest must begin with %q"
                   [OString ("foo" +:+ "/")])
          (atFirst freshT [start "f:1" "foo/bar"; finish "f:2" []]))).
Proof.
  assert (subtestStart
            (data (wReader (atFirst freshT [start "f:1" "foo/bar"; finish "f:2" []])))
            "foo/bar") as Hstart.
  { split; [reflexivity|]. split; [|discriminate].
    exists (flag "foo/bar"). split; reflexivity. }
  split; [reflexivity|]. split; [exact Hstart|].
  apply (subtest_start_accepted_iff_prefix echo 7 "foo" "foo/bar"
           (running freshT [start "f:1" "foo/bar"; finish "f:2" []])
           (atFirst freshT [start "f:1" "foo/bar"; finish "f:2" []]));
    [reflexivity|exact Hstart].
Defined.

(** C2 as stated fails at the top level: with no subtest open the prefix is
    empty, so a subtest named [bar] is opened there, and the file that opens
    and closes it passes; a subtest named [foo/bar] is opened there as well,
    although no subtest named [foo] is open. *)
Lemma top_level_accepts_any_name :
  isSubTestStart "" (atFirst freshT [start "f:1" "bar"; finish "f:2" []])
  = (Normal ("bar", true), atFirst freshT [start "f:1" "bar"; finish "f:2" []])
  ∧ (∃ w, runTestInternal "f" (fileOf [start "f:1" "bar"; finish "f:2" []])
            echo false (initial tt None) = (Normal tt, w)
          ∧ failed (wT w) = false ∧ output (wT w) = [])
  ∧ isSubTestStart "" (atFirst freshT [start "f:1" "foo/bar"; finish "f:2" []])
    = (Normal ("foo/bar", true),
       atFirst freshT [start "f:1" "foo/bar"; finish "f:2" []])
  ∧ (∃ w, runTestInternal "f" (fileOf [start "f:1" "foo/bar"; finish "f:2" []])
            echo false (initial tt None) = (Normal tt, w)
          ∧ failed (wT w) = false ∧ output (wT w) = []).
Proof.
  split; [reflexivity|]. split; [eexists; split; [compute; reflexivity|done]|].
  split; [reflexivity|]. eexists; split; [compute; reflexivity|done].
Qed.


(** ** Termination: the fuel of [runTestInternal] is enough *)

Section Fuel.
Context {H : Type} (f : handler H).
Implicit Types (w : world H) (name : string).











End Fuel.

(** ** White space *)

Section TrimSpace.
Implicit Types (r s t : string) (runes : list string).

Lemma spaces_app s t : spaces s → spaces t → spaces (s +:+ t).
Proof.
  induction 1 as [|r s Hr Hs IH]; intros Ht; [done|].
  rewrite append_assoc. constructor; auto.
Qed.

Lemma spaces_rune r : r ∈ strings.spaceRunes → spaces r.
Proof. intros Hr. rewrite <-(append_nil_r r). constructor; [done|constructor]. Qed.

Lemma beginsWith_comparable s t s' t' :
  s +:+ t = s' +:+ t' → beginsWith s s' ∨ beginsWith s' s.
Proof.
  revert s'. induction s as [|a s IH]; intros s' Heq.
  - right. by exists s'.
  - destruct s' as [|a' s']; [left; by eexists|].
    simpl in Heq. injection Heq as -> Heq.
    destruct (IH _ Heq) as [[q ->]|[q ->]]; [left|right]; by exists q.
Qed.

Lemma cutLeading_sound runes s s' :
  strings.cutLeading runes s = Some s' → ∃ r, r ∈ runes ∧ s = r +:+ s'.
Proof.
  induction runes as [|r runes IH]; [done|]. simpl.
  destruct (strings.HasPrefix s r) eqn:Hp.
  - intros [= <-]. apply HasPrefix_iff in Hp as [q ->].
    exists r. split; [apply list_elem_of_here|]. by rewrite sliceFrom_append.
  - intros (r' & Hr' & ->)%IH. exists r'. split; [by apply list_elem_of_further|done].
Qed.

Lemma cutTrailing_sound runes s s' :
  strings.cutTrailing runes s = Some s' → ∃ r, r ∈ runes ∧ s = s' +:+ r.
Proof.
  induction runes as [|r runes IH]; [done|]. simpl.
  destruct (strings.HasSuffix s r) eqn:Hp.
  - intros [= <-]. apply HasSuffix_iff in Hp as [q ->].
    exists r. split; [apply list_elem_of_here|].
    rewrite length_append.
    replace (String.length q + String.length r - String.length r)
      with (String.length q) by lia.
    by rewrite sliceTo_append.
  - intros (r' & Hr' & ->)%IH. exists r'. split; [by apply list_elem_of_further|done].
Qed.

Lemma cutLeading_complete runes r s :
  r ∈ runes →
  (∀ r', r' ∈ runes → beginsWith (r +:+ s) r' → r' = r) →
  strings.cutLeading runes (r +:+ s) = Some s.
Proof.
  induction runes as [|r' runes IH]; intros Hr Hfree; [by apply elem_of_nil in Hr|].
  simpl. destruct (strings.HasPrefix (r +:+ s) r') eqn:Hp.
  - apply HasPrefix_iff in Hp. rewrite (Hfree r' (list_elem_of_here _ _) Hp).
    by rewrite sliceFrom_append.
  - apply IH.
    + apply elem_of_cons in Hr as [->|Hr]; [|done].
      assert (strings.HasPrefix (r' +:+ s) r' = true) as Hyes
        by (apply HasPrefix_iff; by exists s).
      congruence.
    + intros r'' Hr''. apply Hfree. by apply list_elem_of_further.
Qed.

Lemma spaceRunes_prefixFree : prefixFree strings.spaceRunes.
Proof.
  assert (forallb (λ r, forallb (λ r', implb (strings.HasPrefix r r')
                                         (String.eqb r r'))
                          strings.spaceRunes) strings.spaceRunes = true)
    as Hall by (vm_compute; reflexivity).
  intros r r' Hr Hr' Hp.
  rewrite forallb_forall in Hall. apply list_elem_of_In in Hr, Hr'.
  specialize (Hall r Hr). rewrite forallb_forall in Hall.
  specialize (Hall r' Hr'). rewrite Hp in Hall. by apply String.eqb_eq.
Qed.

Lemma spaceRunes_not_empty r : r ∈ strings.spaceRunes → 0 < String.length r.
Proof.
  assert (forallb (λ r, 0 <? String.length r) strings.spaceRunes = true)
    as Hall by (vm_compute; reflexivity).
  intros Hr. rewrite forallb_forall in Hall. apply list_elem_of_In in Hr.
  by apply Nat.ltb_lt, Hall.
Qed.

Lemma HasPrefix_shorter r r' q :
  r = r' +:+ q → strings.HasPrefix r r' = true.
Proof. intros ->. apply HasPrefix_iff. by exists q. Qed.

(** The rune a string of white space begins with is the one that is cut. *)
Lemma cutLeading_rune r s :
  r ∈ strings.spaceRunes → strings.cutLeading strings.spaceRunes (r +:+ s) = Some s.
Proof.
  intros Hr. apply cutLeading_complete; [done|].
  intros r' Hr' [q Hq].
  destruct (beginsWith_comparable r s r' q Hq) as [[q' ->]|[q' ->]].
  - symmetry. apply spaceRunes_prefixFree; [done..|]. by eapply HasPrefix_shorter.
  - apply spaceRunes_prefixFree; [done..|]. by eapply HasPrefix_shorter.
Qed.

Lemma trimLeft_S n s :
  strings.trimLeft (S n) s =
  match strings.cutLeading strings.spaceRunes s with
  | Some s' => strings.trimLeft n s'
  | None => s
  end.
Proof. reflexivity. Qed.

Lemma trimRight_S n s :
  strings.trimRight (S n) s =
  match strings.cutTrailing strings.spaceRunes s with
  | Some s' => strings.trimRight n s'
  | None => s
  end.
Proof. reflexivity. Qed.

Lemma trimLeft_strips n s :
  ∃ pre, s = pre +:+ strings.trimLeft n s ∧ spaces pre.
Proof.
  revert s. induction n as [|n IH]; intros s; [exists ""; split; [done|constructor]|].
  rewrite trimLeft_S.
  destruct (strings.cutLeading strings.spaceRunes s) as [s'|] eqn:Hcut.
  - apply cutLeading_sound in Hcut as (r & Hr & ->).
    destruct (IH s') as (pre & Hpre & Hsp). exists (r +:+ pre).
    split; [rewrite append_assoc; by f_equal|by constructor].
  - exists "". split; [done|constructor].
Qed.

Lemma trimLeft_spaces n s :
  String.length s ≤ n → spaces s → strings.trimLeft n s = "".
Proof.
  revert s. induction n as [|n IH]; intros s Hlen Hsp.
  { simpl. apply length_0_empty. lia. }
  rewrite trimLeft_S. destruct Hsp as [|r s Hr Hsp]; [done|].
  rewrite cutLeading_rune by done. apply IH; [|done].
  rewrite length_append in Hlen. apply spaceRunes_not_empty in Hr. lia.
Qed.

Lemma trimRight_empty n s : strings.trimRight n s = "" → spaces s.
Proof.
  revert s. induction n as [|n IH]; intros s; [simpl; intros ->; constructor|].
  rewrite trimRight_S.
  destruct (strings.cutTrailing strings.spaceRunes s) as [s'|] eqn:Hcut.
  - apply cutTrailing_sound in Hcut as (r & Hr & ->). intros Hs'.
    apply spaces_app; [by apply IH|by apply spaces_rune].
  - intros ->. constructor.
Qed.

(** The bounds of the two trimming loops are enough: no white-space rune is
    left at either end. *)
Lemma trimLeft_done n :
  ∀ s, String.length s ≤ n →
       strings.cutLeading strings.spaceRunes (strings.trimLeft n s) = None.
Proof.
  induction n as [|n IH]; intros s Hlen.
  { rewrite (length_0_empty s) by lia. by vm_compute. }
  rewrite trimLeft_S.
  destruct (strings.cutLeading strings.spaceRunes s) as [s'|] eqn:Hcut; [|done].
  apply IH. apply cutLeading_sound in Hcut as (r & Hr & ->).
  apply spaceRunes_not_empty in Hr. rewrite length_append in Hlen. lia.
Qed.

Lemma trimRight_done n :
  ∀ s, String.length s ≤ n →
       strings.cutTrailing strings.spaceRunes (strings.trimRight n s) = None.
Proof.
  induction n as [|n IH]; intros s Hlen.
  { rewrite (length_0_empty s) by lia. by vm_compute. }
  rewrite trimRight_S.
  destruct (strings.cutTrailing strings.spaceRunes s) as [s'|] eqn:Hcut; [|done].
  apply IH. apply cutTrailing_sound in Hcut as (r & Hr & ->).
  apply spaceRunes_not_empty in Hr. rewrite length_append in Hlen. lia.
Qed.

(** A line is blank exactly when it is made of white-space runes. *)
Lemma blank_spaces s : blank s ↔ spaces s.
Proof.
  unfold blank, strings.TrimSpace. split.
  - intros Htrim. apply trimRight_empty in Htrim.
    destruct (trimLeft_strips (String.length s) s) as (pre & Hpre & Hsp).
    rewrite Hpre. by apply spaces_app.
  - intros Hsp. by rewrite trimLeft_spaces.
Qed.

End TrimSpace.

(** ** Blank lines *)

#[local] Arguments bufio.MaxScanTokenSize : simpl never.

Section BlankLines.
Implicit Types (s t text rest cur : string).

Lemma CR_rune : String CR "" ∈ strings.spaceRunes.
Proof. vm_compute. do 4 apply list_elem_of_further. apply list_elem_of_here. Qed.

(** A rune of more than one byte does not end with a carriage return. *)
Lemma rune_not_before_CR r t :
  r ∈ strings.spaceRunes → r = t +:+ String CR "" → t = "".
Proof.
  assert (forallb (λ r, (String.length r =? 1) || negb (strings.HasSuffix r (String CR "")))
            strings.spaceRunes = true) as Hall by (vm_compute; reflexivity).
  intros Hr Heq. rewrite forallb_forall in Hall. apply list_elem_of_In in Hr.
  specialize (Hall r Hr). apply orb_true_iff in Hall as [Hone|Hno].
  - apply Nat.eqb_eq in Hone. rewrite Heq, length_append in Hone. simpl in Hone.
    apply length_0_empty. lia.
  - assert (strings.HasSuffix r (String CR "") = true) as Hyes
      by (apply HasSuffix_iff; by exists t).
    by rewrite Hyes in Hno.
Qed.

Lemma spaces_before_CR t : spaces (t +:+ String CR "") ↔ spaces t.
Proof.
  split; [|intros; apply spaces_app; [done|apply spaces_rune, CR_rune]].
  remember (t +:+ String CR "") as u eqn:Hu. intros Hsp. revert t Hu.
  induction Hsp as [|r s Hr Hs IH]; intros t Hu; [by destruct t|].
  destruct (beginsWith_comparable _ _ _ _ Hu) as [[q ->]|[t' ->]].
  - (* the rune reaches the end of [t] *)
    rewrite append_assoc in Hu. apply append_inj_l in Hu.
    destruct q as [|c q].
    + rewrite append_nil_r in Hr. simpl in Hu. rewrite Hu in Hs.
      rewrite <-(append_nil_r t). apply spaces_app; [by apply spaces_rune|constructor].
    + simpl in Hu. injection Hu as -> Hu.
      assert (q = "") as -> by (by destruct q).
      apply (rune_not_before_CR _ t) in Hr as ->; [constructor|done].
  - rewrite append_assoc in Hu. apply append_inj_l in Hu.
    constructor; [done|]. by apply IH.
Qed.

Lemma dropCR_cases text :
  bufio.dropCR text = text
  ∨ ∃ t, text = t +:+ String CR "" ∧ bufio.dropCR text = t.
Proof.
  unfold bufio.dropCR.
  destruct (String.get (String.length text - 1) text) as [c|] eqn:Hget; [|by left].
  destruct (0 <? String.length text) eqn:Hlen; [|by left].
  destruct (Ascii.eqb_spec c CR) as [->|]; [|by left]. simpl.
  right. exists (strings.sliceTo (String.length text - 1) text). split; [|done].
  apply Nat.ltb_lt in Hlen.
  rewrite (get_split _ _ _ Hget) at 1. do 2 f_equal.
  apply length_0_empty. rewrite length_sliceFrom. lia.
Qed.

(** The carriage return the scanner drops does not change whether the line
    is blank. *)
Lemma blank_dropCR text : blank (bufio.dropCR text) ↔ blank text.
Proof.
  destruct (dropCR_cases text) as [->|(t & -> & ->)]; [done|].
  rewrite !blank_spaces. symmetry. apply spaces_before_CR.
Qed.

Lemma MaxScanTokenSize_pos : 0 < bufio.MaxScanTokenSize.
Proof. unfold bufio.MaxScanTokenSize. lia. Qed.

Lemma readLine_spec room s :
  match bufio.readLine room s with
  | bufio.FullLine text rest =>
      s = text +:+ String LF rest ∧ without LF text ∧ String.length text < room
  | bufio.LastLine text =>
      s = text ∧ without LF text ∧ String.length text < room
  | bufio.BufferFull =>
      ∃ pre post, s = pre +:+ post ∧ String.length pre = room ∧ without LF pre
  end.
Proof.
  revert s. induction room as [|room IH]; intros s; simpl.
  { by exists "", s. }
  destruct s as [|c s]; [simpl; split_and!; (done || lia)|].
  destruct (Ascii.eqb_spec c LF) as [->|Hc]; [simpl; split_and!; (done || lia)|].
  specialize (IH s). destruct (bufio.readLine room s) as [text rest|text|].
  - destruct IH as (-> & Hno & Hlen). simpl. split_and!; (done || lia).
  - destruct IH as (-> & Hno & Hlen). simpl. split_and!; (done || lia).
  - destruct IH as (pre & post & -> & Hlen & Hno).
    exists (String c pre), post. simpl. split_and!; (done || lia).
Qed.

Lemma linesFrom_line cur text rest :
  without LF text →
  linesFrom cur (text +:+ String LF rest) = (cur +:+ text) :: linesFrom "" rest.
Proof.
  revert cur. induction text as [|c text IH]; intros cur Hno; simpl.
  - by rewrite append_nil_r.
  - destruct Hno as [Hc Hno]. apply Ascii.eqb_neq in Hc. rewrite Hc.
    rewrite IH by done. by rewrite append_assoc.
Qed.

Lemma linesFrom_last cur text :
  without LF text → cur +:+ text ≠ "" → linesFrom cur text = [cur +:+ text].
Proof.
  revert cur. induction text as [|c text IH]; intros cur Hno Hne; simpl.
  - rewrite append_nil_r in *. apply String.eqb_neq in Hne. by rewrite Hne.
  - destruct Hno as [Hc Hno]. apply Ascii.eqb_neq in Hc. rewrite Hc.
    rewrite IH; [by rewrite append_assoc|done|].
    rewrite append_assoc. by destruct cur.
Qed.

(** The first line is at least as long as what has been read of it. *)
Lemma linesFrom_first cur s :
  cur ≠ "" →
  ∃ line lines, linesFrom cur s = line :: lines
                ∧ String.length cur ≤ String.length line.
Proof.
  revert cur. induction s as [|c s IH]; intros cur Hne; simpl.
  - apply String.eqb_neq in Hne. rewrite Hne. by exists cur, [].
  - destruct (Ascii.eqb c LF); [by eexists cur, _|].
    destruct (IH (cur +:+ String c "")) as (line & lines & -> & Hlen);
      [by destruct cur|].
    exists line, lines. split; [done|]. rewrite length_append in Hlen. lia.
Qed.

Lemma linesFrom_pre cur pre post :
  without LF pre → linesFrom cur (pre +:+ post) = linesFrom (cur +:+ pre) post.
Proof.
  revert cur. induction pre as [|c pre IH]; intros cur Hno; simpl.
  - by rewrite append_nil_r.
  - destruct Hno as [Hc Hno]. apply Ascii.eqb_neq in Hc. rewrite Hc.
    rewrite IH by done. by rewrite append_assoc.
Qed.

Lemma Scan_nonempty (c : ascii) s :
  bufio.Scan (String c s) =
  match bufio.readLine bufio.MaxScanTokenSize (String c s) with
  | bufio.FullLine text rest => bufio.Token (bufio.dropCR text) rest
  | bufio.LastLine text => bufio.Token (bufio.dropCR text) ""
  | bufio.BufferFull => bufio.ErrTooLong
  end.
Proof. reflexivity. Qed.

Lemma hasBlankLine_loop_S n s :
  hasBlankLine_loop (S n) s =
  match bufio.Scan s with
  | bufio.Token text rest =>
      if String.eqb (strings.TrimSpace text) "" then true
      else hasBlankLine_loop n rest
  | _ => false
  end.
Proof. reflexivity. Qed.

Lemma hasBlankLine_loop_empty n : hasBlankLine_loop n "" = false.
Proof. by destruct n. Qed.

(** Every token takes input away, so the loop of [hasBlankLine] comes to its
    end within the bound it is given. *)
Lemma Scan_shorter s text rest :
  bufio.Scan s = bufio.Token text rest → String.length rest < String.length s.
Proof.
  destruct s as [|c s]; [done|]. rewrite Scan_nonempty.
  pose proof (readLine_spec bufio.MaxScanTokenSize (String c s)) as Hline.
  destruct (bufio.readLine _ _) as [text' rest'|text'|]; [| |done].
  - destruct Hline as (-> & _ & _). intros [= _ <-].
    rewrite length_append. simpl. lia.
  - intros [= _ <-]. simpl. lia.
Qed.

Lemma hasBlankLine_loop_bound n :
  ∀ m s, String.length s < n → String.length s < m →
         hasBlankLine_loop n s = hasBlankLine_loop m s.
Proof.
  induction n as [|n IH]; intros m s Hn Hm; [lia|].
  destruct m as [|m]; [lia|]. rewrite !hasBlankLine_loop_S.
  destruct (bufio.Scan s) as [text rest| |] eqn:Hscan; [|done..].
  destruct (String.eqb _ _); [done|].
  apply Scan_shorter in Hscan. apply IH; lia.
Qed.

(** As long as every line fits the buffer of the scanner, the loop finds a
    blank line exactly when there is one. *)
Lemma hasBlankLine_loop_spec n :
  ∀ s, String.length s < n →
       Forall short (linesOf s) →
       hasBlankLine_loop n s = true ↔ containsBlankLine s.
Proof.
  unfold containsBlankLine, linesOf.
  induction n as [|n IH]; intros s Hlen Hshort; [lia|].
  rewrite hasBlankLine_loop_S. destruct s as [|c s].
  { simpl. rewrite Exists_nil. by split. }
  rewrite Scan_nonempty.
  pose proof (readLine_spec bufio.MaxScanTokenSize (String c s)) as Hline.
  destruct (bufio.readLine _ _) as [text rest|text|].
  - destruct Hline as (Hs & Hno & _). rewrite Hs in *.
    rewrite linesFrom_line in * by done. simpl (_ +:+ text) in *.
    rewrite Exists_cons. apply Forall_cons in Hshort as [_ Hshort].
    destruct (String.eqb_spec (strings.TrimSpace (bufio.dropCR text)) "") as [Hb|Hb].
    + split; [intros _; left; by apply blank_dropCR|done].
    + rewrite IH; [|rewrite length_append in Hlen; simpl in Hlen; lia|done].
      split; [by right|]. intros [Hblank|]; [|done].
      by apply blank_dropCR in Hblank.
  - destruct Hline as (Hs & Hno & _). rewrite <-Hs in *.
    rewrite linesFrom_last by done. simpl (_ +:+ String c s).
    rewrite Exists_cons, Exists_nil.
    destruct (String.eqb_spec (strings.TrimSpace (bufio.dropCR (String c s))) "")
      as [Hb|Hb].
    + split; [intros _; left; by apply blank_dropCR|done].
    + rewrite hasBlankLine_loop_empty. split; [done|].
      intros [Hblank|[]]. by apply blank_dropCR in Hblank.
  - destruct Hline as (pre & post & Hs & Hpre & Hno). rewrite Hs in Hshort.
    rewrite linesFrom_pre in Hshort by done. simpl (_ +:+ pre) in Hshort.
    destruct (linesFrom_first pre post) as (line & lines & Heq & Hlong).
    { intros ->. pose proof MaxScanTokenSize_pos. simpl in Hpre. lia. }
    rewrite Heq in Hshort. apply Forall_cons in Hshort as [Hshort _].
    unfold short in Hshort. lia.
Qed.

(** [hasBlankLine] is right about every text whose lines fit the buffer of
    the scanner. *)
Lemma hasBlankLine_short_lines s :
  Forall short (linesOf s) → hasBlankLine s = true ↔ containsBlankLine s.
Proof. intros Hshort. apply hasBlankLine_loop_spec; [lia|done]. Qed.

End BlankLines.

(** ** The form of the expected output in a rewrite *)

#[local] Arguments hasBlankLine : simpl never.
#[local] Arguments terminated : simpl never.
#[local] Arguments longThenBlank : simpl never.

Section RewriteForm.

(** In rewrite mode, a directive whose handler returns, in a test that has
    not failed, writes the delimiter, a second delimiter, the output and two
    more delimiters if [hasBlankLine] says so, and the delimiter and the
    output otherwise. *)
Lemma runDirective_rewrites {H} (f : handler H) (w : world H)
    (s : string) (h' : H) (buffer : string) :
  f (data (wReader w)) (wHandler w) = (Returns false s, h') →
  failed (wT w) = false →
  rewrite (wReader w) = Some buffer →
  runDirective f w
  = (Normal tt,
     {| wReader :=
          if hasBlankLine (terminated s)
          then emit "----" (emit "----" (WriteString (terminated s)
                 (emit "----" (emit "----" (wReader w)))))
          else emit (terminated s) (emit "----" (wReader w));
        wT := wT w; wHandler := h'; wFile := wFile w |}).
Proof.
  intros Hf Hfailed Hbuffer.
  unfold runDirective, runDirective_actual, call, mbind, M_bind, gets, Failed.
  simpl. rewrite Hf. simpl. rewrite Hfailed. simpl. rewrite Hbuffer.
  by destruct (hasBlankLine (terminated s)).
Qed.

Lemma without_many n (c c' : ascii) : c ≠ c' → without c' (many n c).
Proof. intros Hc. induction n as [|n IH]; simpl; [done|by split]. Qed.

Lemma readLine_many room :
  ∀ n (c : ascii) rest,
    c ≠ LF → room ≤ n →
    bufio.readLine room (many n c +:+ rest) = bufio.BufferFull.
Proof.
  induction room as [|room IH]; intros n c rest Hc Hn; [done|].
  destruct n as [|n]; [lia|]. simpl.
  apply Ascii.eqb_neq in Hc as Hc'. rewrite Hc'. rewrite IH; [done..|lia].
Qed.

(** A first line that fills the buffer stops the scanner. *)
Lemma Scan_long n (c : ascii) rest :
  c ≠ LF → bufio.MaxScanTokenSize ≤ n →
  bufio.Scan (many n c +:+ rest) = bufio.ErrTooLong.
Proof.
  intros Hc Hn. destruct n as [|n].
  { pose proof MaxScanTokenSize_pos. lia. }
  change (many (S n) c +:+ rest) with (String c (many n c +:+ rest)).
  rewrite Scan_nonempty.
  change (String c (many n c +:+ rest)) with (many (S n) c +:+ rest).
  by rewrite readLine_many.
Qed.

Lemma hasBlankLine_long n (c : ascii) rest :
  c ≠ LF → bufio.MaxScanTokenSize ≤ n →
  hasBlankLine (many n c +:+ rest) = false.
Proof.
  intros Hc Hn. unfold hasBlankLine. by rewrite hasBlankLine_loop_S, Scan_long.
Qed.

Lemma containsBlankLine_behind_line line rest :
  without LF line → containsBlankLine rest →
  containsBlankLine (line +:+ String LF rest).
Proof.
  unfold containsBlankLine, linesOf. intros Hno Hrest.
  rewrite linesFrom_line by done. by apply Exists_cons_tl.
Qed.

(** C1, at the input where the code departs from it: an output whose first
    line has [MaxScanTokenSize] bytes, followed by an empty line.  The output
    contains a blank line, [hasBlankLine] does not find it, and the rewrite
    emits one delimiter and the output. *)
Theorem runDirective_long_line_simple_form :
  containsBlankLine longThenBlank
  ∧ hasBlankLine longThenBlank = false
  ∧ runDirective longLine (at_record (directive "f:1" "dump" [] "" "") [] (Some ""))
    = (Normal tt,
       {| wReader :=
            emit longThenBlank
              (emit "----"
                 (wReader (at_record (directive "f:1" "dump" [] "" "") []
                             (Some ""))));
          wT := freshT; wHandler := tt; wFile := None |}).
Proof.
  assert (hasBlankLine longThenBlank = false) as Hnot.
  { apply hasBlankLine_long; [discriminate|lia]. }
  assert (terminated longThenBlank = longThenBlank) as Hterm.
  { apply terminated_spec. right.
    exists (many bufio.MaxScanTokenSize "a" +:+ NL).
    unfold longThenBlank. by rewrite append_assoc. }
  split; [|split; [done|]].
  - apply containsBlankLine_behind_line; [by apply without_many|].
    apply Exists_cons_hd. reflexivity.
  - rewrite (runDirective_rewrites longLine _ longThenBlank tt "");
      [|reflexivity..].
    by rewrite Hterm, Hnot.
Qed.

End RewriteForm.

(** ** The scenario of the specification *)

(** [echo hello] with the input [hi] and the expected output [hi]: a handler
    that returns [hi] passes, one that returns [bye] fails with the expected
    and the found text, and under rewrite the expected block becomes
    [bye]. *)
Example echo_hello_passes :
  ∃ w, runTestInternal "f" echoHello (always "hi") false (initial tt None)
       = (Normal tt, w)
       ∧ wT w = freshT.
Proof. eexists. split; [compute; reflexivity|reflexivity]. Qed.

Example echo_hello_mismatch :
  ∃ w, runTestInternal "f" echoHello (always "bye") false (initial tt None)
       = (Stopped Goexit, w)
       ∧ output (wT w)
         = [Fatalf_ (NL +:+ "%s: %s" +:+ NL +:+ "expected:" +:+ NL +:+ "%s"
                     +:+ NL +:+ "found:" +:+ NL +:+ "%s")
              [OString "f:1"; OString "hi"; OString ("hi" +:+ NL);
               OString ("bye" +:+ NL)]].
Proof. eexists. split; [compute; reflexivity|reflexivity]. Qed.

Example echo_hello_rewritten :
  ∃ w, runTestInternal "f" echoHello (always "bye") true
         (initial tt (Some ("echo hello" +:+ NL +:+ "hi" +:+ NL +:+ "----"
                            +:+ NL +:+ "hi" +:+ NL)))
       = (Normal tt, w)
       ∧ wFile w = Some (emitted
                           ["echo hello" +:+ NL +:+ "hi" +:+ NL; "----";
                            "bye" +:+ NL]).
Proof. eexists. split; [compute; reflexivity|reflexivity]. Qed.

(** ** More on scanning arguments *)

Section Arguments.
Implicit Types (td : TestData) (arg : CmdArg) (c : caller) (dest : pointer).

Lemma HasArg_firstArg td key : HasArg td key = true ↔ is_Some (firstArg td key).
Proof.
  unfold HasArg, firstArg. induction (CmdArgs td) as [|a args IH]; simpl.
  - split; [done|]. by intros [? ?].
  - rewrite filter_cons. destruct (String.eqb_spec (Key a) key) as [Heq|Hne].
    + rewrite decide_True by done. split; [by eexists|done].
    + rewrite decide_False by done. done.
Qed.

(** [ScanArgs] against the first argument with the key. *)
Lemma ScanArgs_run td key dests c :
  ScanArgs td key dests c =
  match firstArg td key with
  | Some arg =>
      if decide (key = "")
      then (Stopped Goexit, fatally (Fatalf_ "missing argument: %s" [OString key]) c)
      else if decide (length dests = length (Vals arg))
      then ScanArgs_loop arg 0 dests c
      else (Stopped Goexit,
            fatally (Fatalf_ "%s: got %d destinations, but %d values"
                       [OString key; OInt (Z.of_nat (length dests));
                        OInt (Z.of_nat (length (Vals arg)))]) c)
  | None => (Stopped Goexit, fatally (Fatalf_ "missing argument: %s" [OString key]) c)
  end.
Proof.
  unfold ScanArgs. pose proof (ScanArgs_lookup_spec td key) as Hlookup.
  destruct (firstArg td key) as [arg|].
  - destruct Hlookup as [-> Harg]. rewrite bind_run, Harg.
    destruct (decide (key = "")) as [->|Hkey]; [done|].
    apply String.eqb_neq in Hkey. rewrite Hkey. simpl. rewrite bind_run.
    destruct (decide (length dests = length (Vals arg))) as [Hlen|Hlen].
    + apply Nat.eqb_eq in Hlen. by rewrite Hlen.
    + apply Nat.eqb_neq in Hlen. by rewrite Hlen.
  - by rewrite Hlookup, bind_run.
Qed.

(** One call of [Scan]: it assigns to the variable of the destination, or
    fails fatally with one of its messages and assigns nothing. *)
Lemma Scan_cases arg (i : Z) dest c :
  (∃ val l x, (0 ≤ i)%Z ∧ Vals arg !! Z.to_nat i = Some val
     ∧ scanned dest val = Some (l, x)
     ∧ Scan arg i dest c
       = (Normal tt, {| vars := <[l:=x]> (vars c); callerT := callerT c |}))
  ∨ (∃ e, scanEntry e ∧ Scan arg i dest c = (Stopped Goexit, fatally e c)).
Proof.
  unfold Scan. rewrite bind_run.
  destruct ((i <? 0)%Z || (Z.of_nat (length (Vals arg)) <=? i)%Z) eqn:Hguard.
  { right. eexists. split; [|reflexivity]. simpl. by left. }
  apply orb_false_iff in Hguard as [Hlo%Z.ltb_ge Hhi%Z.leb_gt].
  simpl. rewrite bind_run.
  destruct (Vals arg !! Z.to_nat i) as [val|] eqn:Hval; simpl.
  2: { apply lookup_ge_None in Hval. lia. }
  destruct dest as [l|l|l|l|ty]; simpl.
  - left. eexists val, l, _. by split_and!.
  - destruct (strconv.ParseInt val) as [n [e|]] eqn:Hp.
    + right. exists (Fatal_ [OError e]). by split.
    + left. eexists val, l, _. simpl. rewrite Hp. by split_and!.
  - destruct (strconv.ParseUint val) as [n [e|]] eqn:Hp.
    + right. exists (Fatal_ [OError e]). by split.
    + left. eexists val, l, _. simpl. rewrite Hp. by split_and!.
  - destruct (strconv.ParseBool val) as [n [e|]] eqn:Hp.
    + right. exists (Fatal_ [OError e]). by split.
    + left. eexists val, l, _. simpl. rewrite Hp. by split_and!.
  - right. eexists. split; [|reflexivity]. simpl. by right.
Qed.

(** The loop of [ScanArgs] returns or fails fatally with a message of
    [Scan]; it writes the variables of its destinations only. *)
Lemma ScanArgs_loop_cases arg dests :
  ∀ (i : Z) c,
    ∃ c', (ScanArgs_loop arg i dests c = (Normal tt, c') ∧ callerT c' = callerT c
           ∨ ∃ e, scanEntry e
                  ∧ ScanArgs_loop arg i dests c = (Stopped Goexit, fatally e c')
                  ∧ callerT c' = callerT c)
          ∧ ∀ l, (∀ dest, dest ∈ dests → target dest ≠ Some l) →
                 vars c' !! l = vars c !! l.
Proof.
  induction dests as [|dest dests IH]; intros i c.
  { exists c. split; [by left|done]. }
  simpl ScanArgs_loop. rewrite bind_run.
  destruct (Scan_cases arg i dest c) as [(val & l & x & _ & _ & Hsc & ->)|(e & He & ->)].
  - destruct (IH (i + 1)%Z {| vars := <[l:=x]> (vars c); callerT := callerT c |})
      as (c' & Hrun & Hframe).
    exists c'. split; [exact Hrun|].
    intros l' Hfree. rewrite Hframe.
    + simpl. apply lookup_insert_ne. intros ->.
      apply (Hfree dest); [apply list_elem_of_here|]. by eapply scanned_target.
    + intros dest' Hin. apply Hfree. by apply list_elem_of_further.
  - exists c. split; [|done]. right. by exists e.
Qed.

(** X1: [ScanArgs] reports a missing argument exactly when the key is empty
    or [HasArg] is false for it. *)
Theorem ScanArgs_missing_iff_HasArg td key dests c :
  ScanArgs td key dests c
  = (Stopped Goexit, fatally (Fatalf_ "missing argument: %s" [OString key]) c)
  ↔ key = "" ∨ HasArg td key = false.
Proof.
  rewrite ScanArgs_run. pose proof (HasArg_firstArg td key) as Hhas.
  destruct (firstArg td key) as [arg|].
  - replace (HasArg td key) with true by (symmetry; apply Hhas; by eexists).
    destruct (decide (key = "")) as [->|Hkey]; [by split; [left|]|].
    split; [|by intros [?|?]]. intros Hrun. exfalso.
    destruct (decide (length dests = length (Vals arg))) as [Hlen|Hlen].
    + destruct (ScanArgs_loop_cases arg dests 0 c)
        as (c' & [[Hloop _]|(e & He & Hloop & HT)] & _);
        rewrite Hloop in Hrun; [done|].
      injection Hrun as _ _ Hout. rewrite HT in Hout.
      apply app_inj_tail in Hout as [_ ->]. simpl in He. by destruct He.
    + injection Hrun as Hout. by apply app_inj_tail in Hout as [_ ?].
  - split; [intros _; right|done].
    destruct (HasArg td key); [|done]. by destruct Hhas as [[? ?] _].
Qed.


(** X3: [ScanArgs] writes the variables of its destinations only, whether
    it returns or fails. *)
Theorem ScanArgs_frame td key dests c (l : loc) :
  Forall (λ dest, target dest ≠ Some l) dests →
  vars (ScanArgs td key dests c).2 !! l = vars c !! l.
Proof.
  intros Hfree. rewrite Forall_forall in Hfree. rewrite ScanArgs_run. destruct (firstArg td key) as [arg|]; [|done].
  repeat case_match; try done.
  destruct (ScanArgs_loop_cases arg dests 0 c)
    as (c' & [[-> _]|(e' & _ & -> & _)] & Hframe); simpl; by apply Hframe.
Qed.

Lemma stored_lookup dests :
  ∀ vals (m : gmap loc value) (i : nat) dest,
    leading dests vals = length dests →
    dests !! i = Some dest →
    ∃ val l x, vals !! i = Some val ∧ scanned dest val = Some (l, x)
      ∧ ((∀ j dest', i < j → dests !! j = Some dest' → target dest' ≠ Some l) →
         stored dests vals m !! l = Some x).
Proof.
  induction dests as [|dest0 dests IH]; intros vals m i dest Hall Hi; [done|].
  destruct vals as [|val0 vals]; [done|]. simpl in Hall.
  destruct (decide (converts dest0 val0)) as [Hyes|]; [|done].
  apply converts_scanned in Hyes as [[l0 x0] Hsc]. simpl. rewrite Hsc.
  destruct i as [|i].
  - injection Hi as <-. exists val0, l0, x0. split; [done|]. split; [done|].
    intros Hlast. rewrite stored_elsewhere; [apply lookup_insert_eq|].
    intros k dest' _ Hk. apply (Hlast (S k)); [lia|done].
  - destruct (IH vals (<[l0:=x0]> m) i dest ltac:(lia) Hi)
      as (val & l & x & Hval & Hscan & Hlast).
    exists val, l, x. split; [done|]. split; [done|].
    intros Hfree. apply Hlast. intros j dest' Hj. apply (Hfree (S j)). lia.
Qed.

(** X4: when [ScanArgs] returns, the test is as it was, and every
    destination has received what its value converts to: the variable it
    points to holds that, unless a later destination points to the same
    variable. *)
Theorem ScanArgs_stores td key dests c c' :
  ScanArgs td key dests c = (Normal tt, c') →
  callerT c' = callerT c
  ∧ ∃ arg, firstArg td key = Some arg
      ∧ ∀ (i : nat) dest,
          dests !! i = Some dest →
          ∃ val l x, Vals arg !! i = Some val ∧ scanned dest val = Some (l, x)
            ∧ ((∀ j dest', i < j → dests !! j = Some dest' → target dest' ≠ Some l) →
               vars c' !! l = Some x).
Proof.
  rewrite ScanArgs_run. destruct (firstArg td key) as [arg|]; [|done].
  destruct (decide (key = "")); [done|].
  destruct (decide (length dests = length (Vals arg))) as [Hlen|]; [|done].
  pose proof (ScanArgs_loop_spec arg dests 0 (Vals arg) c eq_refl ltac:(lia)) as Hloop.
  change (Z.of_nat 0) with 0%Z in Hloop.
  destruct (decide (leading dests (Vals arg) = length dests)) as [Hall|Hsome].
  - rewrite Hloop. intros [= <-]. split; [done|]. exists arg. split; [done|].
    intros i dest Hi. simpl. by apply stored_lookup.
  - destruct Hloop as [e ->]. done.
Qed.

End Arguments.

Lemma ScanArgs_frame_witness :
  Forall (λ dest, target dest ≠ Some 0) [PInt 1; PInt 2; POther "float64"]
  ∧ vars (ScanArgs documented "arg3" [PInt 1; PInt 2; POther "float64"]
            someCaller).2 !! 0
    = vars someCaller !! 0.
Proof.
  split; [by repeat constructor|].
  apply (ScanArgs_frame documented "arg3" [PInt 1; PInt 2; POther "float64"]
           someCaller 0).
  by repeat constructor.
Defined.

Lemma ScanArgs_stores_witness :
  ScanArgs documented "arg1" [PInt 0] someCaller
  = (Normal tt, {| vars := <[0:=VInt 50]> (vars someCaller); callerT := freshT |})
  ∧ callerT {| vars := <[0:=VInt 50]> (vars someCaller); callerT := freshT |}
    = callerT someCaller
  ∧ ∃ arg, firstArg documented "arg1" = Some arg
      ∧ ∀ (i : nat) dest,
          [PInt 0] !! i = Some dest →
          ∃ val l x, Vals arg !! i = Some val ∧ scanned dest val = Some (l, x)
            ∧ ((∀ j dest', i < j → [PInt 0] !! j = Some dest' →
                           target dest' ≠ Some l) →
               vars {| vars := <[0:=VInt 50]> (vars someCaller);
                       callerT := freshT |} !! l = Some x).
Proof.
  split; [vm_compute; reflexivity|].
  apply (ScanArgs_stores documented "arg1" [PInt 0] someCaller).
  vm_compute. reflexivity.
Defined.

(** ** Numerals *)

Section Numerals.
Implicit Types (s : string) (n v : Z).

Lemma maxUint64_value : strconv.maxUint64 = 18446744073709551615%Z.
Proof. reflexivity. Qed.

Lemma digitsValue_ge s : ∀ n v, (0 ≤ n)%Z → digitsValue s n = Some v → (n ≤ v)%Z.
Proof.
  induction s as [|ch s IH]; intros n v Hn; simpl.
  - by intros [= ->].
  - destruct ((48 <=? _)%Z && _) eqn:Hd; [|done].
    apply andb_true_iff in Hd as [H1%Z.leb_le H2%Z.leb_le].
    intros Hv. apply IH in Hv; lia.
Qed.

Lemma parseDigits_S (s0 : string) (ch : ascii) s n :
  strconv.parseDigits s0 (String ch s) n =
  (let b := Z.of_nat (nat_of_ascii ch) in
   if (48 <=? b) && (b <=? 57) then
     if 1844674407370955162 <=? n
     then (strconv.maxUint64, Some (strconv.rangeError "ParseUint" s0))
     else
       let n10 := (n * 10) mod 2 ^ 64 in
       let n1 := (n10 + (b - 48)) mod 2 ^ 64 in
       if (n1 <? n10) || (strconv.maxUint64 <? n1)
       then (strconv.maxUint64, Some (strconv.rangeError "ParseUint" s0))
       else strconv.parseDigits s0 s n1
   else (0, Some (strconv.syntaxError "ParseUint" s0)))%Z.
Proof. reflexivity. Qed.

(** The digit loop of [ParseUint] against the number the digits denote. *)
Lemma parseDigits_spec (s0 : string) s :
  ∀ n, (0 ≤ n ≤ strconv.maxUint64)%Z →
    match digitsValue s n with
    | Some v =>
        if (v <=? strconv.maxUint64)%Z
        then strconv.parseDigits s0 s n = (v, None)
        else strconv.parseDigits s0 s n
             = (strconv.maxUint64, Some (strconv.rangeError "ParseUint" s0))
    | None =>
        ∃ m e, strconv.parseDigits s0 s n = (m, Some e)
               ∧ (strconv.Err e = strconv.ErrSyntax ∨ m = strconv.maxUint64)
    end.
Proof.
  induction s as [|ch s IH]; intros n Hn.
  { simpl. replace (n <=? strconv.maxUint64)%Z with true; [done|].
    symmetry. apply Z.leb_le. lia. }
  rewrite parseDigits_S. simpl digitsValue. cbv zeta.
  set (b := Z.of_nat (nat_of_ascii ch)).
  destruct ((48 <=? b)%Z && (b <=? 57)%Z) eqn:Hd.
  2: { exists 0%Z, (strconv.syntaxError "ParseUint" s0). split; [done|by left]. }
  apply andb_true_iff in Hd as [H1%Z.leb_le H2%Z.leb_le].
  rewrite maxUint64_value in *.
  destruct (1844674407370955162 <=? n)%Z eqn:Hcut.
  { apply Z.leb_le in Hcut.
    destruct (digitsValue s (n * 10 + (b - 48))) as [v|] eqn:Hv.
    - apply digitsValue_ge in Hv; [|lia].
      replace (v <=? 18446744073709551615)%Z with false; [done|].
      symmetry. apply Z.leb_gt. lia.
    - eexists _, _. split; [done|by right]. }
  apply Z.leb_gt in Hcut.
  rewrite (Z.mod_small (n * 10)) by lia.
  destruct (decide (n * 10 + (b - 48) ≤ 18446744073709551615)%Z) as [Hfit|Hover].
  - rewrite (Z.mod_small (n * 10 + (b - 48))) by lia.
    replace ((n * 10 + (b - 48) <? n * 10)%Z
             || (18446744073709551615 <? n * 10 + (b - 48))%Z) with false.
    + apply IH. lia.
    + symmetry. apply orb_false_iff. split; [apply Z.ltb_ge|apply Z.ltb_ge]; lia.
  - replace ((n * 10 + (b - 48)) mod 2 ^ 64)%Z
      with (n * 10 + (b - 48) - 2 ^ 64)%Z.
    2: { apply Z.mod_unique with 1%Z; lia. }
    replace ((n * 10 + (b - 48) - 2 ^ 64 <? n * 10)%Z) with true
      by (symmetry; apply Z.ltb_lt; lia).
    simpl orb.
    destruct (digitsValue s (n * 10 + (b - 48))) as [v|] eqn:Hv.
    + apply digitsValue_ge in Hv; [|lia].
      replace (v <=? 18446744073709551615)%Z with false; [done|].
      symmetry. apply Z.leb_gt. lia.
    + eexists _, _. split; [done|by right].
Qed.

Lemma ParseUint_decimal s :
  match decimal s with
  | Some v =>
      if (v <=? strconv.maxUint64)%Z
      then strconv.ParseUint s = (v, None)
      else strconv.ParseUint s
           = (strconv.maxUint64, Some (strconv.rangeError "ParseUint" s))
  | None =>
      ∃ m e, strconv.ParseUint s = (m, Some e)
             ∧ (strconv.Err e = strconv.ErrSyntax ∨ m = strconv.maxUint64)
  end.
Proof.
  destruct s as [|ch s].
  - simpl. eexists _, _. split; [done|by left].
  - apply (parseDigits_spec (String ch s) (String ch s) 0). rewrite maxUint64_value. lia.
Qed.

Lemma decimal_nonneg s v : decimal s = Some v → (0 ≤ v)%Z.
Proof.
  destruct s as [|ch s]; [done|]. unfold decimal. by apply digitsValue_ge.
Qed.

(** What [ParseInt] makes of the digits behind the sign. *)
Lemma ParseInt_digits (s0 s : string) (neg : bool) :
  let result :=
    match strconv.ParseUint s with
    | (_, Some {| strconv.Err := strconv.ErrSyntax |}) =>
        (0%Z, Some (strconv.syntaxError "ParseInt" s0))
    | (un, _) =>
        if negb neg && (2 ^ 63 <=? un)%Z
        then ((2 ^ 63 - 1)%Z, Some (strconv.rangeError "ParseInt" s0))
        else if neg && (2 ^ 63 <? un)%Z
        then ((- 2 ^ 63)%Z, Some (strconv.rangeError "ParseInt" s0))
        else ((if neg then - un else un)%Z, None)
    end in
  match decimal s with
  | Some u =>
      let v := (if neg then - u else u)%Z in
      if (- 2 ^ 63 <=? v)%Z && (v <? 2 ^ 63)%Z
      then result = (v, None)
      else ∃ m e, result = (m, Some e)
  | None => ∃ m e, result = (m, Some e)
  end.
Proof.
  intros result. subst result. pose proof (ParseUint_decimal s) as Hu.
  pose proof (decimal_nonneg s) as Hpos.
  destruct (decimal s) as [u|].
  - specialize (Hpos u eq_refl). rewrite maxUint64_value in Hu. cbv zeta.
    destruct (u <=? 18446744073709551615)%Z eqn:Hmax.
    + rewrite Hu. apply Z.leb_le in Hmax.
      destruct neg; simpl negb; simpl andb.
      * destruct (2 ^ 63 <? u)%Z eqn:Hc.
        -- apply Z.ltb_lt in Hc.
           replace (- 2 ^ 63 <=? - u)%Z with false
             by (symmetry; apply Z.leb_gt; lia).
           simpl. by eexists _, _.
        -- apply Z.ltb_ge in Hc.
           replace (- 2 ^ 63 <=? - u)%Z with true by (symmetry; apply Z.leb_le; lia).
           replace (- u <? 2 ^ 63)%Z with true by (symmetry; apply Z.ltb_lt; lia).
           done.
      * destruct (2 ^ 63 <=? u)%Z eqn:Hc.
        -- apply Z.leb_le in Hc.
           replace (u <? 2 ^ 63)%Z with false by (symmetry; apply Z.ltb_ge; lia).
           rewrite andb_false_r. by eexists _, _.
        -- apply Z.leb_gt in Hc.
           replace (- 2 ^ 63 <=? u)%Z with true by (symmetry; apply Z.leb_le; lia).
           replace (u <? 2 ^ 63)%Z with true by (symmetry; apply Z.ltb_lt; lia).
           done.
    + rewrite Hu. apply Z.leb_gt in Hmax. simpl.
      replace ((- 2 ^ 63 <=? (if neg then - u else u))%Z
               && ((if neg then - u else u) <? 2 ^ 63)%Z) with false.
      * destruct neg; by eexists _, _.
      * symmetry. destruct neg.
        -- apply andb_false_iff. left. apply Z.leb_gt. lia.
        -- apply andb_false_iff. right. apply Z.ltb_ge. lia.
  - destruct Hu as (m & [fn num [|]] & -> & Herr).
    + by eexists _, _.
    + destruct Herr as [?| ->]; [done|]. rewrite maxUint64_value.
      destruct neg; by eexists _, _.
Qed.

Lemma ParseInt_signed s :
  match signedDecimal s with
  | Some v =>
      if (- 2 ^ 63 <=? v)%Z && (v <? 2 ^ 63)%Z
      then strconv.ParseInt s = (v, None)
      else ∃ m e, strconv.ParseInt s = (m, Some e)
  | None => ∃ m e, strconv.ParseInt s = (m, Some e)
  end.
Proof.
  destruct s as [|c0 rest]; [by eexists _, _|].
  unfold signedDecimal, strconv.ParseInt.
  destruct (Ascii.eqb_spec c0 "+") as [->|Hplus].
  - change (Ascii.eqb "+" "-") with false. simpl orb. cbv iota.
    apply (ParseInt_digits (String "+" rest) rest false).
  - destruct (Ascii.eqb_spec c0 "-") as [->|Hminus].
    + simpl orb. cbv iota.
      pose proof (ParseInt_digits (String "-" rest) rest true) as Hd.
      cbv zeta in Hd. destruct (decimal rest) as [u|]; exact Hd.
    + simpl orb. cbv iota.
      apply (ParseInt_digits (String c0 rest) (String c0 rest) false).
Qed.

End Numerals.

(** X5: [Scan] into a [*uint64] returns exactly when the value is a decimal
    numeral, of one digit at least and without a sign, whose number is at most
    2^64 - 1; the variable then holds that number. *)
Theorem Scan_uint64_decimal (arg : CmdArg) (k : nat) (val : string) (l : loc)
    (c c' : caller) :
  Vals arg !! k = Some val →
  Scan arg (Z.of_nat k) (PUint64 l) c = (Normal tt, c')
  ↔ ∃ n, decimal val = Some n ∧ (n ≤ 2 ^ 64 - 1)%Z
         ∧ c' = {| vars := <[l:=VUint64 n]> (vars c); callerT := callerT c |}.
Proof.
  intros Hval. pose proof (Scan_in_range arg k (PUint64 l) val c Hval) as Hscan.
  simpl in Hscan. pose proof (ParseUint_decimal val) as Hu.
  rewrite maxUint64_value in Hu.
  destruct (decimal val) as [u|].
  - destruct (u <=? 18446744073709551615)%Z eqn:Hmax.
    + rewrite Hu in Hscan. rewrite Hscan. apply Z.leb_le in Hmax. split.
      * intros [= <-]. exists u. split; [done|]. split; [lia|done].
      * by intros (n & [= <-] & _ & ->).
    + rewrite Hu in Hscan. destruct Hscan as [e ->]. apply Z.leb_gt in Hmax.
      split; [done|]. intros (n & [= <-] & ? & _). lia.
  - destruct Hu as (m & e & Hu & _). rewrite Hu in Hscan.
    destruct Hscan as [e' ->]. split; [done|]. by intros (n & [=] & _).
Qed.

Lemma Scan_uint64_decimal_witness :
  Vals {| Key := "arg1"; Vals := ["50"] |} !! 0 = Some "50"
  ∧ (Scan {| Key := "arg1"; Vals := ["50"] |} (Z.of_nat 0) (PUint64 3) someCaller
     = (Normal tt, {| vars := <[3:=VUint64 50]> (vars someCaller);
                      callerT := callerT someCaller |})
     ↔ ∃ n, decimal "50" = Some n ∧ (n ≤ 2 ^ 64 - 1)%Z
            ∧ {| vars := <[3:=VUint64 50]> (vars someCaller);
                 callerT := callerT someCaller |}
              = {| vars := <[3:=VUint64 n]> (vars someCaller);
                   callerT := callerT someCaller |}).
Proof.
  split; [reflexivity|].
  apply (Scan_uint64_decimal {| Key := "arg1"; Vals := ["50"] |} 0 "50" 3).
  reflexivity.
Defined.

(** X6: [Scan] into an [*int] returns exactly when the value is a decimal
    numeral with an optional sign whose number lies between -2^63 and
    2^63 - 1; the variable then holds that number. *)
Theorem Scan_int_decimal (arg : CmdArg) (k : nat) (val : string) (l : loc)
    (c c' : caller) :
  Vals arg !! k = Some val →
  Scan arg (Z.of_nat k) (PInt l) c = (Normal tt, c')
  ↔ ∃ n, signedDecimal val = Some n ∧ (- 2 ^ 63 ≤ n ≤ 2 ^ 63 - 1)%Z
         ∧ c' = {| vars := <[l:=VInt n]> (vars c); callerT := callerT c |}.
Proof.
  intros Hval. pose proof (Scan_in_range arg k (PInt l) val c Hval) as Hscan.
  simpl in Hscan. pose proof (ParseInt_signed val) as Hv.
  destruct (signedDecimal val) as [v|].
  - destruct ((- 2 ^ 63 <=? v)%Z && (v <? 2 ^ 63)%Z) eqn:Hfit.
    + rewrite Hv in Hscan. rewrite Hscan.
      apply andb_true_iff in Hfit as [Hlo%Z.leb_le Hhi%Z.ltb_lt]. split.
      * intros [= <-]. exists v. split; [done|]. split; [lia|done].
      * by intros (n & [= <-] & _ & ->).
    + destruct Hv as (m & e & Hv). rewrite Hv in Hscan. destruct Hscan as [e' ->].
      split; [done|]. intros (n & [= <-] & [Hlo Hhi] & _).
      apply andb_false_iff in Hfit as [Hfit%Z.leb_gt|Hfit%Z.ltb_ge]; lia.
  - destruct Hv as (m & e & Hv). rewrite Hv in Hscan.
    destruct Hscan as [e' ->]. split; [done|]. by intros (n & [=] & _).
Qed.

Lemma Scan_int_decimal_witness :
  Vals {| Key := "arg1"; Vals := ["-50"] |} !! 0 = Some "-50"
  ∧ (Scan {| Key := "arg1"; Vals := ["-50"] |} (Z.of_nat 0) (PInt 3) someCaller
     = (Normal tt, {| vars := <[3:=VInt (-50)]> (vars someCaller);
                      callerT := callerT someCaller |})
     ↔ ∃ n, signedDecimal "-50" = Some n ∧ (- 2 ^ 63 ≤ n ≤ 2 ^ 63 - 1)%Z
            ∧ {| vars := <[3:=VInt (-50)]> (vars someCaller);
                 callerT := callerT someCaller |}
              = {| vars := <[3:=VInt n]> (vars someCaller);
                   callerT := callerT someCaller |}).
Proof.
  split; [reflexivity|].
  apply (Scan_int_decimal {| Key := "arg1"; Vals := ["-50"] |} 0 "-50" 3).
  reflexivity.
Defined.

(** ** More on blank lines *)

Lemma hasBlankLine_loop_sound (n : nat) :
  ∀ s, hasBlankLine_loop n s = true → containsBlankLine s.
Proof.
  unfold containsBlankLine, linesOf.
  induction n as [|n IH]; intros s; [done|].
  rewrite hasBlankLine_loop_S. destruct s as [|c s]; [done|].
  rewrite Scan_nonempty.
  pose proof (readLine_spec bufio.MaxScanTokenSize (String c s)) as Hline.
  destruct (bufio.readLine _ _) as [text rest|text|]; [| |done].
  - destruct Hline as (Hs & Hno & _). rewrite Hs.
    rewrite linesFrom_line by done. simpl (_ +:+ text).
    rewrite Exists_cons.
    destruct (String.eqb_spec (strings.TrimSpace (bufio.dropCR text)) "") as [Hb|Hb].
    + intros _. left. by apply blank_dropCR.
    + intros Hrest. right. by apply IH.
  - destruct Hline as (Hs & Hno & _). rewrite <-Hs in *.
    rewrite linesFrom_last by done. simpl (_ +:+ String c s). rewrite Exists_cons.
    destruct (String.eqb_spec (strings.TrimSpace (bufio.dropCR (String c s))) "")
      as [Hb|Hb].
    + intros _. left. by apply blank_dropCR.
    + by rewrite hasBlankLine_loop_empty.
Qed.

(** X7: [hasBlankLine] never reports a blank line that is not there, and it
    finds every blank line of a text whose lines fit the buffer of the
    scanner. *)
Theorem hasBlankLine_exact (s : string) :
  (hasBlankLine s = true → containsBlankLine s)
  ∧ (Forall short (linesOf s) → containsBlankLine s → hasBlankLine s = true).
Proof.
  split; [apply hasBlankLine_loop_sound|].
  intros Hshort Hblank. by apply hasBlankLine_short_lines.
Qed.

(** ** More on directives *)

Section Directive.
Context {H : Type} (f : handler H).
Implicit Types (w : world H).

(** X8: without a rewrite, a directive whose handler returns passes exactly
    when the expected text of the record is the output with its line
    terminator; otherwise the test fails fatally, and the message gives the
    position, the input, the expected text and the text found.  The reader is
    left as it is. *)
Theorem runDirective_compares w (s : string) (h' : H) :
  rewrite (wReader w) = None →
  failed (wT w) = false →
  f (data (wReader w)) (wHandler w) = (Returns false s, h') →
  runDirective f w =
  let d := data (wReader w) in
  let w' := {| wReader := wReader w; wT := wT w; wHandler := h';
               wFile := wFile w |} in
  if decide (Expected d = terminated s) then (Normal tt, w')
  else (Stopped Goexit,
        fatally (Fatalf_ (NL +:+ "%s: %s" +:+ NL +:+ "expected:" +:+ NL +:+ "%s"
                          +:+ NL +:+ "found:" +:+ NL +:+ "%s")
                   [OString (Pos d); OString (Input d); OString (Expected d);
                    OString (terminated s)]) w').
Proof.
  destruct w as [[d p rw] [fl sk out] h file]. simpl. intros -> -> Hf.
  unfold runDirective, runDirective_actual, call.
  unfold mbind, M_bind, mret, M_ret, gets, Failed. simpl. rewrite Hf. simpl.
  destruct (decide (Expected d = terminated s)) as [Heq|Hne].
  - apply String.eqb_eq in Heq. by rewrite Heq.
  - apply String.eqb_neq in Hne. by rewrite Hne.
Qed.

(** X9: when the handler has marked the test as failed, or the test had
    failed before, the directive ends the test at once: the output is neither
    compared nor written to the rewrite buffer, and nothing is logged. *)
Theorem runDirective_failed_stops w (res : handlerResult) (h' : H) :
  f (data (wReader w)) (wHandler w) = (res, h') →
  match res with
  | Returns errored _ => errored = true ∨ failed (wT w) = true
  | CallsFatal => True
  | _ => False
  end →
  runDirective f w
  = (Stopped Goexit,
     {| wReader := wReader w;
        wT := {| failed := true; skipped := skipped (wT w);
                 output := output (wT w) |};
        wHandler := h'; wFile := wFile w |}).
Proof.
  destruct w as [[d p rw] [fl sk out] h file]. simpl. intros Hf Hres.
  unfold runDirective, runDirective_actual, call.
  unfold mbind, M_bind, mret, M_ret, gets, Failed. simpl. rewrite Hf.
  destruct res as [errored s| |errored|]; try done.
  destruct Hres as [->| ->]; [done|]. by destruct errored.
Qed.

End Directive.

Lemma runDirective_compares_witness :
  rewrite (wReader (at_record (directive "f:1" "echo" [] "hi" ("hi" +:+ NL)) [] None))
  = None
  ∧ failed (wT (at_record (directive "f:1" "echo" [] "hi" ("hi" +:+ NL)) [] None))
    = false
  ∧ echo (data (wReader (at_record (directive "f:1" "echo" [] "hi" ("hi" +:+ NL))
                           [] None)))
      (wHandler (at_record (directive "f:1" "echo" [] "hi" ("hi" +:+ NL)) [] None))
    = (Returns false "hi", tt)
  ∧ runDirective echo (at_record (directive "f:1" "echo" [] "hi" ("hi" +:+ NL)) [] None)
    = (Normal tt, at_record (directive "f:1" "echo" [] "hi" ("hi" +:+ NL)) [] None).
Proof.
  split; [reflexivity|]. split; [reflexivity|]. split; [reflexivity|].
  apply (runDirective_compares echo
           (at_record (directive "f:1" "echo" [] "hi" ("hi" +:+ NL)) [] None)
           "hi" tt); reflexivity.
Defined.

Lemma runDirective_failed_stops_witness :
  always "hi" (data (wReader (running failedT []))) (wHandler (running failedT []))
  = (Returns false "hi", tt)
  ∧ (false = true ∨ failed (wT (running failedT [])) = true)
  ∧ runDirective (always "hi") (running failedT [])
    = (Stopped Goexit,
       {| wReader := wReader (running failedT []);
          wT := {| failed := true; skipped := skipped (wT (running failedT []));
                   output := output (wT (running failedT [])) |};
          wHandler := tt; wFile := wFile (running failedT []) |}).
Proof.
  split; [reflexivity|]. split; [right; reflexivity|].
  apply (runDirective_failed_stops (always "hi") (running failedT [])
           (Returns false "hi") tt); [reflexivity|right; reflexivity].
Defined.

(** ** How a run ends *)

Section Orderly.
Context {H : Type} (f : handler H).
Hypothesis no_panic : ∀ d h, (f d h).1 ≠ Panics.
Implicit Types (w : world H) (name : string) (fuel : nat).










End Orderly.

(** ** The file and the rewrite buffer during a run *)

Section Steady.
Context {H : Type} (f : handler H).
Implicit Types (w : world H) (name : string) (fuel : nat).

Lemma extends_refl w : extends w w.
Proof.
  split; [done|]. destruct (rewrite (wReader w)) as [b|]; [|done].
  exists "". by rewrite append_nil_r.
Qed.

Lemma extends_trans w1 w2 w3 : extends w1 w2 → extends w2 w3 → extends w1 w3.
Proof.
  intros [Hf1 Hb1] [Hf2 Hb2]. split; [congruence|].
  destruct (rewrite (wReader w1)) as [b|].
  - destruct Hb1 as [m1 Hb1]. rewrite Hb1 in Hb2. destruct Hb2 as [m2 Hb2].
    exists (m1 +:+ m2). by rewrite Hb2, append_assoc.
  - by rewrite Hb1 in Hb2.
Qed.

Lemma extends_same w w' :
  rewrite (wReader w') = rewrite (wReader w) → wFile w' = wFile w → extends w w'.
Proof.
  intros Hr Hf. split; [done|]. rewrite Hr.
  destruct (rewrite (wReader w)) as [b|]; [|done].
  exists "". by rewrite append_nil_r.
Qed.

Lemma steady_bind {A B} (m : M (world H) A) (k : A → M (world H) B) :
  steady m → (∀ a, steady (k a)) → steady (m ≫= k).
Proof.
  intros Hm Hk w. rewrite bind_run. specialize (Hm w).
  destruct (m w) as [[a|why] w1]; simpl in *; [|done].
  eapply extends_trans; [done|apply Hk].
Qed.

Lemma steady_same {A} (m : M (world H) A) :
  (∀ w, rewrite (wReader (m w).2) = rewrite (wReader w) ∧ wFile (m w).2 = wFile w) →
  steady m.
Proof. intros Hm w. destruct (Hm w). by apply extends_same. Qed.

Lemma steady_WriteString (s : string) : steady (@onReader H (WriteString s)).
Proof.
  intros w. split; [done|]. simpl.
  destruct (rewrite (wReader w)) as [b|]; simpl; [by exists s|done].
Qed.

Lemma steady_Next : steady (@Next H).
Proof.
  intros w. unfold Next, advance.
  destruct (records (pending (wReader w))) as [|[text d] rest]; simpl;
    (split; [done|]); simpl;
    destruct (rewrite (wReader w)) as [b|]; simpl; try done; by eexists.
Qed.

Lemma steady_call d : steady (call f d).
Proof.
  apply steady_same. intros w. unfold call.
  destruct (f d (wHandler w)) as [[[] s| |[]|] h']; done.
Qed.

Lemma steady_Fatalf {A} d (format : string) (args : list operand) :
  steady (@TestData_Fatalf (world H) _ A d format args).
Proof. by apply steady_same. Qed.

Lemma steady_check : steady (failed ← @Failed (world H) _;
                             if failed : bool then FailNow else mret tt).
Proof. apply steady_same. intros w. rewrite bind_run. simpl. by destruct (failed _). Qed.

Lemma steady_runDirective : steady (runDirective f).
Proof.
  unfold runDirective, runDirective_actual.
  apply steady_bind.
  { apply steady_bind; [by apply steady_same|]. intros d.
    apply steady_bind; [apply steady_call|]. intros s. by apply steady_same. }
  intros actual. apply steady_bind; [by apply steady_same|]. intros fl.
  apply steady_bind; [apply steady_same; intros w; by destruct fl|]. intros [].
  apply steady_bind; [by apply steady_same|]. intros rw.
  apply steady_bind; [by apply steady_same|]. intros d.
  destruct rw as [b|].
  - apply steady_bind; [apply steady_WriteString|]. intros [].
    destruct (hasBlankLine actual); [|apply steady_WriteString].
    repeat (apply steady_bind; [apply steady_WriteString|]; intros []).
    apply steady_WriteString.
  - destruct (negb _); by apply steady_same.
Qed.

Lemma steady_isSubTestStart (pre : string) : steady (@isSubTestStart H pre).
Proof.
  apply steady_same. intros w. rewrite isSubTestStart_run. simpl.
  repeat case_match; done.
Qed.

Lemma steady_isSubTestEnd : steady (@isSubTestEnd H).
Proof.
  apply steady_same. intros w. rewrite isSubTestEnd_run. simpl.
  repeat case_match; done.
Qed.

Lemma steady_fuel fuel :
  (∀ (pre : string), steady (runDirectiveOrSubTest fuel pre f))
  ∧ (∀ name, steady (runSubTest fuel name f))
  ∧ (∀ name, steady (runSubTest_loop fuel name f)).
Proof.
  induction fuel as [|fuel (IHd & IHs & IHl)].
  { repeat split; intros; by apply steady_same. }
  split; [|split].
  - intros pre. rewrite runDirectiveOrSubTest_S.
    apply steady_bind; [apply steady_isSubTestStart|]. intros [sub ok].
    apply steady_bind; [|intros; apply steady_check].
    destruct ok; [apply IHs|apply steady_runDirective].
  - intros name w. rewrite runSubTest_S.
    pose proof (IHl name (subtestOf w)) as Hl.
    destruct (runSubTest_loop fuel name f (subtestOf w)) as [[b|[| |]] w1];
      simpl in *; repeat (case_match; simpl; try done); exact Hl.
  - intros name. rewrite runSubTest_loop_S.
    apply steady_bind; [apply steady_Next|]. intros [|]; [|by apply steady_same].
    apply steady_bind; [apply steady_isSubTestEnd|]. intros [|];
      [by apply steady_same|].
    apply steady_bind; [apply IHd|]. intros []. apply IHl.
Qed.


(** X10: whatever a directive or a subtest does, and however it ends, the
    file is not written, and what the rewrite buffer held stays at its
    beginning; without a rewrite there is no buffer. *)
Theorem runDirectiveOrSubTest_appends fuel (pre : string) w :
  extends w (runDirectiveOrSubTest fuel pre f w).2.
Proof. apply (steady_fuel fuel). Qed.

End Steady.

(** ** The end of a run *)

Section Run.
Context {H : Type} (f : handler H).
Implicit Types (w : world H).

(** [runTestInternal] up to the end of its loop. *)
Lemma runTestInternal_run (sourceName : string) (input : stream) (record : bool) w :
  runTestInternal sourceName input f record w =
  let w0 := {| wReader := newTestDataReader sourceName input record; wT := wT w;
               wHandler := wHandler w; wFile := wFile w |} in
  match runTestInternal_loop (fuelFor input) f w0 with
  | (Normal _, w1) =>
      match rewrite (wReader w1), wFile w1 with
      | Some bytes, Some content =>
          (Normal tt,
           {| wReader := wReader w1; wT := wT w1; wHandler := wHandler w1;
              wFile := Some (Truncate (String.length (trimmed bytes))
                               (WriteAt (trimmed bytes) content)) |})
      | Some bytes, None =>
          (Normal tt,
           setT {| failed := failed (wT w1); skipped := skipped (wT w1);
                   output := output (wT w1)
                             ++ [Logf ("input is not a file; rewritten output is:"
                                       +:+ NL +:+ "%s") [OString (trimmed bytes)]] |}
             w1)
      | None, _ => (Normal tt, w1)
      end
  | (Stopped why, w1) => (Stopped why, w1)
  end.
Proof.
  unfold runTestInternal. rewrite bind_run. simpl. rewrite bind_run.
  match goal with
  | |- context [runTestInternal_loop _ f ?w0] =>
      destruct (runTestInternal_loop (fuelFor input) f w0) as [[[]|why] w1]
  end; [|done].
  destruct w1 as [[d1 p1 [bytes|]] t1 h1 [content|]]; reflexivity.
Qed.



End Run.


(** ** Malformed subtest directives *)

(** X13: a [subtest] directive that [runDirectiveOrSubTest] meets is checked
    before anything is run: with no argument, or with more than one, it is a
    fatal syntax error, and with the one argument [end] it is a fatal error,
    as no subtest is open at this point.  The handler is not called. *)
Theorem subtest_syntax_checked {H} (f : handler H) (fuel : nat) (pre : string)
    (w : world H) :
  Cmd (data (wReader w)) = "subtest" →
  match CmdArgs (data (wReader w)) with
  | [arg] =>
      Key arg = "end" →
      runDirectiveOrSubTest (S fuel) pre f w
      = (Stopped Goexit,
         fatally (positioned (Pos (data (wReader w)))
                    "subtest end without corresponding start" []) w)
  | _ =>
      runDirectiveOrSubTest (S fuel) pre f w
      = (Stopped Goexit,
         fatally (positioned (Pos (data (wReader w)))
                    "invalid syntax for subtest" []) w)
  end.
Proof.
  intros Hcmd%String.eqb_eq. rewrite runDirectiveOrSubTest_S, bind_run.
  rewrite isSubTestStart_run. cbv zeta. rewrite Hcmd. simpl.
  destruct (CmdArgs (data (wReader w))) as [|arg [|arg' args]]; try done.
  intros Hkey%String.eqb_eq. by rewrite Hkey.
Qed.

Lemma subtest_syntax_checked_witness :
  Cmd (data (wReader (at_record (directive "f:1" "subtest" [] "" "") [] None)))
  = "subtest"
  ∧ runDirectiveOrSubTest 1 "" echo
      (at_record (directive "f:1" "subtest" [] "" "") [] None)
    = (Stopped Goexit,
       fatally (positioned "f:1" "invalid syntax for subtest" [])
         (at_record (directive "f:1" "subtest" [] "" "") [] None)).
Proof.
  split; [reflexivity|].
  apply (subtest_syntax_checked echo 0 ""
           (at_record (directive "f:1" "subtest" [] "" "") [] None)).
  reflexivity.
Defined.

(** ** Well-formed files *)

Section Passes.
Context {H : Type} (f : handler H) (rewriting : bool).
Implicit Types (w : world H) (name pre out : string) (fuel : nat).

Lemma passed_trans w w1 w2 out1 out2 (h1 h2 : H) tail1 tail2 :
  passed w out1 h1 tail1 w1 → passed w1 out2 h2 tail2 w2 →
  passed w (out1 +:+ out2) h2 tail2 w2.
Proof.
  intros (_ & Ht1 & Hb1 & HT1 & _ & Hf1) (Hr2 & Ht2 & Hb2 & HT2 & Hh2 & Hf2).
  unfold passed. split_and!; try congruence.
  rewrite Hb2, Hb1. destruct (rewrite (wReader w)) as [b|]; simpl; [|done].
  by rewrite append_assoc.
Qed.

Lemma Next_passed w text d rest :
  records (pending (wReader w)) = (text, d) :: rest →
  ∃ w0, Next w = (Normal true, w0) ∧ data (wReader w0) = d
        ∧ passed w text (wHandler w) rest w0.
Proof.
  intros Hrec. unfold Next, advance. rewrite Hrec. eexists. split; [done|].
  split; [done|]. unfold passed. simpl. by split_and!.
Qed.

Lemma Next_exhausted w :
  records (pending (wReader w)) = [] →
  ∃ w0, Next w = (Normal false, w0) ∧ wT w0 = wT w ∧ wHandler w0 = wHandler w
        ∧ wFile w0 = wFile w
        ∧ rewrite (wReader w0)
          = (λ b, b +:+ trailing (pending (wReader w))) <$> rewrite (wReader w).
Proof.
  intros Hrec. unfold Next, advance. rewrite Hrec. eexists. split; [done|].
  simpl. by split_and!.
Qed.

(** A directive that passes. *)
Lemma runDirectiveOrSubTest_directive fuel pre w0 (s : string) (h1 : H) :
  Cmd (data (wReader w0)) ≠ "subtest" →
  f (data (wReader w0)) (wHandler w0) = (Returns false s, h1) →
  failed (wT w0) = false →
  (rewrite (wReader w0) = None → Expected (data (wReader w0)) = terminated s) →
  ∃ w1, runDirectiveOrSubTest (S fuel) pre f w0 = (Normal tt, w1)
        ∧ passed w0 (expectedBlock (terminated s)) h1
            (records (pending (wReader w0))) w1.
Proof.
  intros Hcmd Hf Hfl Hexp.
  rewrite runDirectiveOrSubTest_S, bind_run, isSubTestStart_other by done.
  simpl. rewrite bind_run.
  destruct w0 as [[d p rw] [fl sk out] h file]. simpl in *. subst fl.
  unfold runDirective, runDirective_actual, call.
  unfold mbind, M_bind, mret, M_ret, gets, Failed, onReader, modify. simpl.
  rewrite Hf. simpl. unfold passed, expectedBlock. destruct rw as [b|]; simpl.
  - destruct (hasBlankLine (terminated s)); simpl; eexists; (split; [done|]);
      simpl; split_and!; try done; by rewrite !append_assoc.
  - rewrite Hexp by done. rewrite String.eqb_refl. simpl. eexists.
    split; [done|]. simpl. by split_and!.
Qed.

(** A subtest that passes, given that the loop passes its body. *)
Lemma runDirectiveOrSubTest_subtest pre name d body endText endD more
    (h : H) out1 (h1 : H) :
  subtestStart d name →
  beginsWith name pre →
  loopPasses rewriting (λ fuel, runSubTest_loop fuel name f) body h out1 h1 →
  subtestEnd endD more →
  (more = [] ∨ ∃ arg, more = [arg] ∧ Key arg = name) →
  ∀ fuel w0 tail,
    data (wReader w0) = d →
    records (pending (wReader w0)) = body ++ (endText, endD) :: tail →
    wHandler w0 = h →
    failed (wT w0) = false →
    (rewrite (wReader w0) = None → rewriting = false) →
    3 * left w0 + 3 ≤ fuel →
    ∃ w1, runDirectiveOrSubTest fuel pre f w0 = (Normal tt, w1)
          ∧ passed w0 (out1 +:+ endText) h1 tail w1.
Proof.
  intros (Hcmd & (arg & Hargs & Hkey) & Hne) Hpre Hbody (Hcmd' & arg' & Hargs' & Hkey')
    Hmore fuel w0 tail Hd Hrec Hh Hfl Hmode Hfuel.
  destruct fuel as [|[|[|fuel]]]; try lia.
  assert (isSubTestStart pre w0 = (Normal (name, true), w0)) as Hstart.
  { rewrite isSubTestStart_run. cbv zeta. rewrite Hd.
    apply String.eqb_eq in Hcmd as Hcmdb. rewrite Hcmdb, Hargs. simpl.
    rewrite Hkey. apply String.eqb_neq in Hne as Hneb. rewrite Hneb.
    apply HasPrefix_iff in Hpre as Hpreb. by rewrite Hpreb. }
  rewrite runDirectiveOrSubTest_S, bind_run, Hstart. cbv beta iota zeta.
  rewrite bind_run, runSubTest_S.
  destruct (Hbody (S fuel) (subtestOf w0) ((endText, endD) :: tail))
    as (fuel' & w1 & -> & Hfuel' & Hr1 & Ht1 & Hb1 & HT1 & Hh1 & Hf1);
    [done..|unfold left in *; simpl; lia|].
  destruct fuel' as [|fuel']; [lia|].
  rewrite runSubTest_loop_S, bind_run.
  destruct (Next_passed w1 endText endD tail Hr1)
    as (w2 & -> & Hd2 & Hr2 & Ht2 & Hb2 & HT2 & Hh2 & Hf2).
  rewrite bind_run, isSubTestEnd_run. cbv zeta. rewrite Hd2.
  apply String.eqb_eq in Hcmd' as Hcmdb'. rewrite Hcmdb', Hargs'. simpl.
  apply String.eqb_eq in Hkey' as Hkeyb'. rewrite Hkeyb'. simpl.
  replace (1 <? length more) with false
    by (by destruct Hmore as [->|(a & -> & _)]).
  simpl. rewrite HT2, HT1. simpl. rewrite Hd2, Hargs'.
  assert (backTo w0 w2
          = {| wReader := wReader w2; wT := wT w0; wHandler := wHandler w2;
               wFile := wFile w2 |}) as Hback.
  { unfold backTo. simpl. rewrite HT2, HT1. simpl.
    rewrite orb_false_r. by destruct (wT w0). }
  assert (passed w0 (out1 +:+ endText) h1 tail
            {| wReader := wReader w2; wT := wT w0; wHandler := wHandler w2;
               wFile := wFile w2 |}) as Hpassed.
  { simpl in Ht1, Hb1, HT1, Hf1. unfold passed. simpl.
    split_and!; try congruence.
    rewrite Hb2, Hb1. destruct (rewrite (wReader w0)); simpl; [|done].
    by rewrite append_assoc. }
  assert ((failed ← Failed; if failed : bool then FailNow else mret tt)
            (backTo w0 w2)
          = (Normal tt, {| wReader := wReader w2; wT := wT w0;
                           wHandler := wHandler w2; wFile := wFile w2 |}))
    as Hcheck.
  { rewrite Hback, bind_run. simpl. by rewrite Hfl. }
  destruct Hmore as [->|(a & -> & Ha)].
  - rewrite Hcheck. by eexists.
  - apply String.eqb_eq in Ha. rewrite Ha. cbv beta iota zeta. simpl negb.
    cbv beta iota zeta. rewrite Hcheck. by eexists.
Qed.

Lemma passed_refl w : passed w "" (wHandler w) (records (pending (wReader w))) w.
Proof.
  unfold passed. split_and!; try done.
  destruct (rewrite (wReader w)); simpl; [by rewrite append_nil_r|done].
Qed.

Lemma passed_facts w out (h' : H) tail w' :
  passed w out h' tail w' →
  records (pending (wReader w')) = tail ∧ left w' = length tail ∧ wT w' = wT w
  ∧ wHandler w' = h'
  ∧ (rewrite (wReader w') = None → rewrite (wReader w) = None).
Proof.
  intros (Hr & _ & Hb & HT & Hh & _). unfold left. rewrite Hr.
  split_and!; try done. rewrite Hb. by destruct (rewrite (wReader w)).
Qed.

Lemma runTestInternal_loop_S fuel :
  runTestInternal_loop (S fuel) f =
  (more ← Next;
   if more : bool then
     runDirectiveOrSubTest fuel "" f ;; runTestInternal_loop fuel f
   else mret tt).
Proof. reflexivity. Qed.

(** Both loops pass every stretch that passes. *)
Lemma passes_loops pre recs (h : H) out (h' : H) :
  passes f rewriting pre recs h out h' →
  (∀ name, pre = name +:+ "/" →
     loopPasses rewriting (λ fuel, runSubTest_loop fuel name f) recs h out h')
  ∧ (pre = "" →
     loopPasses rewriting (λ fuel, runTestInternal_loop fuel f) recs h out h').
Proof.
  induction 1 as [pre h
                 |pre text d rest h s h1 out h2 Hcmd Hf Hexp _ [IHg IHt]
                 |pre text d name body endText endD more rest h out1 h1 out2 h2
                    Hstart Hpre _ [IHbody _] Hend Hmore _ [IHg IHt]].
  - split; intros; intros fuel w tail Hrec Hh Hfl Hmode Hfuel;
      exists fuel, w; (split; [done|]); (split; [done|]);
      subst h; simpl in Hrec; rewrite <-Hrec; apply passed_refl.
  - assert (∀ fuel w tail,
              records (pending (wReader w)) = ((text, d) :: rest) ++ tail →
              wHandler w = h → failed (wT w) = false →
              (rewrite (wReader w) = None → rewriting = false) →
              3 * left w + 1 ≤ S fuel →
              ∃ w0 w1, Next w = (Normal true, w0)
                ∧ Cmd (data (wReader w0)) ≠ "subtest"
                ∧ runDirectiveOrSubTest fuel pre f w0 = (Normal tt, w1)
                ∧ passed w (text +:+ expectedBlock (terminated s)) h1
                    (rest ++ tail) w1
                ∧ 3 * left w1 + 1 ≤ fuel) as Hstep.
    { intros fuel w tail Hrec Hh Hfl Hmode Hfuel.
      destruct (Next_passed w text d (rest ++ tail) Hrec) as (w0 & Hnext & Hd & Hp0).
      destruct (passed_facts _ _ _ _ _ Hp0) as (Hr0 & Hl0 & HT0 & Hh0 & Hm0).
      assert (left w = S (length (rest ++ tail))) as Hleft
        by (unfold left; by rewrite Hrec).
      destruct fuel as [|fuel]; [lia|].
      destruct (runDirectiveOrSubTest_directive fuel pre w0 s h1)
        as (w1 & Hrun & Hp1).
      { by rewrite Hd. }
      { by rewrite Hd, Hh0, Hh. }
      { by rewrite HT0. }
      { intros Hnone. rewrite Hd. apply Hexp, Hmode, Hm0, Hnone. }
      exists w0, w1. split; [done|]. split; [by rewrite Hd|]. split; [done|].
      rewrite Hr0 in Hp1. split; [by eapply passed_trans|].
      destruct (passed_facts _ _ _ _ _ Hp1) as (_ & Hl1 & _). lia. }
    split.
    + intros name -> fuel w tail Hrec Hh Hfl Hmode Hfuel.
      destruct fuel as [|fuel]; [lia|].
      destruct (Hstep fuel w tail Hrec Hh Hfl Hmode Hfuel)
        as (w0 & w1 & Hnext & Hcmd0 & Hrun & Hp1 & Hfuel1).
      destruct (passed_facts _ _ _ _ _ Hp1) as (Hr1 & Hl1 & HT1 & Hh1 & Hm1).
      destruct (IHg name eq_refl fuel w1 tail) as (fuel' & w' & Hloop & Hfuel' & Hp');
        [done|done|congruence|auto|done|].
      exists fuel', w'. split; [|split; [done|]].
      * rewrite runSubTest_loop_S, bind_run, Hnext. cbv beta iota.
        rewrite bind_run, isSubTestEnd_other by done. cbv beta iota.
        by rewrite bind_run, Hrun.
      * rewrite <-append_assoc. by eapply passed_trans.
    + intros -> fuel w tail Hrec Hh Hfl Hmode Hfuel.
      destruct fuel as [|fuel]; [lia|].
      destruct (Hstep fuel w tail Hrec Hh Hfl Hmode Hfuel)
        as (w0 & w1 & Hnext & Hcmd0 & Hrun & Hp1 & Hfuel1).
      destruct (passed_facts _ _ _ _ _ Hp1) as (Hr1 & Hl1 & HT1 & Hh1 & Hm1).
      destruct (IHt eq_refl fuel w1 tail) as (fuel' & w' & Hloop & Hfuel' & Hp');
        [done|done|congruence|auto|done|].
      exists fuel', w'. split; [|split; [done|]].
      * rewrite runTestInternal_loop_S, bind_run, Hnext. cbv beta iota.
        by rewrite bind_run, Hrun.
      * rewrite <-append_assoc. by eapply passed_trans.
  - assert (∀ fuel w tail,
              records (pending (wReader w))
              = ((text, d) :: body ++ (endText, endD) :: rest) ++ tail →
              wHandler w = h → failed (wT w) = false →
              (rewrite (wReader w) = None → rewriting = false) →
              3 * left w + 1 ≤ S fuel →
              ∃ w0 w1, Next w = (Normal true, w0)
                ∧ isSubTestEnd w0 = (Normal false, w0)
                ∧ runDirectiveOrSubTest fuel pre f w0 = (Normal tt, w1)
                ∧ passed w (text +:+ out1 +:+ endText) h1 (rest ++ tail) w1
                ∧ 3 * left w1 + 1 ≤ fuel) as Hstep.
    { intros fuel w tail Hrec Hh Hfl Hmode Hfuel.
      simpl in Hrec. rewrite <-app_assoc in Hrec. simpl in Hrec.
      destruct (Next_passed w text d _ Hrec) as (w0 & Hnext & Hd & Hp0).
      destruct (passed_facts _ _ _ _ _ Hp0) as (Hr0 & Hl0 & HT0 & Hh0 & Hm0).
      assert (left w = S (left w0)) as Hleft
        by (unfold left; by rewrite Hrec, Hr0).
      destruct (runDirectiveOrSubTest_subtest pre name d body endText endD more
                  h out1 h1 Hstart Hpre (IHbody name eq_refl) Hend Hmore
                  fuel w0 (rest ++ tail))
        as (w1 & Hrun & Hp1); [done|done|congruence|congruence|auto|lia|].
      exists w0, w1. split; [done|]. split.
      { rewrite isSubTestEnd_run. cbv zeta. rewrite Hd.
        destruct Hstart as (Hc & (arg & Hargs & Hkey) & Hne).
        apply String.eqb_eq in Hc. rewrite Hc, Hargs. simpl. rewrite Hkey.
        apply String.eqb_neq in Hne. by rewrite Hne. }
      split; [done|]. split; [by eapply passed_trans|].
      destruct (passed_facts _ _ _ _ _ Hp1) as (_ & Hl1 & _).
      rewrite Hl0 in Hleft. rewrite length_app in Hleft. simpl in Hleft. lia. }
    split.
    + intros outer -> fuel w tail Hrec Hh Hfl Hmode Hfuel.
      destruct fuel as [|fuel]; [lia|].
      destruct (Hstep fuel w tail Hrec Hh Hfl Hmode Hfuel)
        as (w0 & w1 & Hnext & Hend0 & Hrun & Hp1 & Hfuel1).
      destruct (passed_facts _ _ _ _ _ Hp1) as (Hr1 & Hl1 & HT1 & Hh1 & Hm1).
      destruct (IHg outer eq_refl fuel w1 tail) as (fuel' & w' & Hloop & Hfuel' & Hp');
        [done|done|congruence|auto|done|].
      exists fuel', w'. split; [|split; [done|]].
      * rewrite runSubTest_loop_S, bind_run, Hnext. cbv beta iota.
        rewrite bind_run, Hend0. cbv beta iota.
        by rewrite bind_run, Hrun.
      * replace (text +:+ out1 +:+ endText +:+ out2)
          with ((text +:+ out1 +:+ endText) +:+ out2)
          by (by rewrite !append_assoc).
        by eapply passed_trans.
    + intros -> fuel w tail Hrec Hh Hfl Hmode Hfuel.
      destruct fuel as [|fuel]; [lia|].
      destruct (Hstep fuel w tail Hrec Hh Hfl Hmode Hfuel)
        as (w0 & w1 & Hnext & Hend0 & Hrun & Hp1 & Hfuel1).
      destruct (passed_facts _ _ _ _ _ Hp1) as (Hr1 & Hl1 & HT1 & Hh1 & Hm1).
      destruct (IHt eq_refl fuel w1 tail) as (fuel' & w' & Hloop & Hfuel' & Hp');
        [done|done|congruence|auto|done|].
      exists fuel', w'. split; [|split; [done|]].
      * rewrite runTestInternal_loop_S, bind_run, Hnext. cbv beta iota.
        by rewrite bind_run, Hrun.
      * replace (text +:+ out1 +:+ endText +:+ out2)
          with ((text +:+ out1 +:+ endText) +:+ out2)
          by (by rewrite !append_assoc).
        by eapply passed_trans.
Qed.

End Passes.

Section WellFormed.
Context {H : Type} (f : handler H).
Implicit Types (w : world H).

(** The loop of [runTestInternal] over a file that passes. *)
Lemma runTestInternal_loop_passes (rewriting : bool) (sourceName : string)
    (input : stream) w (out : string) (h' : H) :
  passes f rewriting "" (records input) (wHandler w) out h' →
  failed (wT w) = false →
  ∃ w1, runTestInternal_loop (fuelFor input) f
          {| wReader := newTestDataReader sourceName input rewriting;
             wT := wT w; wHandler := wHandler w; wFile := wFile w |}
        = (Normal tt, w1)
        ∧ wT w1 = wT w ∧ wHandler w1 = h' ∧ wFile w1 = wFile w
        ∧ rewrite (wReader w1)
          = if rewriting then Some (out +:+ trailing input) else None.
Proof.
  intros Hpass Hfl.
  destruct (passes_loops f rewriting _ _ _ _ _ Hpass) as [_ Hloop].
  destruct (Hloop eq_refl (fuelFor input)
              {| wReader := newTestDataReader sourceName input rewriting;
                 wT := wT w; wHandler := wHandler w; wFile := wFile w |} [])
    as (fuel' & w1 & -> & Hfuel' & Hr1 & Ht1 & Hb1 & HT1 & Hh1 & Hf1).
  { simpl. by rewrite app_nil_r. }
  { done. }
  { done. }
  { simpl. by destruct rewriting. }
  { unfold left, fuelFor. simpl. lia. }
  destruct fuel' as [|fuel']; [lia|].
  destruct (Next_exhausted w1 Hr1) as (w2 & Hnext & HT2 & Hh2 & Hf2 & Hb2).
  rewrite runTestInternal_loop_S, bind_run, Hnext. exists w2.
  split; [done|]. simpl in *. split_and!; try congruence.
  rewrite Hb2, Hb1, Ht1. by destruct rewriting.
Qed.

(** X14: without a rewrite, a run over a well-formed file of which every
    directive passes returns, and the test is as it was: it has not failed
    and nothing was logged.  The handler has been called for the directives
    in the order of the file, once each, and not for the subtest
    directives. *)
Theorem well_formed_file_passes (sourceName : string) (input : stream) w
    (out : string) (h' : H) :
  passes f false "" (records input) (wHandler w) out h' →
  failed (wT w) = false →
  ∃ w', runTestInternal sourceName input f false w = (Normal tt, w')
        ∧ wT w' = wT w ∧ wHandler w' = h' ∧ wFile w' = wFile w.
Proof.
  intros Hpass Hfl.
  destruct (runTestInternal_loop_passes false sourceName input w out h' Hpass Hfl)
    as (w1 & Hloop & HT & Hh & Hf & Hb).
  rewrite runTestInternal_run. cbv zeta. rewrite Hloop, Hb. by exists w1.
Qed.


End WellFormed.

Lemma nested_passes (rewriting : bool) :
  passes echo rewriting "" nested tt nestedOut tt.
Proof.
  apply (passes_subtest echo rewriting "" _ _ "a" [plain "f:2" "x"] _ _ []
           [plain "f:4" "y"] tt _ tt _ tt).
  - split; [done|]. split; [by eexists|done].
  - by exists "a".
  - apply (passes_directive echo rewriting _ _ _ [] tt "x" tt "" tt);
      [done|done|done|constructor].
  - split; [done|]. by eexists.
  - by left.
  - apply (passes_directive echo rewriting _ _ _ [] tt "y" tt "" tt);
      [done|done|done|constructor].
Qed.

Lemma well_formed_file_passes_witness :
  passes echo false "" (records (fileOf nested)) (wHandler (initial tt None))
    nestedOut tt
  ∧ failed (wT (initial tt None)) = false
  ∧ ∃ w', runTestInternal "f" (fileOf nested) echo false (initial tt None)
          = (Normal tt, w')
          ∧ wT w' = wT (initial tt None) ∧ wHandler w' = tt
          ∧ wFile w' = wFile (initial tt None).
Proof.
  split; [apply nested_passes|]. split; [reflexivity|].
  apply (well_formed_file_passes echo "f" (fileOf nested) (initial tt None)
           nestedOut tt); [apply nested_passes|reflexivity].
Defined.


(** ** Walking a directory *)

Section Walk.
Implicit Types (path name : string) (files : list (string * node)).

Lemma node_induction (P : node → Prop) :
  (∀ err, P (Missing err)) → P File →
  (∀ files, Forall (λ entry, P entry.2) files → P (Dir files)) →
  (∀ err, P (Unreadable err)) →
  ∀ at_path, P at_path.
Proof.
  intros HM HF HD HU. fix IH 1. intros [err| |files|err];
    [apply HM|apply HF| |apply HU].
  apply HD. induction files as [|[name child] files IHfiles]; constructor;
    [apply IH|apply IHfiles].
Qed.

Lemma Walk_cons {S} `{!TB S} path name (child : node) files (f : string → M S unit) :
  Walk path (Dir ((name, child) :: files)) f
  = ((if tempFileRe_MatchString name then mret tt
      else Run name (Walk (filepath.Join path name) child f) ;; mret tt) ;;
     Walk path (Dir files) f).
Proof. reflexivity. Qed.

(** X16: the entries [tempFileRe] matches have no part in a walk: they are
    not looked at, whatever they are, and the walk is the walk of the
    directory without them. *)
Theorem Walk_skips_temporary {S} `{!TB S} path files (f : string → M S unit) :
  Walk path (Dir files) f
  = Walk path (Dir (filter (λ entry, tempFileRe_MatchString entry.1 = false) files)) f.
Proof.
  induction files as [|[name child] files IH]; [done|].
  rewrite Walk_cons, filter_cons.
  change ((name, child).1) with name.
  destruct (tempFileRe_MatchString name) eqn:Htemp.
  - rewrite decide_False by done. rewrite <-IH. reflexivity.
  - rewrite decide_True by done. rewrite Walk_cons, Htemp, <-IH. reflexivity.
Qed.

Ltac walk_done :=
  simpl; rewrite ?orb_true_r, ?orb_false_r, ?app_nil_r;
  split_and!; try done; by (left + right).

(** A walk with a function that notes its calls. *)
Lemma Walk_leaf (behaviour : string → leafResult) (at_path : node) :
  ∀ path (w : walker),
    ∃ o w1, Walk path at_path (leaf behaviour) w = (o, w1)
      ∧ (o = Normal tt ∨ o = Stopped Goexit)
      ∧ visited w1 = visited w ++ leaves path at_path
      ∧ failed (walkerT w1) = failed (walkerT w) || fails behaviour path at_path
      ∧ output (walkerT w1) = output (walkerT w) ++ complaints path at_path
      ∧ (isDir at_path = true → o = Normal tt
                                ∧ skipped (walkerT w1) = skipped (walkerT w)).
Proof.
  induction at_path as [err| |files IH|err] using node_induction; intros path w.
  - eexists _, _. split; [reflexivity|]. walk_done.
  - simpl. unfold leaf. rewrite bind_run. simpl.
    destruct (behaviour path); eexists _, _; (split; [reflexivity|]); walk_done.
  - revert w. induction IH as [|[name child] files Hchild _ IHfiles]; intros w.
    { eexists _, _. split; [reflexivity|]. walk_done. }
    rewrite Walk_cons, bind_run. simpl in Hchild.
    destruct (tempFileRe_MatchString name) eqn:Htemp.
    + destruct (IHfiles w) as (o & w1 & Hrun & Ho & Hv & Hf & Hout & Hdir).
      exists o, w1. simpl. rewrite Htemp. simpl. by split_and!.
    + rewrite bind_run. unfold Run at 1.
      destruct (Hchild (filepath.Join path name)
                  (setT {| failed := false; skipped := false;
                           output := output (getT w) |} w))
        as (oc & wc & Hrunc & Hoc & Hvc & Hfc & Houtc & _).
      rewrite Hrunc.
      set (w2 := setT {| failed := failed (getT w) || failed (getT wc);
                         skipped := skipped (getT w);
                         output := output (getT wc) |} wc).
      destruct (IHfiles w2) as (o & w1 & Hrun & Ho & Hv & Hf & Hout & Hdir).
      exists o, w1. split.
      { destruct Hoc as [->| ->]; exact Hrun. }
      simpl in *. rewrite Htemp.
      split; [done|]. split; [by rewrite Hv, Hvc, app_assoc|].
      split; [by rewrite Hf, Hfc, orb_assoc|].
      split; [by rewrite Hout, Houtc, app_assoc|].
      intros _. destruct (Hdir eq_refl) as [-> Hsk]. by rewrite Hsk.
  - eexists _, _. split; [reflexivity|]. walk_done.
Qed.

(** X17: [Walk] calls its function once for every file it reaches through
    entries that [tempFileRe] does not match, in the order in which
    [ioutil.ReadDir] lists them, and goes on when a file has failed, when it
    was skipped and when something cannot be read: each of that ends one
    subtest only.  The test has failed behind the walk if it had failed
    before, if a file has failed, or if something could not be read, which is
    logged.  The walk of a directory returns, and does not skip the test. *)
Theorem Walk_visits (behaviour : string → leafResult) path (at_path : node)
    (w : walker) :
  visited (Walk path at_path (leaf behaviour) w).2 = visited w ++ leaves path at_path
  ∧ failed (walkerT (Walk path at_path (leaf behaviour) w).2)
    = failed (walkerT w) || fails behaviour path at_path
  ∧ output (walkerT (Walk path at_path (leaf behaviour) w).2)
    = output (walkerT w) ++ complaints path at_path
  ∧ (isDir at_path = true →
     (Walk path at_path (leaf behaviour) w).1 = Normal tt
     ∧ skipped (walkerT (Walk path at_path (leaf behaviour) w).2)
       = skipped (walkerT w)).
Proof.
  destruct (Walk_leaf behaviour at_path path w)
    as (o & w1 & -> & _ & Hv & Hf & Hout & Hdir).
  by split_and!.
Qed.

End Walk.

(** The walk of the documentation: three calls, and none for the backup. *)
Example Walk_testdata :
  leaves "testdata" testdata
  = ["testdata/logprops/scan"; "testdata/logprops/select"; "testdata/typing"].
Proof. reflexivity. Qed.

(** ** The cut before the write-back, and the entry points *)

(** X18: [trimmed] cuts one line terminator off a buffer of more than two
    bytes that ends with two of them, and leaves every other buffer as it
    is. *)
Theorem trimmed_cuts_one (data : string) :
  (2 < String.length data ∧ endsWith data (NL +:+ NL) →
   data = trimmed data +:+ NL ∧ endsWith (trimmed data) NL)
  ∧ (¬ (2 < String.length data ∧ endsWith data (NL +:+ NL)) →
     trimmed data = data).
Proof.
  split.
  - intros [Hlen [p ->]].
    assert (p ≠ "") as Hp.
    { intros ->. simpl in Hlen. lia. }
    rewrite trimmed_cuts by done. split; [by rewrite append_assoc|by exists p].
  - intros Hnot.
    destruct (strings.HasSuffix data (NL +:+ NL)) eqn:Hsuffix.
    2: { apply trimmed_keeps. intros Hend%HasSuffix_iff. congruence. }
    apply HasSuffix_iff in Hsuffix as Hend.
    unfold trimmed. replace (2 <? String.length data) with false; [done|].
    symmetry. apply Nat.ltb_ge. destruct (decide (2 < String.length data)); [|lia].
    by destruct Hnot.
Qed.


Lemma trimmed_cuts_one_witness :
  (2 < String.length ("a" +:+ NL +:+ NL) ∧ endsWith ("a" +:+ NL +:+ NL) (NL +:+ NL))
  ∧ "a" +:+ NL +:+ NL = trimmed ("a" +:+ NL +:+ NL) +:+ NL
  ∧ endsWith (trimmed ("a" +:+ NL +:+ NL)) NL.
Proof.
  assert (2 < String.length ("a" +:+ NL +:+ NL)
          ∧ endsWith ("a" +:+ NL +:+ NL) (NL +:+ NL)) as Hcut.
  { split; [simpl; lia|by exists "a"]. }
  split; [exact Hcut|].
  exact (proj1 (trimmed_cuts_one ("a" +:+ NL +:+ NL)) Hcut).
Defined.


(** ** Telling arguments apart by their re-serialised form *)

Section Injective.
Implicit Types (s t u x y : string) (c : ascii).

Lemma without_append c s x : ¬ without c (s +:+ String c x).
Proof. induction s as [|a s IH]; simpl; [by intros [? _]|]. by intros [_ ?]. Qed.

(** Two strings split at the first occurrence of a byte. *)
Lemma split_first c s t x y :
  without c s → without c t → s +:+ String c x = t +:+ String c y → s = t ∧ x = y.
Proof.
  revert t. induction s as [|a s IH]; intros [|b t]; simpl.
  - by intros _ _ [= ->].
  - intros _ [Hb _] [= -> _]. done.
  - intros [Ha _] _ [= -> _]. done.
  - intros [_ Hs] [_ Ht] [= -> Heq]. destruct (IH t Hs Ht Heq) as [-> ->]. done.
Qed.

Lemma append_inj_r s t u : s +:+ u = t +:+ u → s = t.
Proof.
  revert t. induction s as [|a s IH]; intros [|b t]; simpl; try done.
  - intros Heq. apply (f_equal String.length) in Heq.
    simpl in Heq. rewrite length_append in Heq. lia.
  - intros Heq. apply (f_equal String.length) in Heq.
    simpl in Heq. rewrite length_append in Heq. lia.
  - intros [= -> Heq]. by rewrite (IH t Heq).
Qed.

Lemma commaSeparated_cons (v v' : string) (vs : list string) :
  commaSeparated (v :: v' :: vs)
  = v +:+ String "," (String " " (commaSeparated (v' :: vs))).
Proof. reflexivity. Qed.

Lemma commaSeparated_inj (l1 : list string) :
  ∀ l2, l1 ≠ [] → l2 ≠ [] →
        Forall (λ v, without "," v) l1 → Forall (λ v, without "," v) l2 →
        commaSeparated l1 = commaSeparated l2 → l1 = l2.
Proof.
  induction l1 as [|v1 l1 IH]; intros [|v2 l2] Hne1 Hne2 Hc1 Hc2; try done.
  apply Forall_cons in Hc1 as [Hv1 Hc1]. apply Forall_cons in Hc2 as [Hv2 Hc2].
  destruct l1 as [|v1' l1], l2 as [|v2' l2].
  - by intros [= ->].
  - rewrite commaSeparated_cons. simpl. intros ->. by apply without_append in Hv1.
  - rewrite commaSeparated_cons. simpl. intros <-. by apply without_append in Hv2.
  - rewrite !commaSeparated_cons. intros Heq.
    apply split_first in Heq as [-> [= Heq]]; [|done..].
    by rewrite (IH (v2' :: l2) ltac:(done) ltac:(done) Hc1 Hc2 Heq).
Qed.

Lemma CmdArg_String_forms (arg : CmdArg) :
  CmdArg_String arg =
  match Vals arg with
  | [] => Key arg
  | [v] => Key arg +:+ String "=" v
  | vals => Key arg +:+ String "=" (String "(" (commaSeparated vals +:+ ")"))
  end.
Proof.
  unfold CmdArg_String.
  destruct (Vals arg) as [|v [|v' vs]] eqn:Hvals; simpl length; cbv iota.
  - done.
  - simpl. by rewrite append_nil_r.
  - rewrite Join_commaSeparated.
    generalize (commaSeparated (v :: v' :: vs)). intros j. done.
Qed.

(** X20: [String] tells arguments apart: two arguments whose keys hold no
    equals sign and whose values hold neither a comma nor an opening
    parenthesis are equal when their re-serialised forms are. *)
Theorem CmdArg_String_injective (a b : CmdArg) :
  plainArg a → plainArg b → CmdArg_String a = CmdArg_String b → a = b.
Proof.
  rewrite !CmdArg_String_forms.
  destruct a as [k1 vals1], b as [k2 vals2]. unfold plainArg. simpl.
  intros [Hk1 Hv1] [Hk2 Hv2].
  assert (Forall (λ v, without "," v) vals1) as Hc1
    by (eapply Forall_impl; [exact Hv1|by intros ? [? _]]).
  assert (Forall (λ v, without "," v) vals2) as Hc2
    by (eapply Forall_impl; [exact Hv2|by intros ? [? _]]).
  destruct vals1 as [|v1 [|v1' vs1]], vals2 as [|v2 [|v2' vs2]]; intros Heq.
  - by subst.
  - subst k1. by apply without_append in Hk1.
  - subst k1. by apply without_append in Hk1.
  - subst k2. by apply without_append in Hk2.
  - by apply split_first in Heq as [-> ->].
  - apply split_first in Heq as [_ ->]; [|done..].
    apply Forall_cons in Hv1 as [[_ [Hparen _]] _]. done.
  - subst k2. by apply without_append in Hk2.
  - apply split_first in Heq as [_ <-]; [|done..].
    apply Forall_cons in Hv2 as [[_ [Hparen _]] _]. done.
  - apply split_first in Heq as [-> [= Heq]]; [|done..].
    apply append_inj_r in Heq.
    change (commaSeparated (v1 :: v1' :: vs1) = commaSeparated (v2 :: v2' :: vs2))
      in Heq.
    apply commaSeparated_inj in Heq; [|done..]. by rewrite Heq.
Qed.

End Injective.

Lemma CmdArg_String_injective_witness :
  plainArg {| Key := "arg3"; Vals := ["50"; "50"; "50"] |}
  ∧ plainArg {| Key := "arg3"; Vals := ["50"; "50"; "50"] |}
  ∧ CmdArg_String {| Key := "arg3"; Vals := ["50"; "50"; "50"] |}
    = CmdArg_String {| Key := "arg3"; Vals := ["50"; "50"; "50"] |}
  ∧ {| Key := "arg3"; Vals := ["50"; "50"; "50"] |}
    = {| Key := "arg3"; Vals := ["50"; "50"; "50"] |}.
Proof.
  assert (plainArg {| Key := "arg3"; Vals := ["50"; "50"; "50"] |}) as Hplain.
  { split; simpl; [by repeat split|]. repeat constructor; done. }
  split; [exact Hplain|]. split; [exact Hplain|]. split; [reflexivity|].
  apply (CmdArg_String_injective _ _ Hplain Hplain). reflexivity.
Defined.

(** ** Skipping outside a subtest *)

(** X21: outside a subtest the handler may skip: when it calls [t.Skip] for
    a directive that the loop of [runTestInternal] has read, the run stops
    there with the test marked as skipped.  The test has not failed for that,
    nothing is logged, and the records behind the directive are not read. *)
Theorem skip_outside_subtest {H} (f : handler H) (fuel : nat) (w : world H)
    (text : string) (d : TestData) (rest : list (string * TestData))
    (errored : bool) (h' : H) :
  records (pending (wReader w)) = (text, d) :: rest →
  Cmd d ≠ "subtest" →
  f d (wHandler w) = (CallsSkip errored, h') →
  ∃ w', runTestInternal_loop (S (S fuel)) f w = (Stopped Goexit, w')
        ∧ wT w' = {| failed := errored || failed (wT w); skipped := true;
                     output := output (wT w) |}
        ∧ wHandler w' = h'
        ∧ data (wReader w') = d
        ∧ records (pending (wReader w')) = rest.
Proof.
  intros Hrec Hcmd Hf.
  destruct (Next_passed w text d rest Hrec)
    as (w0 & Hnext & Hd & Hr0 & _ & _ & HT0 & Hh0 & _).
  rewrite <-Hd in Hcmd. rewrite <-Hd, <-Hh0 in Hf.
  rewrite runTestInternal_loop_S, bind_run, Hnext. cbv beta iota.
  rewrite bind_run, runDirectiveOrSubTest_S, bind_run.
  rewrite (isSubTestStart_other _ w0 Hcmd). cbv beta iota.
  rewrite bind_run, (runDirective_skip f w0 errored h' Hf).
  eexists. split; [reflexivity|]. simpl. rewrite HT0. by split_and!.
Qed.

Lemma skip_outside_subtest_witness :
  records (pending (wReader (running freshT [plain "f:1" "x"; plain "f:2" "y"])))
  = [plain "f:1" "x"; plain "f:2" "y"]
  ∧ Cmd (plain "f:1" "x").2 ≠ "subtest"
  ∧ skipper (plain "f:1" "x").2
      (wHandler (running freshT [plain "f:1" "x"; plain "f:2" "y"]))
    = (CallsSkip false, tt)
  ∧ ∃ w', runTestInternal_loop 2 skipper
            (running freshT [plain "f:1" "x"; plain "f:2" "y"])
          = (Stopped Goexit, w')
          ∧ wT w' = {| failed := false; skipped := true; output := [] |}
          ∧ wHandler w' = tt
          ∧ data (wReader w') = (plain "f:1" "x").2
          ∧ records (pending (wReader w')) = [plain "f:2" "y"].
Proof.
  split; [reflexivity|]. split; [discriminate|]. split; [reflexivity|].
  apply (skip_outside_subtest skipper 0
           (running freshT [plain "f:1" "x"; plain "f:2" "y"])
           (plain "f:1" "x").1 (plain "f:1" "x").2 [plain "f:2" "y"] false tt);
    [reflexivity|discriminate|reflexivity].
Defined.

Lemma hasBlankLine_exact_witness :
  Forall short (linesOf ("a" +:+ NL +:+ NL +:+ "b"))
  ∧ containsBlankLine ("a" +:+ NL +:+ NL +:+ "b")
  ∧ hasBlankLine ("a" +:+ NL +:+ NL +:+ "b") = true.
Proof.
  assert (Forall short (linesOf ("a" +:+ NL +:+ NL +:+ "b"))) as Hshort.
  { change (linesOf ("a" +:+ NL +:+ NL +:+ "b")) with ["a"; ""; "b"].
    rewrite !Forall_cons. unfold short, bufio.MaxScanTokenSize.
    simpl String.length. split_and!; try lia. constructor. }
  assert (containsBlankLine ("a" +:+ NL +:+ NL +:+ "b")) as Hblank.
  { apply Exists_cons_tl, Exists_cons_hd. reflexivity. }
  split; [exact Hshort|]. split; [exact Hblank|].
  exact (proj2 (hasBlankLine_exact ("a" +:+ NL +:+ NL +:+ "b")) Hshort Hblank).
Defined.


(** ** The first directive that does not pass *)

Section Stops.
Context {H : Type} (f : handler H).
Implicit Types (w : world H) (name pre : string) (fuel : nat).

Lemma isSubTestStart_start pre w name :
  subtestStart (data (wReader w)) name → beginsWith name pre →
  isSubTestStart pre w = (Normal (name, true), w).
Proof.
  intros (Hcmd & (arg & Hargs & Hkey) & Hne) Hpre.
  rewrite isSubTestStart_run. cbv zeta.
  apply String.eqb_eq in Hcmd. rewrite Hcmd, Hargs. simpl. rewrite Hkey.
  apply String.eqb_neq in Hne. rewrite Hne.
  apply HasPrefix_iff in Hpre. by rewrite Hpre.
Qed.

Lemma isSubTestEnd_start w name :
  subtestStart (data (wReader w)) name → isSubTestEnd w = (Normal false, w).
Proof.
  intros (Hcmd & (arg & Hargs & Hkey) & Hne).
  rewrite isSubTestEnd_run. cbv zeta.
  apply String.eqb_eq in Hcmd. rewrite Hcmd, Hargs. simpl. rewrite Hkey.
  apply String.eqb_neq in Hne. by rewrite Hne.
Qed.

Lemma stoppedAt_from w0 w d (s : string) (h1 : H) rest w' :
  skipped (wT w0) = skipped (wT w) → output (wT w0) = output (wT w) →
  wFile w0 = wFile w →
  stoppedAt w0 d s h1 rest w' → stoppedAt w d s h1 rest w'.
Proof. unfold stoppedAt. by intros -> -> ->. Qed.

(** A directive whose output is not the expected one. *)
Lemma runDirectiveOrSubTest_mismatch fuel pre w0 (s : string) (h1 : H) :
  Cmd (data (wReader w0)) ≠ "subtest" →
  f (data (wReader w0)) (wHandler w0) = (Returns false s, h1) →
  failed (wT w0) = false →
  rewrite (wReader w0) = None →
  Expected (data (wReader w0)) ≠ terminated s →
  ∃ w1, runDirectiveOrSubTest (S fuel) pre f w0 = (Stopped Goexit, w1)
        ∧ stoppedAt w0 (data (wReader w0)) s h1
            (records (pending (wReader w0))) w1.
Proof.
  intros Hcmd Hf Hfl Hnone Hne.
  rewrite runDirectiveOrSubTest_S, bind_run, isSubTestStart_other by done.
  simpl. rewrite bind_run.
  destruct w0 as [[d p rw] [fl sk out] h file]. simpl in *. subst fl rw.
  unfold runDirective, runDirective_actual, call.
  unfold mbind, M_bind, mret, M_ret, gets, Failed, onReader, modify. simpl.
  rewrite Hf. simpl. apply String.eqb_neq in Hne. rewrite Hne. simpl.
  eexists. split; [done|]. unfold stoppedAt, mismatch. simpl. by split_and!.
Qed.

(** Both loops stop at the first directive that does not pass. *)
Lemma stops_loops pre recs (h : H) d (s : string) (h1 : H) rest :
  stopsAt f pre recs h d s h1 rest →
  (∀ name, pre = name +:+ "/" →
     loopStops (λ fuel, runSubTest_loop fuel name f) recs h d s h1 rest)
  ∧ (pre = "" →
     loopStops (λ fuel, runTestInternal_loop fuel f) recs h d s h1 rest).
Proof.
  induction 1 as [pre recs h out h0 text d s h1 rest Hpass Hcmd Hf Hne
                 |pre recs h out h0 text dS name body d s h1 rest
                    Hpass Hstart Hpre _ [IHg _]].
  - assert (∀ w1 fuel',
              records (pending (wReader w1)) = (text, d) :: rest →
              wHandler w1 = h0 → failed (wT w1) = false →
              rewrite (wReader w1) = None →
              3 * left w1 + 1 ≤ S fuel' →
              ∃ w0 w2, Next w1 = (Normal true, w0)
                ∧ Cmd (data (wReader w0)) ≠ "subtest"
                ∧ runDirectiveOrSubTest fuel' pre f w0 = (Stopped Goexit, w2)
                ∧ stoppedAt w1 d s h1 rest w2) as Hstep.
    { intros w1 fuel' Hrec Hh Hfl Hnone Hfuel.
      destruct (Next_passed w1 text d rest Hrec)
        as (w0 & Hnext & Hd & Hr0 & _ & Hb0 & HT0 & Hh0 & Hf0).
      assert (left w1 = S (length rest)) by (unfold left; by rewrite Hrec).
      destruct fuel' as [|fuel']; [lia|].
      destruct (runDirectiveOrSubTest_mismatch fuel' pre w0 s h1)
        as (w2 & Hrun & Hstop).
      { by rewrite Hd. }
      { by rewrite Hd, Hh0, Hh. }
      { by rewrite HT0. }
      { by rewrite Hb0, Hnone. }
      { by rewrite Hd. }
      exists w0, w2. split; [done|]. split; [by rewrite Hd|]. split; [done|].
      rewrite Hd, Hr0 in Hstop.
      apply (stoppedAt_from w0); by rewrite ?HT0. }
    destruct (passes_loops f false _ _ _ _ _ Hpass) as [Hg Ht].
    split.
    + intros name -> fuel w Hrec Hh Hfl Hnone Hfuel.
      destruct (Hg name eq_refl fuel w ((text, d) :: rest) Hrec Hh Hfl
                  ltac:(done) Hfuel)
        as (fuel' & w1 & -> & Hfuel' & Hr1 & _ & Hb1 & HT1 & Hh1 & Hf1).
      rewrite Hnone in Hb1. simpl in Hb1.
      destruct fuel' as [|fuel']; [lia|].
      destruct (Hstep w1 fuel' Hr1 Hh1 ltac:(by rewrite HT1) Hb1 Hfuel')
        as (w0 & w2 & Hnext & Hcmd0 & Hrun & Hstop).
      exists w2. split.
      * rewrite runSubTest_loop_S, bind_run, Hnext. cbv beta iota.
        rewrite bind_run, isSubTestEnd_other by done. cbv beta iota.
        by rewrite bind_run, Hrun.
      * apply (stoppedAt_from w1); by rewrite ?HT1.
    + intros -> fuel w Hrec Hh Hfl Hnone Hfuel.
      destruct (Ht eq_refl fuel w ((text, d) :: rest) Hrec Hh Hfl
                  ltac:(done) Hfuel)
        as (fuel' & w1 & -> & Hfuel' & Hr1 & _ & Hb1 & HT1 & Hh1 & Hf1).
      rewrite Hnone in Hb1. simpl in Hb1.
      destruct fuel' as [|fuel']; [lia|].
      destruct (Hstep w1 fuel' Hr1 Hh1 ltac:(by rewrite HT1) Hb1 Hfuel')
        as (w0 & w2 & Hnext & Hcmd0 & Hrun & Hstop).
      exists w2. split.
      * rewrite runTestInternal_loop_S, bind_run, Hnext. cbv beta iota.
        by rewrite bind_run, Hrun.
      * apply (stoppedAt_from w1); by rewrite ?HT1.
  - assert (∀ w1 fuel',
              records (pending (wReader w1)) = (text, dS) :: body →
              wHandler w1 = h0 → failed (wT w1) = false →
              rewrite (wReader w1) = None →
              3 * left w1 + 1 ≤ S fuel' →
              ∃ w0 w2, Next w1 = (Normal true, w0)
                ∧ isSubTestEnd w0 = (Normal false, w0)
                ∧ runDirectiveOrSubTest fuel' pre f w0 = (Stopped Goexit, w2)
                ∧ stoppedAt w1 d s h1 rest w2) as Hstep.
    { intros w1 fuel' Hrec Hh Hfl Hnone Hfuel.
      destruct (Next_passed w1 text dS body Hrec)
        as (w0 & Hnext & Hd & Hr0 & _ & Hb0 & HT0 & Hh0 & Hf0).
      rewrite Hnone in Hb0. simpl in Hb0.
      assert (left w1 = S (length body)) by (unfold left; by rewrite Hrec).
      rewrite <-Hd in Hstart.
      destruct fuel' as [|[|[|fuel']]]; try lia.
      destruct (IHg name eq_refl (S fuel') (subtestOf w0))
        as (w2 & Hloop & HT2 & Hh2 & Hd2 & Hr2 & Hf2);
        [done|by rewrite <-Hh|done|done|unfold left in *; simpl; rewrite Hr0; lia|].
      simpl in HT2, Hf2.
      exists w0. eexists. split; [done|].
      split; [by eapply isSubTestEnd_start|]. split.
      { rewrite runDirectiveOrSubTest_S, bind_run.
        rewrite (isSubTestStart_start pre w0 name Hstart Hpre). cbv beta iota zeta.
        rewrite bind_run, runSubTest_S, Hloop. cbv beta iota zeta.
        rewrite HT2. simpl. rewrite orb_true_r. simpl.
        rewrite bind_run. simpl. rewrite HT2. simpl. rewrite orb_true_r.
        reflexivity. }
      unfold stoppedAt. simpl. rewrite HT2, HT0. simpl.
      split_and!; try done. congruence. }
    destruct (passes_loops f false _ _ _ _ _ Hpass) as [Hg Ht].
    split.
    + intros outer -> fuel w Hrec Hh Hfl Hnone Hfuel.
      destruct (Hg outer eq_refl fuel w ((text, dS) :: body) Hrec Hh Hfl
                  ltac:(done) Hfuel)
        as (fuel' & w1 & -> & Hfuel' & Hr1 & _ & Hb1 & HT1 & Hh1 & Hf1).
      rewrite Hnone in Hb1. simpl in Hb1.
      destruct fuel' as [|fuel']; [lia|].
      destruct (Hstep w1 fuel' Hr1 Hh1 ltac:(by rewrite HT1) Hb1 Hfuel')
        as (w0 & w2 & Hnext & Hend0 & Hrun & Hstop).
      exists w2. split.
      * rewrite runSubTest_loop_S, bind_run, Hnext. cbv beta iota.
        rewrite bind_run, Hend0. cbv beta iota.
        by rewrite bind_run, Hrun.
      * apply (stoppedAt_from w1); by rewrite ?HT1.
    + intros -> fuel w Hrec Hh Hfl Hnone Hfuel.
      destruct (Ht eq_refl fuel w ((text, dS) :: body) Hrec Hh Hfl
                  ltac:(done) Hfuel)
        as (fuel' & w1 & -> & Hfuel' & Hr1 & _ & Hb1 & HT1 & Hh1 & Hf1).
      rewrite Hnone in Hb1. simpl in Hb1.
      destruct fuel' as [|fuel']; [lia|].
      destruct (Hstep w1 fuel' Hr1 Hh1 ltac:(by rewrite HT1) Hb1 Hfuel')
        as (w0 & w2 & Hnext & Hend0 & Hrun & Hstop).
      exists w2. split.
      * rewrite runTestInternal_loop_S, bind_run, Hnext. cbv beta iota.
        by rewrite bind_run, Hrun.
      * apply (stoppedAt_from w1); by rewrite ?HT1.
Qed.

(** X22: the first directive whose output is not the expected one stops the
    run, at the top level and inside subtests of any depth: the test fails
    with the message for that directive and no other message, the handler is
    not called again, and the records behind the directive are not read.  The
    subtests around the directive raise no complaint of their own about the
    end they have not seen. *)
Theorem first_mismatch_stops (sourceName : string) (input : stream) w
    (d : TestData) (s : string) (h1 : H) (rest : list (string * TestData)) :
  stopsAt f "" (records input) (wHandler w) d s h1 rest →
  failed (wT w) = false →
  ∃ w', runTestInternal sourceName input f false w = (Stopped Goexit, w')
        ∧ stoppedAt w d s h1 rest w'.
Proof.
  intros Hstops Hfl. destruct (stops_loops _ _ _ _ _ _ _ Hstops) as [_ Hloop].
  destruct (Hloop eq_refl (fuelFor input)
              {| wReader := newTestDataReader sourceName input false;
                 wT := wT w; wHandler := wHandler w; wFile := wFile w |})
    as (w' & Hrun & Hstop); [done..|unfold left, fuelFor; simpl; lia|].
  exists w'. rewrite runTestInternal_run. cbv zeta. by rewrite Hrun.
Qed.

End Stops.

Lemma nestedWrong_stops :
  stopsAt echo "" nestedWrong tt (directive "f:2" "echo" [] "x" "y") "x" tt
    [finish "f:3" []; plain "f:4" "y"].
Proof.
  apply (stopsAt_inside echo "" [] tt "" tt _ _ "a"
           [("echo" +:+ NL +:+ "x" +:+ NL, directive "f:2" "echo" [] "x" "y");
            finish "f:3" []; plain "f:4" "y"]).
  - constructor.
  - split; [done|]. split; [by eexists|done].
  - by exists "a".
  - apply (stopsAt_here echo _ [] tt "" tt); [constructor|done..].
Qed.

Lemma first_mismatch_stops_witness :
  stopsAt echo "" (records (fileOf nestedWrong)) (wHandler (initial tt None))
    (directive "f:2" "echo" [] "x" "y") "x" tt [finish "f:3" []; plain "f:4" "y"]
  ∧ failed (wT (initial tt None)) = false
  ∧ ∃ w', runTestInternal "f" (fileOf nestedWrong) echo false (initial tt None)
          = (Stopped Goexit, w')
          ∧ stoppedAt (initial tt None) (directive "f:2" "echo" [] "x" "y") "x" tt
              [finish "f:3" []; plain "f:4" "y"] w'.
Proof.
  split; [apply nestedWrong_stops|]. split; [reflexivity|].
  apply (first_mismatch_stops echo "f" (fileOf nestedWrong) (initial tt None));
    [apply nestedWrong_stops|reflexivity].
Defined.

(** ** A directory of test files *)

Section WalkRunTest.
Context {H : Type} (f : handler H) (opens : string → string + string * stream).
Implicit Types (w : world H) (path : string).

(** [RunTest] without a rewrite, for a file that passes. *)
Lemma RunTest_passes path (content : string) (input : stream) w :
  opens path = inr (content, input) →
  (∀ h, ∃ out h', passes f false "" (records input) h out h') →
  failed (wT w) = false →
  ∃ w', RunTest path (opens path) f false w = (Normal tt, w') ∧ wT w' = wT w.
Proof.
  intros -> Hpass Hfl. destruct (Hpass (wHandler w)) as (out & h' & Hp).
  unfold RunTest. rewrite bind_run. unfold modify. cbv beta iota.
  destruct (runTestInternal_loop_passes f false path input
              {| wReader := wReader w; wT := wT w; wHandler := wHandler w;
                 wFile := Some content |} out h' Hp Hfl)
    as (w1 & Hloop & HT & _ & _ & Hb).
  rewrite runTestInternal_run. cbv zeta. rewrite Hloop, Hb.
  by exists w1.
Qed.

(** X23: [Walk] with a function that runs [RunTest] on the file it is
    handed, over a directory in which everything can be read and every file
    that [tempFileRe] does not set aside is a well-formed test file that
    passes: the walk returns, and the test is as it was, neither failed nor
    skipped, with nothing logged. *)
Theorem Walk_RunTest_passes path (at_path : node) w :
  Forall (λ p, ∃ content input,
                 opens p = inr (content, input)
                 ∧ ∀ h, ∃ out h', passes f false "" (records input) h out h')
    (leaves path at_path) →
  complaints path at_path = [] →
  failed (wT w) = false →
  ∃ w', Walk path at_path (λ p, RunTest p (opens p) f false) w = (Normal tt, w')
        ∧ wT w' = wT w.
Proof.
  revert path w.
  induction at_path as [err| |files IH|err] using node_induction;
    intros path w Hfiles Hread Hfl; try done.
  - apply Forall_cons in Hfiles as [(content & input & Hopen & Hpass) _].
    by eapply RunTest_passes.
  - revert w Hfiles Hread Hfl.
    induction IH as [|[name child] files Hchild _ IHfiles];
      intros w Hfiles Hread Hfl.
    { by exists w. }
    rewrite Walk_cons, bind_run.
    change (leaves path (Dir ((name, child) :: files)))
      with ((if tempFileRe_MatchString name then []
             else leaves (filepath.Join path name) child)
            ++ leaves path (Dir files)) in Hfiles.
    change (complaints path (Dir ((name, child) :: files)))
      with ((if tempFileRe_MatchString name then []
             else complaints (filepath.Join path name) child)
            ++ complaints path (Dir files)) in Hread.
    apply Forall_app in Hfiles as [Hhere Hfiles].
    apply app_eq_nil in Hread as [Hrhere Hread].
    simpl in Hchild.
    destruct (tempFileRe_MatchString name); [by apply IHfiles|].
    rewrite bind_run, Run_run.
    destruct (Hchild (filepath.Join path name) (subtestOf w) Hhere Hrhere eq_refl)
      as (wc & -> & HTc).
    simpl in HTc. cbv beta iota.
    destruct (IHfiles (backTo w wc)) as (w' & Hrun & HT'); [done|done| |].
    { simpl. by rewrite Hfl, HTc. }
    exists w'. split; [done|]. rewrite HT'. simpl. rewrite Hfl, HTc. simpl.
    rewrite <-Hfl. by destruct (wT w).
Qed.

End WalkRunTest.

Lemma oneFile_passes :
  Forall (λ p, ∃ content input,
                 holdsNested p = inr (content, input)
                 ∧ ∀ h, ∃ out h', passes echo false "" (records input) h out h')
    (leaves "testdata" oneFile).
Proof.
  apply Forall_cons. split; [|constructor].
  exists "", (fileOf nested). split; [reflexivity|].
  intros []. exists nestedOut, tt. apply nested_passes.
Qed.

Lemma Walk_RunTest_passes_witness :
  Forall (λ p, ∃ content input,
                 holdsNested p = inr (content, input)
                 ∧ ∀ h, ∃ out h', passes echo false "" (records input) h out h')
    (leaves "testdata" oneFile)
  ∧ complaints "testdata" oneFile = []
  ∧ failed (wT (initial tt None)) = false
  ∧ ∃ w', Walk "testdata" oneFile (λ p, RunTest p (holdsNested p) echo false)
            (initial tt None)
          = (Normal tt, w')
          ∧ wT w' = wT (initial tt None).
Proof.
  split; [apply oneFile_passes|]. split; [reflexivity|]. split; [reflexivity|].
  apply (Walk_RunTest_passes echo holdsNested "testdata" oneFile (initial tt None));
    [apply oneFile_passes|reflexivity|reflexivity].
Defined.
